(** * Reaching definitions (angr/analyses/reaching_definitions.py)

    A shallow embedding of the abstract value domain (DataSet), the abstract
    state (ReachingDefinitions, Uses), the VEX and AIL transfer handlers
    (SimEngineRD) with the dispatchers of the light engines
    (angr/engines/light/engine.py), the processing of a block, the
    observation points and the per-node iteration cap of the analysis,
    followed by the properties proved about them.  The first part is the
    model, one module per class of the sources; the second part holds the
    properties, one module per subject.

    Conventions of the embedding:
    - a Python integer is a [Z]; a bit width is an [N] ([1 << bits] is only
      defined for a width that is not negative); what a shift by a large
      count raises depends on the interpreter, a parameter of the model
      ([Interpreter]);
    - a Python [set] is a [gset], a [dict] a [gmap];
    - a [bool] inside a set is the integer it is equal to ([True == 1],
      [hash(True) == hash(1)], [isinstance(True, (int, long))]), while a bare
      [bool] returned by a handler is kept apart (the callers test it with
      [is True]);
    - a method that may raise returns an [Exc]; a method that mutates its
      receiver is a state transformer [M S A] that hands back the state it
      reached also when it raises;
    - the sets held by [Uses._uses_by_definition] and by [tmp_uses] are
      shared between a state and its copies, so they live in a [Heap] and the
      dictionaries hold references into it. *)

From stdpp Require Import gmap strings list fin_maps fin_sets.
From Stdlib Require Import ZArith.

Open Scope Z_scope.

(** ** Exceptions and the state-and-exception monad *)

Inductive exn :=
  | TypeError | KeyError | IndexError | ValueError | AssertionError
  | AttributeError | NotImplementedError | OverflowError | MemoryError.

Inductive Exc (A : Type) :=
  | Ok (a : A)
  | Raise (e : exn).
Arguments Ok {A} a.
Arguments Raise {A} e.

Definition exc_bind {A B} (x : Exc A) (k : A → Exc B) : Exc B :=
  match x with Ok a => k a | Raise e => Raise e end.

Definition M (S A : Type) : Type := S → Exc A * S.

Definition ret {S A} (a : A) : M S A := λ s, (Ok a, s).
Definition raise {S A} (e : exn) : M S A := λ s, (Raise e, s).
Definition bind {S A B} (m : M S A) (k : A → M S B) : M S B :=
  λ s, match m s with
       | (Ok a, s') => k a s'
       | (Raise e, s') => (Raise e, s')
       end.
Definition get {S} : M S S := λ s, (Ok s, s).
Definition modify {S} (f : S → S) : M S unit := λ s, (Ok tt, f s).
Definition lift_exc {S A} (x : Exc A) : M S A := λ s, (x, s).

Notation "'do' x <- m ; k" := (bind m (λ x, k))
  (at level 10, x name, m at level 100, k at level 200).
Notation "'do' ' p <- m ; k" := (bind m (λ x, match x with p => k end))
  (at level 10, p strict pattern, m at level 100, k at level 200).
Notation "m ;; k" := (bind m (λ _, k))
  (at level 100, k at level 200, right associativity).

(** [for x in xs: body x] *)
Fixpoint for_each {S A} (xs : list A) (body : A → M S unit) : M S unit :=
  match xs with
  | [] => ret tt
  | x :: xs' => body x ;; for_each xs' body
  end.

(** ** Values: the members of a DataSet *)

(** [Parameter.value] is a [Register] atom or an [SpOffset]. *)
Inductive ParameterValue :=
  | PRegister (reg_offset size : Z)
  | PSpOffset (bits offset : Z) (is_base : bool).

Inductive Value :=
  | VInt (z : Z)
  | VUndefined                                   (* DataSet.undefined *)
  | VSpOffset (bits offset : Z) (is_base : bool)
  | VRegisterOffset (bits reg offset : Z)
  | VParameter (value : ParameterValue).

(** [True] and [False] as members of a set. *)
Definition VTrue : Value := VInt 1.
Definition VFalse : Value := VInt 0.

#[global] Instance ParameterValue_eq_dec : EqDecision ParameterValue.
Proof. solve_decision. Defined.
#[global] Instance Value_eq_dec : EqDecision Value.
Proof. solve_decision. Defined.
#[global] Instance exn_eq_dec : EqDecision exn.
Proof. solve_decision. Defined.
#[global] Instance Exc_eq_dec `{EqDecision A} : EqDecision (Exc A).
Proof. solve_decision. Defined.

(** A closed equation between values with a decidable equality, settled by
    evaluating the decision. *)
Ltac by_evaluation :=
  match goal with
  | |- ?P => apply (bool_decide_eq_true_1 P); vm_compute; reflexivity
  end.

Definition ParameterValue_enc (p : ParameterValue) : Z * Z + Z * Z * bool :=
  match p with
  | PRegister o s => inl (o, s)
  | PSpOffset b o i => inr (b, o, i)
  end.
Definition ParameterValue_dec (x : Z * Z + Z * Z * bool) : ParameterValue :=
  match x with
  | inl (o, s) => PRegister o s
  | inr (b, o, i) => PSpOffset b o i
  end.
Lemma ParameterValue_dec_enc p : ParameterValue_dec (ParameterValue_enc p) = p.
Proof. by destruct p. Qed.
#[global] Instance ParameterValue_countable : Countable ParameterValue :=
  inj_countable' ParameterValue_enc ParameterValue_dec ParameterValue_dec_enc.

Definition Value_enc (v : Value)
  : Z + (unit + (Z * Z * bool + (Z * Z * Z + ParameterValue))) :=
  match v with
  | VInt z => inl z
  | VUndefined => inr (inl tt)
  | VSpOffset b o i => inr (inr (inl (b, o, i)))
  | VRegisterOffset b r o => inr (inr (inr (inl (b, r, o))))
  | VParameter p => inr (inr (inr (inr p)))
  end.
Definition Value_dec (x : Z + (unit + (Z * Z * bool + (Z * Z * Z + ParameterValue))))
  : Value :=
  match x with
  | inl z => VInt z
  | inr (inl _) => VUndefined
  | inr (inr (inl (b, o, i))) => VSpOffset b o i
  | inr (inr (inr (inl (b, r, o)))) => VRegisterOffset b r o
  | inr (inr (inr (inr p))) => VParameter p
  end.
Lemma Value_dec_enc v : Value_dec (Value_enc v) = v.
Proof. by destruct v. Qed.
#[global] Instance Value_countable : Countable Value :=
  inj_countable' Value_enc Value_dec Value_dec_enc.

(** ** The functions of Python's [operator] module used by DataSet *)

Inductive binop := add | sub | lshift | rshift | and_ | xor | or_.

(** The interpreter that runs the code, as far as the operators on integers
    depend on it.  Integers are unbounded, but a shift is carried out only
    by a count within the limits of the interpreter: CPython raises
    [OverflowError] for a count that does not fit its machine word,
    [MemoryError] when there is no room for the result, and CPython 2
    [ValueError] ('outrageous left shift count') in between.  Where the
    limits lie depends on the platform and on the operands:
    [shift_error b x y] is what [x << y] (for [lshift]) or [x >> y] (for
    [rshift]) raises when [y] is not negative, [None] when the shift is
    carried out.  It is never [TypeError].  The shifts by a width
    ([1 << bits] in [DataSet.__init__] and in the masks of the handlers)
    are taken to be within the limits: a width is that of a VEX type. *)
Class Interpreter := {
  shift_error : binop → Z → Z → option exn;
  shift_error_no_TypeError b x y : shift_error b x y ≠ Some TypeError
}.

(** What [x << y] or [x >> y] raises, if anything: a negative count raises
    [ValueError]; a count that is not negative is up to the interpreter. *)
Definition shift_raises {interp : Interpreter} (b : binop) (x y : Z)
    : option exn :=
  if decide (y < 0) then Some ValueError else shift_error b x y.

(** The operators on two integers. *)
Definition int_op {interp : Interpreter} (b : binop) (x y : Z) : Exc Z :=
  match b with
  | add => Ok (x + y)
  | sub => Ok (x - y)
  | lshift => match shift_raises lshift x y with
              | Some e => Raise e
              | None => Ok (Z.shiftl x y)
              end
  | rshift => match shift_raises rshift x y with
              | Some e => Raise e
              | None => Ok (Z.shiftr x y)
              end
  | and_ => Ok (Z.land x y)
  | xor => Ok (Z.lxor x y)
  | or_ => Ok (Z.lor x y)
  end.

Section Operator.
Context {interp : Interpreter}.
(** The arithmetic of [SpOffset] and [RegisterOffset] is defined in
    angr/engines/light/data.py, which is not among the sources: it is a
    parameter. *)
Variable offset_op : binop → Value → Value → Exc Value.

(** [op(s, o)]: integers by [int_op]; [Undefined] returns itself from every
    operator and reflected operator; [Parameter] defines no operator. *)
Definition operator (b : binop) (s o : Value) : Exc Value :=
  match s, o with
  | VInt x, VInt y => exc_bind (int_op b x y) (λ z, Ok (VInt z))
  | VUndefined, _ => Ok VUndefined
  | VInt _, VUndefined | VParameter _, VUndefined => Ok VUndefined
  | VInt _, VParameter _ | VParameter _, VInt _
  | VParameter _, VParameter _ => Raise TypeError
  | _, _ => offset_op b s o
  end.
End Operator.

Section Neg.
(** [-x] on an [SpOffset] or a [RegisterOffset]: defined in
    angr/engines/light/data.py as well. *)
Variable offset_neg : Value → Exc Value.

(** [operator.neg(s)]: an integer is negated, [Undefined.__neg__] returns
    the object itself, [Parameter] defines no [__neg__]. *)
Definition neg (s : Value) : Exc Value :=
  match s with
  | VInt x => Ok (VInt (- x))
  | VUndefined => Ok VUndefined
  | VParameter _ => Raise TypeError
  | _ => offset_neg s
  end.
End Neg.

(** ** DataSet *)

Module DataSet.

Record t := mk { data : gset Value; _bits : N }.

(** [self._mask = (1 << bits) - 1] *)
Definition _mask (self : t) : Z := Z.shiftl 1 (Z.of_N (_bits self)) - 1.

(** [DataSet(data, bits)]: [assert len(data) >= 1]; then [1 << bits]
    raises [ValueError] on a negative width. *)
Definition __init__ (data : gset Value) (bits : Z) : Exc t :=
  if decide (data = ∅) then Raise AssertionError
  else if decide (bits < 0) then Raise ValueError
  else Ok (mk data (Z.to_N bits)).

Definition __len__ (self : t) : nat := size (data self).

(** One turn of the inner loop of [_bin_op], on the result set [res]. *)
Definition _bin_op_body (op : Value → Value → Exc Value) (mask : Z)
    (o s : Value) (res : gset Value) : Exc (gset Value) :=
  if decide (o = VUndefined ∨ s = VUndefined) then Ok ({[VUndefined]} ∪ res)
  else match op s o with
       | Ok (VInt tmp) => Ok ({[VInt (Z.land tmp mask)]} ∪ res)
       | Ok tmp => Ok ({[tmp]} ∪ res)
       | Raise TypeError => Ok ({[VUndefined]} ∪ res)
       | Raise e => Raise e
       end.

Fixpoint _bin_op_inner (op : Value → Value → Exc Value) (mask : Z)
    (o : Value) (ss : list Value) (res : gset Value) : Exc (gset Value) :=
  match ss with
  | [] => Ok res
  | s :: ss' =>
      exc_bind (_bin_op_body op mask o s res) (_bin_op_inner op mask o ss')
  end.

Fixpoint _bin_op_outer (op : Value → Value → Exc Value) (mask : Z)
    (os ss : list Value) (res : gset Value) : Exc (gset Value) :=
  match os with
  | [] => Ok res
  | o :: os' =>
      exc_bind (_bin_op_inner op mask o ss res) (_bin_op_outer op mask os' ss)
  end.

Definition _bin_op (self other : t) (op : Value → Value → Exc Value) : Exc t :=
  exc_bind
    (_bin_op_outer op (_mask self) (elements (data other))
       (elements (data self)) ∅)
    (λ res, __init__ res (Z.of_N (_bits self))).

Section Operators.
Context {interp : Interpreter}.
Variable offset_op : binop → Value → Value → Exc Value.

Definition __add__ (self other : t) := _bin_op self other (operator offset_op add).
Definition __sub__ (self other : t) := _bin_op self other (operator offset_op sub).
Definition __lshift__ (self other : t) := _bin_op self other (operator offset_op lshift).
Definition __rshift__ (self other : t) := _bin_op self other (operator offset_op rshift).
Definition __and__ (self other : t) := _bin_op self other (operator offset_op and_).
Definition __xor__ (self other : t) := _bin_op self other (operator offset_op xor).
Definition __or__ (self other : t) := _bin_op self other (operator offset_op or_).

(** The method behind each operator. *)
Definition method (b : binop) : t → t → Exc t :=
  match b with
  | add => __add__ | sub => __sub__ | lshift => __lshift__
  | rshift => __rshift__ | and_ => __and__ | xor => __xor__ | or_ => __or__
  end.
End Operators.

(** One turn of the loop of [_un_op], on the result set [res]. *)
Definition _un_op_body (op : Value → Exc Value) (mask : Z) (s : Value)
    (res : gset Value) : Exc (gset Value) :=
  if decide (s = VUndefined) then Ok ({[VUndefined]} ∪ res)
  else match op s with
       | Ok (VInt tmp) => Ok ({[VInt (Z.land tmp mask)]} ∪ res)
       | Ok tmp => Ok ({[tmp]} ∪ res)
       | Raise TypeError => Ok ({[VUndefined]} ∪ res)
       | Raise e => Raise e
       end.

Fixpoint _un_op_loop (op : Value → Exc Value) (mask : Z) (ss : list Value)
    (res : gset Value) : Exc (gset Value) :=
  match ss with
  | [] => Ok res
  | s :: ss' => exc_bind (_un_op_body op mask s res) (_un_op_loop op mask ss')
  end.

Definition _un_op (self : t) (op : Value → Exc Value) : Exc t :=
  exc_bind (_un_op_loop op (_mask self) (elements (data self)) ∅)
    (λ res, __init__ res (Z.of_N (_bits self))).

Definition __neg__ (offset_neg : Value → Exc Value) (self : t) : Exc t :=
  _un_op self (neg offset_neg).

(** [__eq__]: same members, same width, same mask. *)
#[global] Instance eq_dec : EqDecision t.
Proof. solve_decision. Defined.

Definition enc (d : t) : gset Value * N := (data d, _bits d).
Definition dec (x : gset Value * N) : t := mk x.1 x.2.
Lemma DataSet_dec_enc d : dec (enc d) = d.
Proof. by destruct d. Qed.
#[global] Instance countable : Countable t := inj_countable' enc dec DataSet_dec_enc.

End DataSet.

(** ** Code locations, atoms and definitions *)

(** Modelled from the spec: [CodeLocation] (angr/analyses/code_location.py
    is not among the sources) is [(block_addr, stmt_idx, ins_addr?)], and a
    distinguished external location stands for what is defined before the
    analysed region ([ExternalCodeLocation] of the sources). *)
Inductive CodeLocation :=
  | CodeLoc (block_addr stmt_idx : Z) (ins_addr : option Z)
  | ExternalCodeLocation.

Inductive Atom :=
  | Tmp (tmp_idx : Z)
  | Register (reg_offset size : Z)
  | MemoryLocation (addr size : Z)
  | ParameterAtom (value : ParameterValue).

#[global] Instance CodeLocation_eq_dec : EqDecision CodeLocation.
Proof. solve_decision. Defined.
#[global] Instance Atom_eq_dec : EqDecision Atom.
Proof. solve_decision. Defined.

Definition CodeLocation_enc (c : CodeLocation) : Z * Z * option Z + unit :=
  match c with
  | CodeLoc b s i => inl (b, s, i)
  | ExternalCodeLocation => inr tt
  end.
Definition CodeLocation_dec (x : Z * Z * option Z + unit) : CodeLocation :=
  match x with
  | inl (b, s, i) => CodeLoc b s i
  | inr _ => ExternalCodeLocation
  end.
Lemma CodeLocation_dec_enc c : CodeLocation_dec (CodeLocation_enc c) = c.
Proof. by destruct c. Qed.
#[global] Instance CodeLocation_countable : Countable CodeLocation :=
  inj_countable' CodeLocation_enc CodeLocation_dec CodeLocation_dec_enc.

Definition Atom_enc (a : Atom) : Z + (Z * Z + (Z * Z + ParameterValue)) :=
  match a with
  | Tmp i => inl i
  | Register o s => inr (inl (o, s))
  | MemoryLocation a s => inr (inr (inl (a, s)))
  | ParameterAtom v => inr (inr (inr v))
  end.
Definition Atom_dec (x : Z + (Z * Z + (Z * Z + ParameterValue))) : Atom :=
  match x with
  | inl i => Tmp i
  | inr (inl (o, s)) => Register o s
  | inr (inr (inl (a, s))) => MemoryLocation a s
  | inr (inr (inr v)) => ParameterAtom v
  end.
Lemma Atom_dec_enc a : Atom_dec (Atom_enc a) = a.
Proof. by destruct a. Qed.
#[global] Instance Atom_countable : Countable Atom :=
  inj_countable' Atom_enc Atom_dec Atom_dec_enc.

(** AIL expressions (the [idx] and tag fields play no part here). *)
Inductive AilExpr :=
  | AilConst (value bits : Z)
  | AilTmp (tmp_idx bits : Z)
  | AilRegister (reg_offset bits : Z)
  | AilLoad (addr : AilExpr) (size : Z)
  | AilConvert (from_bits to_bits : Z) (is_signed : bool) (operand : AilExpr)
  | AilUnaryOp (op : string) (operand : AilExpr)
  | AilBinaryOp (op : string) (operand0 operand1 : AilExpr).

(** What an expression handler returns, and what a caller may pass as the
    [data] of a definition: a DataSet, a bare [bool], [None], a bare value
    ([SpOffset], [RegisterOffset]) or an AIL expression object. *)
Inductive PyObj :=
  | ODataSet (d : DataSet.t)
  | OBool (b : bool)
  | ONone
  | OValue (v : Value)
  | OAil (e : AilExpr).

(** [class Definition] *)
Module Def.

Record t := mk { atom : Atom; codeloc : CodeLocation; data : DataSet.t }.

(** [Definition(atom, codeloc, data)]: [assert type(data) is DataSet]. *)
Definition __init__ (atom : Atom) (codeloc : CodeLocation) (data : PyObj)
    : Exc t :=
  match data with
  | ODataSet d => Ok (mk atom codeloc d)
  | _ => Raise AssertionError
  end.

Definition offset (self : t) : Exc Z :=
  match atom self with
  | MemoryLocation addr _ => Ok addr
  | Register reg_offset _ => Ok reg_offset
  | _ => Raise ValueError
  end.

Definition size (self : t) : Exc Z :=
  match atom self with
  | MemoryLocation _ size => Ok size
  | Register _ size => Ok size
  | _ => Raise ValueError
  end.

#[global] Instance eq_dec : EqDecision t.
Proof. solve_decision. Defined.

Definition enc (d : t) : Atom * CodeLocation * DataSet.t :=
  (atom d, codeloc d, data d).
Definition dec (x : Atom * CodeLocation * DataSet.t) : t :=
  mk x.1.1 x.1.2 x.2.
Lemma Def_dec_enc d : dec (enc d) = d.
Proof. by destruct d. Qed.
#[global] Instance countable : Countable t := inj_countable' enc dec Def_dec_enc.

End Def.

(** ** KeyedRegion *)

Module KeyedRegion.

(** Modelled from the spec: [KeyedRegion] (angr/keyed_region.py is not
    among the sources) stores objects addressable by a base offset and a
    byte size.  A region is the set of its entries [(offset, size, obj)]. *)
Abbreviation t := (gset (Z * Z * Def.t)).

Definition __init__ : t := ∅.

(** The entry [e] is fully covered by [[offset, offset + size)]. *)
Definition covered (offset size : Z) (e : Z * Z * Def.t) : Prop :=
  offset ≤ e.1.1 ∧ e.1.1 + e.1.2 ≤ offset + size.

(** The extent of [e] contains [offset]. *)
Definition contains (offset : Z) (e : Z * Z * Def.t) : Prop :=
  e.1.1 ≤ offset < e.1.1 + e.1.2.

#[global] Instance covered_dec offset size e : Decision (covered offset size e).
Proof. unfold covered. apply _. Defined.
#[global] Instance contains_dec offset e : Decision (contains offset e).
Proof. unfold contains. apply _. Defined.

(** Modelled from the spec: [set_object(offset, obj, size)] installs [obj]
    over [[offset, offset + size)]; prior entries fully covered by the new
    range are replaced, entries only partially overlapping are left in
    place. *)
Definition set_object (self : t) (offset : Z) (obj : Def.t) (size : Z) : t :=
  {[ (offset, size, obj) ]} ∪ filter (λ e, ¬ covered offset size e) self.

(** Modelled from the spec: [get_objects_by_offset(offset)] returns the
    (possibly empty) set of objects whose extent contains [offset]. *)
Definition get_objects_by_offset (self : t) (offset : Z) : gset Def.t :=
  set_map snd (filter (contains offset) self).

(** Modelled from the spec: [copy()] is an independent deep copy. *)
Definition copy (self : t) : t := self.

(** Modelled from the spec: [merge(other)] is the pointwise union: the
    result at any offset is the union of the two sides' object sets. *)
Definition merge (self other : t) : t := self ∪ other.

End KeyedRegion.

(** ** The heap of shared sets *)

(** The sets of code locations that [Uses._uses_by_definition] maps to, and
    the sets that [tmp_uses] maps to, are Python objects that a shallow
    [dict.copy()] shares: the heap maps their addresses to their members. *)
Record Heap := mkHeap {
  use_sets : gmap nat (gset CodeLocation);
  tmp_use_sets : gmap nat (gset (CodeLocation * (Atom * CodeLocation)))
}.

Definition empty_heap : Heap := mkHeap ∅ ∅.

#[global] Instance Heap_eq_dec : EqDecision Heap.
Proof. solve_decision. Defined.

(** ** Uses *)

Module Uses.

Record t := mk {
  _uses_by_definition : gmap Def.t nat;      (* defaultdict(set) *)
  _current_uses : KeyedRegion.t
}.

#[global] Instance eq_dec : EqDecision t.
Proof. solve_decision. Defined.

Definition __init__ : t := mk ∅ KeyedRegion.__init__.

(** The members of the set at address [r]. *)
Definition deref (h : gmap nat (gset CodeLocation)) (r : nat)
    : gset CodeLocation :=
  default ∅ (h !! r).

(** [self._uses_by_definition[definition]] on a [defaultdict(set)]: a
    missing key is bound to a new empty set. *)
Definition _uses_by_definition_getitem (definition : Def.t)
    : M (gmap nat (gset CodeLocation) * t) nat :=
  λ '(h, self),
    match _uses_by_definition self !! definition with
    | Some r => (Ok r, (h, self))
    | None =>
        let r := fresh (dom h) in
        (Ok r, (<[r := ∅]> h,
                mk (<[definition := r]> (_uses_by_definition self))
                   (_current_uses self)))
    end.

Definition add_use (definition : Def.t) (codeloc : CodeLocation)
    : M (gmap nat (gset CodeLocation) * t) unit :=
  do r <- _uses_by_definition_getitem definition;
  modify (λ '(h, self), (<[r := {[codeloc]} ∪ deref h r]> h, self)) ;;
  do offset <- lift_exc (Def.offset definition);
  do size <- lift_exc (Def.size definition);
  modify (λ '(h, self),
    (h, mk (_uses_by_definition self)
           (KeyedRegion.set_object (_current_uses self) offset definition size))).

Definition get_uses (h : gmap nat (gset CodeLocation)) (self : t)
    (definition : Def.t) : gset CodeLocation :=
  match _uses_by_definition self !! definition with
  | None => ∅
  | Some r => deref h r
  end.

Definition get_current_uses (self : t) (definition : Def.t)
    : Exc (gset Def.t) :=
  exc_bind (Def.offset definition) (λ offset,
  exc_bind (Def.size definition) (λ size,
    Ok (⋃ ((λ pos, KeyedRegion.get_objects_by_offset (_current_uses self)
                      (offset + pos)) <$> seqZ 0 size)))).

(** [dict.copy()] copies the dictionary, not the sets it maps to. *)
Definition copy (self : t) : t :=
  mk (_uses_by_definition self) (KeyedRegion.copy (_current_uses self)).

(** One turn of the loop of [merge]: [self[k] = v] or [self[k] |= v]. *)
Definition merge_item (kv : Def.t * nat)
    : M (gmap nat (gset CodeLocation) * t) unit :=
  modify (λ '(h, self),
    match _uses_by_definition self !! kv.1 with
    | None => (h, mk (<[kv.1 := kv.2]> (_uses_by_definition self))
                     (_current_uses self))
    | Some r => (<[r := deref h r ∪ deref h kv.2]> h, self)
    end).

Definition merge (other : t) : M (gmap nat (gset CodeLocation) * t) unit :=
  for_each (map_to_list (_uses_by_definition other)) merge_item ;;
  modify (λ '(h, self),
    (h, mk (_uses_by_definition self)
           (KeyedRegion.merge (_current_uses self) (_current_uses other)))).

End Uses.

(** ** The architecture descriptor *)

Record Arch := mkArch {
  bits : Z;
  bytes : Z;
  sp_offset : Z;
  bp_offset : Z;
  ip_offset : Z;
  registers : gmap string (Z * Z);       (* name -> (offset, size) *)
  register_names : gmap Z string
}.

#[global] Instance Arch_eq_dec : EqDecision Arch.
Proof. solve_decision. Defined.

(** ** ReachingDefinitions *)

Module ReachingDefinitions.

Record t := mk {
  arch : Arch;
  _track_tmps : bool;
  analysis : bool;                     (* whether the back-pointer is set *)
  register_definitions : KeyedRegion.t;
  memory_definitions : KeyedRegion.t;
  tmp_definitions : gmap Z (Atom * CodeLocation);
  register_uses : Uses.t;
  memory_uses : Uses.t;
  tmp_uses : gmap Z nat;                (* defaultdict(set) *)
  _dead_virgin_definitions : gset Def.t
}.

#[global] Instance eq_dec : EqDecision t.
Proof. solve_decision. Defined.

Definition set_register_definitions (v : KeyedRegion.t) (s : t) : t :=
  mk (arch s) (_track_tmps s) (analysis s) v (memory_definitions s)
     (tmp_definitions s) (register_uses s) (memory_uses s) (tmp_uses s)
     (_dead_virgin_definitions s).
Definition set_memory_definitions (v : KeyedRegion.t) (s : t) : t :=
  mk (arch s) (_track_tmps s) (analysis s) (register_definitions s) v
     (tmp_definitions s) (register_uses s) (memory_uses s) (tmp_uses s)
     (_dead_virgin_definitions s).
Definition set_tmp_definitions (v : gmap Z (Atom * CodeLocation)) (s : t) : t :=
  mk (arch s) (_track_tmps s) (analysis s) (register_definitions s)
     (memory_definitions s) v (register_uses s) (memory_uses s) (tmp_uses s)
     (_dead_virgin_definitions s).
Definition set_register_uses (v : Uses.t) (s : t) : t :=
  mk (arch s) (_track_tmps s) (analysis s) (register_definitions s)
     (memory_definitions s) (tmp_definitions s) v (memory_uses s) (tmp_uses s)
     (_dead_virgin_definitions s).
Definition set_memory_uses (v : Uses.t) (s : t) : t :=
  mk (arch s) (_track_tmps s) (analysis s) (register_definitions s)
     (memory_definitions s) (tmp_definitions s) (register_uses s) v (tmp_uses s)
     (_dead_virgin_definitions s).
Definition set_tmp_uses (v : gmap Z nat) (s : t) : t :=
  mk (arch s) (_track_tmps s) (analysis s) (register_definitions s)
     (memory_definitions s) (tmp_definitions s) (register_uses s)
     (memory_uses s) v (_dead_virgin_definitions s).
Definition set_dead_virgin_definitions (v : gset Def.t) (s : t) : t :=
  mk (arch s) (_track_tmps s) (analysis s) (register_definitions s)
     (memory_definitions s) (tmp_definitions s) (register_uses s)
     (memory_uses s) (tmp_uses s) v.
Definition set_analysis (v : bool) (s : t) : t :=
  mk (arch s) (_track_tmps s) v (register_definitions s)
     (memory_definitions s) (tmp_definitions s) (register_uses s)
     (memory_uses s) (tmp_uses s) (_dead_virgin_definitions s).

(** [ReachingDefinitions(arch, loader, track_tmps, analysis,
    init_func=False)] *)
Definition __init__ (arch : Arch) (track_tmps analysis : bool) : t :=
  mk arch track_tmps analysis KeyedRegion.__init__ KeyedRegion.__init__ ∅
     Uses.__init__ Uses.__init__ ∅ ∅.

(** A method of a state runs on the heap and the state. *)
Definition update (f : t → t) : M (Heap * t) unit :=
  modify (λ '(h, s), (h, f s)).
Definition self_ : M (Heap * t) t := λ '(h, s), (Ok s, (h, s)).

(** A method of [self.register_uses] or [self.memory_uses], run from a
    method of the state. *)
Definition on_uses {A} (proj : t → Uses.t) (inj : Uses.t → t → t)
    (m : M (gmap nat (gset CodeLocation) * Uses.t) A) : M (Heap * t) A :=
  λ '(h, s),
    match m (use_sets h, proj s) with
    | (r, (uh, u)) => (r, (mkHeap uh (tmp_use_sets h), inj u s))
    end.
Definition on_register_uses {A} := @on_uses A register_uses set_register_uses.
Definition on_memory_uses {A} := @on_uses A memory_uses set_memory_uses.

Definition copy (self : t) : t :=
  mk (arch self) (_track_tmps self) (analysis self)
     (KeyedRegion.copy (register_definitions self))
     (KeyedRegion.copy (memory_definitions self))
     (tmp_definitions self)                       (* dict.copy() *)
     (Uses.copy (register_uses self))
     (Uses.copy (memory_uses self))
     (tmp_uses self)                              (* defaultdict.copy() *)
     (_dead_virgin_definitions self).             (* set.copy() *)

(** The body of the loop of [merge], on [state]. *)
Definition merge_other (other : t) : M (Heap * t) unit :=
  update (λ state, set_register_definitions
    (KeyedRegion.merge (register_definitions state) (register_definitions other))
    state) ;;
  update (λ state, set_memory_definitions
    (KeyedRegion.merge (memory_definitions state) (memory_definitions other))
    state) ;;
  on_register_uses (Uses.merge (register_uses other)) ;;
  on_memory_uses (Uses.merge (memory_uses other)) ;;
  update (λ state, set_dead_virgin_definitions
    (_dead_virgin_definitions state ∪ _dead_virgin_definitions other) state).

(** [self.merge(other, ...)]: returns the merged state; the heap is the
    one the call leaves behind. *)
Definition merge (self : t) (others : list t) : M Heap t :=
  λ h, let state := copy self in
       match for_each others merge_other (h, state) with
       | (Ok _, (h', state')) => (Ok state', h')
       | (Raise e, (h', _)) => (Raise e, h')
       end.

Definition downsize : M (Heap * t) unit := update (set_analysis false).

(** [for current_def in current_defs:
       uses |= self.register_uses.get_current_uses(current_def)] *)
Fixpoint _current_uses_of (register_uses : Uses.t) (current_defs : list Def.t)
    (uses : gset Def.t) : Exc (gset Def.t) :=
  match current_defs with
  | [] => Ok uses
  | current_def :: rest =>
      exc_bind (Uses.get_current_uses register_uses current_def)
        (λ u, _current_uses_of register_uses rest (uses ∪ u))
  end.

Definition _kill_and_add_register_definition (atom_reg_offset atom_size : Z)
    (code_loc : CodeLocation) (data : PyObj) : M (Heap * t) unit :=
  do self <- self_;
  let current_defs :=
    KeyedRegion.get_objects_by_offset (register_definitions self) atom_reg_offset in
  (if decide (current_defs = ∅) then ret tt
   else
     do uses <- lift_exc
       (_current_uses_of (register_uses self) (elements current_defs) ∅);
     if decide (uses = ∅)
     then update (λ s, set_dead_virgin_definitions
                         (_dead_virgin_definitions s ∪ current_defs) s)
     else ret tt) ;;
  do definition <- lift_exc
    (Def.__init__ (Register atom_reg_offset atom_size) code_loc data);
  update (λ s, set_register_definitions
    (KeyedRegion.set_object (register_definitions s) atom_reg_offset
       definition atom_size) s).

Definition _kill_and_add_memory_definition (atom_addr atom_size : Z)
    (code_loc : CodeLocation) (data : PyObj) : M (Heap * t) unit :=
  do definition <- lift_exc
    (Def.__init__ (MemoryLocation atom_addr atom_size) code_loc data);
  update (λ s, set_memory_definitions
    (KeyedRegion.set_object (memory_definitions s) atom_addr
       definition atom_size) s).

Definition _add_tmp_definition (atom : Atom) (atom_tmp_idx : Z)
    (code_loc : CodeLocation) : M (Heap * t) unit :=
  update (λ s, set_tmp_definitions
    (<[atom_tmp_idx := (atom, code_loc)]> (tmp_definitions s)) s).

Definition kill_and_add_definition (atom : Atom) (code_loc : CodeLocation)
    (data : PyObj) : M (Heap * t) unit :=
  match atom with
  | Register reg_offset size =>
      _kill_and_add_register_definition reg_offset size code_loc data
  | MemoryLocation addr size =>
      _kill_and_add_memory_definition addr size code_loc data
  | Tmp tmp_idx => _add_tmp_definition atom tmp_idx code_loc
  | _ => raise NotImplementedError
  end.

(** "Overwrite existing definitions w.r.t 'atom' with a dummy definition
    instance." *)
Definition kill_definitions (atom : Atom) (code_loc : CodeLocation)
    (data : PyObj) : M (Heap * t) unit :=
  kill_and_add_definition atom code_loc data.

Definition _add_register_use (atom_reg_offset : Z) (code_loc : CodeLocation)
    : M (Heap * t) unit :=
  do self <- self_;
  let current_defs :=
    KeyedRegion.get_objects_by_offset (register_definitions self) atom_reg_offset in
  for_each (elements current_defs) (λ current_def,
    on_register_uses (Uses.add_use current_def code_loc)).

Definition _add_memory_use (atom_addr : Z) (code_loc : CodeLocation)
    : M (Heap * t) unit :=
  do self <- self_;
  let current_defs :=
    KeyedRegion.get_objects_by_offset (memory_definitions self) atom_addr in
  for_each (elements current_defs) (λ current_def,
    on_memory_uses (Uses.add_use current_def code_loc)).

(** [self.tmp_uses[idx]] on a [defaultdict(set)]. *)
Definition tmp_uses_getitem (idx : Z) : M (Heap * t) nat :=
  λ '(h, s),
    match tmp_uses s !! idx with
    | Some r => (Ok r, (h, s))
    | None =>
        let r := fresh (dom (tmp_use_sets h)) in
        (Ok r, (mkHeap (use_sets h) (<[r := ∅]> (tmp_use_sets h)),
                set_tmp_uses (<[idx := r]> (tmp_uses s)) s))
    end.

Definition _add_tmp_use (atom_tmp_idx : Z) (code_loc : CodeLocation)
    : M (Heap * t) unit :=
  do self <- self_;
  match tmp_definitions self !! atom_tmp_idx with
  | None => raise KeyError
  | Some current_def =>
      do r <- tmp_uses_getitem atom_tmp_idx;
      modify (λ '(h, s),
        (mkHeap (use_sets h)
           (<[r := {[(code_loc, current_def)]} ∪ default ∅ (tmp_use_sets h !! r)]>
              (tmp_use_sets h)), s))
  end.

Definition add_use (atom : Atom) (code_loc : CodeLocation) : M (Heap * t) unit :=
  match atom with
  | Register reg_offset _ => _add_register_use reg_offset code_loc
  | MemoryLocation addr _ => _add_memory_use addr code_loc
  | Tmp tmp_idx => _add_tmp_use tmp_idx code_loc
  | _ => ret tt
  end.

(** The members of [self.tmp_uses[idx]], read without creating the key. *)
Definition get_tmp_uses (h : Heap) (self : t) (idx : Z)
    : gset (CodeLocation * (Atom * CodeLocation)) :=
  match tmp_uses self !! idx with
  | None => ∅
  | Some r => default ∅ (tmp_use_sets h !! r)
  end.

End ReachingDefinitions.

(** ** The light engine: what SimEngineLightVEX and SimEngineLightAIL share *)

#[global] Instance AilExpr_eq_dec : EqDecision AilExpr.
Proof. solve_decision. Defined.
#[global] Instance PyObj_eq_dec : EqDecision PyObj.
Proof. solve_decision. Defined.

(** The engine while it processes a block: the state it works on, the
    temporaries of the block, and where it is. *)
Record Engine := mkEngine {
  state : ReachingDefinitions.t;
  tmps : gmap Z PyObj;
  block_addr : Z;
  stmt_idx : Z;
  ins_addr : option Z
}.

#[global] Instance Engine_eq_dec : EqDecision Engine.
Proof. solve_decision. Defined.

Definition set_state (v : ReachingDefinitions.t) (e : Engine) : Engine :=
  mkEngine v (tmps e) (block_addr e) (stmt_idx e) (ins_addr e).
Definition set_tmps (v : gmap Z PyObj) (e : Engine) : Engine :=
  mkEngine (state e) v (block_addr e) (stmt_idx e) (ins_addr e).
Definition set_stmt_idx (v : Z) (e : Engine) : Engine :=
  mkEngine (state e) (tmps e) (block_addr e) v (ins_addr e).
Definition set_ins_addr (v : option Z) (e : Engine) : Engine :=
  mkEngine (state e) (tmps e) (block_addr e) (stmt_idx e) v.

(** A method of [self.state], run from a handler of the engine. *)
Definition on_state {A} (m : M (Heap * ReachingDefinitions.t) A)
    : M (Heap * Engine) A :=
  λ '(h, e),
    match m (h, state e) with
    | (r, (h', s')) => (r, (h', set_state s' e))
    end.

Definition engine_ : M (Heap * Engine) Engine := λ '(h, e), (Ok e, (h, e)).

(** [self._codeloc()] *)
Definition _codeloc : M (Heap * Engine) CodeLocation :=
  do e <- engine_; ret (CodeLoc (block_addr e) (stmt_idx e) (ins_addr e)).

(** [len(x)], [iter(x)] and [v in x] on what a handler returned: only a
    DataSet has a length and can be iterated. *)
Definition py_len (x : PyObj) : Exc nat :=
  match x with
  | ODataSet d => Ok (DataSet.__len__ d)
  | _ => Raise TypeError
  end.
Definition py_iter (x : PyObj) : Exc (list Value) :=
  match x with
  | ODataSet d => Ok (elements (DataSet.data d))
  | _ => Raise TypeError
  end.
Definition py_contains (v : Value) (x : PyObj) : Exc bool :=
  match x with
  | ODataSet d => Ok (bool_decide (v ∈ DataSet.data d))
  | _ => Raise TypeError
  end.

(** [DataSet.get_first_element] *)
Definition get_first_element (self : DataSet.t) : Exc Value :=
  match elements (DataSet.data self) with
  | [] => Raise AssertionError
  | x :: _ => Ok x
  end.

(** [x.data] on what a handler returned. *)
Definition py_data (x : PyObj) : Exc (gset Value) :=
  match x with
  | ODataSet d => Ok (DataSet.data d)
  | _ => Raise AttributeError
  end.

(** [isinstance(x, (int, long))] holds of an integer and of a [bool]; the
    integer that [x] then is. *)
Definition as_int (x : PyObj) : option Z :=
  match x with
  | OBool b => Some (if b then 1 else 0)
  | OValue (VInt z) => Some z
  | _ => None
  end.

(** [DataSet(data, bits)] as what a handler returns. *)
Definition new_DataSet (data : gset Value) (bits : N) : Exc PyObj :=
  exc_bind (DataSet.__init__ data (Z.of_N bits)) (λ d, Ok (ODataSet d)).

Section PyOperators.
Context {interp : Interpreter}.
Variable offset_op : binop → Value → Value → Exc Value.
(** [x op y] when an operand is an [SpOffset], a [RegisterOffset] or an AIL
    expression: the classes of data.py and of ailment, which are not among
    the sources, say what it is. *)
Variable object_op : binop → PyObj → PyObj → Exc PyObj.

(** [x op y] on what the handlers return.  A DataSet on the left runs
    [_bin_op], which asserts that the other operand is a DataSet, and
    DataSet defines no reflected operator; [Undefined] returns itself from
    its operators and its reflected operators; [&], [|] and [^] on two
    [bool]s give a [bool], every other operator on integers and [bool]s an
    integer; [None] and [Parameter] define no operator. *)
Definition py_binop (b : binop) (x y : PyObj) : Exc PyObj :=
  match x, y with
  | ODataSet d0, ODataSet d1 =>
      exc_bind (DataSet.method offset_op b d0 d1) (λ d, Ok (ODataSet d))
  | ODataSet _, _ => Raise AssertionError
  | OValue VUndefined, _ => Ok (OValue VUndefined)
  | (OValue (VSpOffset _ _ _) | OValue (VRegisterOffset _ _ _) | OAil _), _
  | _, (OValue (VSpOffset _ _ _) | OValue (VRegisterOffset _ _ _) | OAil _) =>
      object_op b x y
  | _, OValue VUndefined => Ok (OValue VUndefined)
  | OBool p, OBool q =>
      match b with
      | and_ => Ok (OBool (p && q))
      | or_ => Ok (OBool (p || q))
      | xor => Ok (OBool (xorb p q))
      | _ => exc_bind (int_op b (if p then 1 else 0) (if q then 1 else 0))
               (λ z, Ok (OValue (VInt z)))
      end
  | _, _ =>
      match as_int x, as_int y with
      | Some a, Some c => exc_bind (int_op b a c) (λ z, Ok (OValue (VInt z)))
      | _, _ => Raise TypeError
      end
  end.
End PyOperators.

(** ** SimEngineRD on VEX *)

(** VEX expressions.  The type of an expression, and with it
    [expr.result_size(self.tyenv)], comes from pyvex. *)
Inductive VexExpr :=
  | VexRdTmp (tmp : Z)
  | VexGet (offset : Z)
  | VexLoad (addr : VexExpr)
  | VexITE (cond iftrue iffalse : VexExpr)
  | VexConst (value : Z)
  | VexUnop (op : string) (arg : VexExpr)
  | VexBinop (op : string) (arg0 arg1 : VexExpr)
  | VexCCall (args : list VexExpr).

(** VEX statements.  [VexNoOp] stands for a statement of a type that the
    engine has no handler for ([NoOp], [PutI], [CAS], [LLSC], [MBE],
    [Dirty]).  [LoadG] is left out: its handler builds a [Load] of a type
    of its own, which [VexLoad] does not carry. *)
Inductive VexStmt :=
  | VexIMark (addr delta : Z)
  | VexWrTmp (tmp : Z) (data : VexExpr)
  | VexPut (offset : Z) (data : VexExpr)
  | VexStore (addr data : VexExpr)
  | VexStoreG (guard addr data : VexExpr)
  | VexExit
  | VexAbiHint
  | VexNoOp.

#[global] Instance VexExpr_eq_dec : EqDecision VexExpr.
Proof.
  unfold EqDecision, Decision. fix go 1. intros x y.
  assert (Hl : ∀ l l' : list VexExpr, {l = l'} + {l ≠ l'}).
  { intros l l'. apply (list_eq_dec (dec := go)). }
  decide equality; first [apply Z.eq_dec | apply String.string_dec].
Defined.
#[global] Instance VexStmt_eq_dec : EqDecision VexStmt.
Proof. solve_decision. Defined.

Module VEX.
Import ReachingDefinitions.

Section Handlers.
(** [expr.result_size(self.tyenv)], in bits. *)
Variable result_size : VexExpr → N.
(** [self._expr]: the dispatcher of SimEngineLightVEX, which a handler
    reaches through [self] for its operands. *)
Variable _expr : VexExpr → M (Heap * Engine) PyObj.

Definition _handle_RdTmp (expr : VexExpr) (tmp : Z) : M (Heap * Engine) PyObj :=
  do e <- engine_;
  match tmps e !! tmp with
  | Some v => ret v
  | None =>
      lift_exc (exc_bind (DataSet.__init__ {[VUndefined]} (Z.of_N (result_size expr)))
                  (λ d, Ok (ODataSet d)))
  end.

Definition _handle_Const (expr : VexExpr) (value : Z) : M (Heap * Engine) PyObj :=
  lift_exc (exc_bind (DataSet.__init__ {[VInt value]} (Z.of_N (result_size expr)))
              (λ d, Ok (ODataSet d))).

(** [len(expr_0) == 1 and len(expr_1) == 1] *)
Definition both_of_length_1 (expr_0 expr_1 : PyObj) : Exc bool :=
  exc_bind (py_len expr_0) (λ n0,
    if decide (n0 = 1%nat)
    then exc_bind (py_len expr_1) (λ n1, Ok (bool_decide (n1 = 1%nat)))
    else Ok false).

(** The first elements [e0], [e1] of two operands of length 1, when both
    are integers. *)
Definition integer_operands (expr_0 expr_1 : PyObj) : Exc (option (Z * Z)) :=
  match expr_0, expr_1 with
  | ODataSet d0, ODataSet d1 =>
      exc_bind (get_first_element d0) (λ e0,
      exc_bind (get_first_element d1) (λ e1,
        match e0, e1 with
        | VInt z0, VInt z1 => Ok (Some (z0, z1))
        | _, _ => Ok None
        end))
  | _, _ => Raise AttributeError
  end.

(** The comparison handlers are the same code up to what they return on
    two integers [e0], [e1]. *)
Definition _handle_comparison (on_integers : Z → Z → Exc PyObj)
    (expr arg0 arg1 : VexExpr) : M (Heap * Engine) PyObj :=
  do expr_0 <- _expr arg0;
  do expr_1 <- _expr arg1;
  do singletons <- lift_exc (both_of_length_1 expr_0 expr_1);
  do operands <- (if singletons : bool
                  then lift_exc (integer_operands expr_0 expr_1)
                  else ret None);
  match operands with
  | Some (e0, e1) => lift_exc (on_integers e0 e1)
  | None =>
      (* l.warning('Comparison of multiple values / different types.') *)
      lift_exc (exc_bind
        (DataSet.__init__ {[VTrue; VFalse]} (Z.of_N (result_size expr)))
        (λ d, Ok (ODataSet d)))
  end.

(** [return e0 == e1] *)
Definition _handle_CmpEQ (expr arg0 arg1 : VexExpr) : M (Heap * Engine) PyObj :=
  _handle_comparison (λ e0 e1, Ok (OBool (bool_decide (e0 = e1)))) expr arg0 arg1.

(** [return e0 != e1] *)
Definition _handle_CmpNE (expr arg0 arg1 : VexExpr) : M (Heap * Engine) PyObj :=
  _handle_comparison (λ e0 e1, Ok (OBool (bool_decide (e0 ≠ e1)))) expr arg0 arg1.

(** [return e0 < e1] *)
Definition _handle_CmpLT (expr arg0 arg1 : VexExpr) : M (Heap * Engine) PyObj :=
  _handle_comparison (λ e0 e1, Ok (OBool (bool_decide (e0 < e1)))) expr arg0 arg1.

(** [DataSet({0x08}, size)] if [e0 < e1], [{0x04}] if [e0 > e1], else
    [{0x02}]. *)
Definition _handle_CmpORD (expr arg0 arg1 : VexExpr) : M (Heap * Engine) PyObj :=
  _handle_comparison
    (λ e0 e1,
       exc_bind
         (DataSet.__init__
            {[VInt (if decide (e0 < e1) then 0x08
                    else if decide (e0 > e1) then 0x04 else 0x02)]}
            (Z.of_N (result_size expr)))
         (λ d, Ok (ODataSet d)))
    expr arg0 arg1.

(** [MemoryLocation(a, size)] as the key of a region.  The spec's
    KeyedRegion is keyed by integers; what it does with another object is
    not specified, and is modelled as a [TypeError]. *)
Definition memory_location_at (a : Value) (size : Z) : Exc Atom :=
  match a with
  | VInt addr => Ok (MemoryLocation addr size)
  | _ => Raise TypeError
  end.

(** The body of the loop of [_handle_Store] for the address [a]. *)
Definition _handle_Store_at (size : Z) (data : PyObj) (a : Value)
    : M (Heap * Engine) unit :=
  if decide (a = VUndefined) then
    ret tt       (* l.info('Memory address undefined, ...') *)
  else
    (* if DataSet.undefined in data: l.info(...) *)
    do _ <- lift_exc (py_contains VUndefined data);
    do memloc <- lift_exc (memory_location_at a size);
    do codeloc <- _codeloc;
    on_state (kill_and_add_definition memloc codeloc data).

Definition _handle_Store (stmt_addr stmt_data : VexExpr) : M (Heap * Engine) unit :=
  do addr <- _expr stmt_addr;
  let size := Z.of_N (result_size stmt_data) / 8 in
  do data <- _expr stmt_data;
  do addrs <- lift_exc (py_iter addr);
  for_each addrs (_handle_Store_at size data).

End Handlers.

(** The dispatcher on the atoms of flat VEX: the operands of a statement or
    of an operator are temporaries and constants.  Other expressions are
    outside this fragment. *)
Definition _expr_atom (result_size : VexExpr → N) (expr : VexExpr)
    : M (Heap * Engine) PyObj :=
  match expr with
  | VexRdTmp tmp => _handle_RdTmp result_size expr tmp
  | VexConst value => _handle_Const result_size expr value
  | _ => raise NotImplementedError
  end.

(** *** The other handlers of SimEngineRD and of SimEngineLightVEX *)

(** An entry of [vex_operations] (angr/engines/vex/irop.py is not among the
    sources), as far as the handlers read its [op_attrs]: the truth of
    ['conversion'], and ['to_size'] when it is a number ([int(None)] raises
    [TypeError]). *)
Record SimIROp := mkSimIROp { conversion : bool; to_size : option Z }.

(** [try: return ... except TypeError: return None] *)
Definition except_TypeError_None (r : Exc PyObj) : Exc PyObj :=
  match r with
  | Raise TypeError => Ok ONone
  | _ => r
  end.

(** [struct.unpack(fmt, s)[0]] for an unsigned format of the length of
    [s]: little endian ([<Q], [<I]) and big endian ([>Q], [>I]). *)
Definition unpack_le (mem : list Byte.byte) : Z :=
  foldr (λ b acc, Z.of_N (Byte.to_N b) + 256 * acc) 0 mem.
Definition unpack_be (mem : list Byte.byte) : Z :=
  foldl (λ acc b, 256 * acc + Z.of_N (Byte.to_N b)) 0 mem.

Section MoreHandlers.
Context {interp : Interpreter}.
Variable result_size : VexExpr → N.
Variable offset_op : binop → Value → Value → Exc Value.
Variable object_op : binop → PyObj → PyObj → Exc PyObj.
(** What the body of the [try] in [_handle_Sar] comes to when an operand is
    an [SpOffset] or a [RegisterOffset]. *)
Variable offset_sar : Z → Value → Value → Exc Value.
Variable vex_operations : gmap string SimIROp.
(** [self.state.loader.memory.read_bytes(addr, n)] *)
Variable read_bytes : Z → Z → Exc (list Byte.byte).
(** [self.arch.memory_endness] *)
Variable memory_endness : string.
Variable _expr : VexExpr → M (Heap * Engine) PyObj.

(** [self.arch.register_names[reg_offset]], which is evaluated as an
    argument of [l.info] when [Undefined] is among the data. *)
Definition register_name_of (reg_offset : Z) : M (Heap * Engine) unit :=
  do e <- engine_;
  match register_names (arch (state e)) !! reg_offset with
  | Some _ => ret tt
  | None => raise KeyError
  end.

(** The members of the data of the definitions [defs]:
    [for current_def in defs: data.update(current_def.data)]. *)
Definition data_of (defs : gset Def.t) : gset Value :=
  ⋃ ((λ current_def, DataSet.data (Def.data current_def)) <$> elements defs).

(** [if len(data) == 0: data.add(DataSet.undefined)] *)
Definition or_undefined (data : gset Value) : gset Value :=
  if decide (data = ∅) then {[VUndefined]} else data.

(** **** Statements *)

Definition _handle_Put (reg_offset : Z) (stmt_data : VexExpr)
    : M (Heap * Engine) unit :=
  let size := Z.of_N (result_size stmt_data) / 8 in
  let reg := Register reg_offset size in
  do data <- _expr stmt_data;
  do undefined <- lift_exc (py_contains VUndefined data);
  (if undefined : bool then register_name_of reg_offset else ret tt) ;;
  do codeloc <- _codeloc;
  on_state (kill_and_add_definition reg codeloc data).

(** A guard that is not the object [True] stores nothing. *)
Definition _handle_StoreG (stmt_guard stmt_addr stmt_data : VexExpr)
    : M (Heap * Engine) unit :=
  do guard <- _expr stmt_guard;
  match guard with
  | OBool true => _handle_Store result_size _expr stmt_addr stmt_data
  | OBool false => ret tt
  | _ => ret tt        (* l.info('Could not resolve guard %s for StoreG.') *)
  end.

(** [_handle_WrTmp] of SimEngineLightVEX *)
Definition _handle_WrTmp (stmt_tmp : Z) (stmt_data : VexExpr)
    : M (Heap * Engine) unit :=
  do data <- _expr stmt_data;
  if decide (data = ONone) then ret tt
  else modify (λ '(h, e), (h, set_tmps (<[stmt_tmp := data]> (tmps e)) e)).

(** **** Expressions *)

Definition _handle_Get (expr : VexExpr) (reg_offset : Z)
    : M (Heap * Engine) PyObj :=
  let size := result_size expr in
  do e <- engine_;
  let current_defs :=
    KeyedRegion.get_objects_by_offset (register_definitions (state e)) reg_offset in
  let data := or_undefined (data_of current_defs) in
  (if decide (VUndefined ∈ data) then register_name_of reg_offset else ret tt) ;;
  do codeloc <- _codeloc;
  on_state (add_use (Register reg_offset (Z.of_N size)) codeloc) ;;
  lift_exc (new_DataSet data (result_size expr)).

(** What a load of [size] bytes at [a] adds from the memory of the binary,
    when no definition reaches [a]: the bytes read, if there are 4 or 8 of
    them and as many as asked for. *)
Definition load_static (a size : Z) : Exc (option Z) :=
  exc_bind (read_bytes a size) (λ mem,
    match mem with
    | [] => Ok None
    | _ =>
        if decide ((size = 4 ∨ size = 8) ∧ size = Z.of_nat (length mem))
        then Ok (Some (if decide (memory_endness = "Iend_LE")
                       then unpack_le mem else unpack_be mem))
        else Ok None
    end).

(** The body of the loop of [_handle_Load] for the address [a], on the set
    [data] collected so far.  As in [memory_location_at], an address that
    is no integer is refused by the region. *)
Definition _handle_Load_at (size : Z) (a : Value) (data : gset Value)
    : M (Heap * Engine) (gset Value) :=
  match a with
  | VUndefined => ret data      (* l.info('Memory address undefined, ...') *)
  | VInt addr =>
      do e <- engine_;
      let current_defs :=
        KeyedRegion.get_objects_by_offset (memory_definitions (state e)) addr in
      do data <- (if decide (current_defs = ∅)
                  then do v <- lift_exc (load_static addr size);
                       ret (match v with
                            | Some z => {[VInt z]} ∪ data
                            | None => data
                            end)
                  else ret (data_of current_defs ∪ data));
      do codeloc <- _codeloc;
      on_state (add_use (MemoryLocation addr size) codeloc) ;;
      ret data
  | _ => raise TypeError
  end.

Fixpoint _handle_Load_loop (size : Z) (addrs : list Value) (data : gset Value)
    : M (Heap * Engine) (gset Value) :=
  match addrs with
  | [] => ret data
  | a :: rest =>
      do data <- _handle_Load_at size a data;
      _handle_Load_loop size rest data
  end.

Definition _handle_Load (expr stmt_addr : VexExpr) : M (Heap * Engine) PyObj :=
  do addr <- _expr stmt_addr;
  let size := Z.of_N (result_size expr) / 8 in
  do addrs <- lift_exc (py_iter addr);
  do data <- _handle_Load_loop size addrs ∅;
  lift_exc (new_DataSet (or_undefined data) (result_size expr)).

(** Only the objects [True] and [False] resolve the condition. *)
Definition _handle_ITE (expr cond iftrue iffalse : VexExpr)
    : M (Heap * Engine) PyObj :=
  do cond <- _expr cond;
  match cond with
  | OBool true => _expr iftrue
  | OBool false => _expr iffalse
  | _ =>
      (* l.info('Could not resolve condition %s for ITE.') *)
      do t <- _expr iftrue;
      do t_data <- lift_exc (py_data t);
      do f <- _expr iffalse;
      do f_data <- lift_exc (py_data f);
      lift_exc (new_DataSet (t_data ∪ f_data) (result_size expr))
  end.

(** One turn of the loop of [_handle_Conversion]: the member that [a]
    becomes.  [2 ** bits] is a float when [bits] is negative, and [&] then
    raises [TypeError].  A [Parameter] is updated in place: the sets that
    hold the same object see the change as well, which these values do not
    show. *)
Definition convert (bits : Z) (a : Value) : Exc Value :=
  match a with
  | VUndefined => Ok a
  | VInt z =>
      if decide (bits < 0) then Raise TypeError
      else Ok (VInt (Z.land z (2 ^ bits - 1)))
  | VParameter (PRegister reg_offset _) =>
      Ok (VParameter (PRegister reg_offset (bits / 8)))
  | VParameter (PSpOffset _ offset is_base) =>
      Ok (VParameter (PSpOffset bits offset is_base))
  | _ => Ok a          (* l.warning('Unsupported type %s for conversion.') *)
  end.

Fixpoint _handle_Conversion_loop (bits : Z) (arg_0 : list Value)
    (data : gset Value) : Exc (gset Value) :=
  match arg_0 with
  | [] => Ok data
  | a :: rest =>
      exc_bind (convert bits a) (λ a,
        _handle_Conversion_loop bits rest ({[a]} ∪ data))
  end.

Definition _handle_Conversion (expr : VexExpr) (op : string) (arg : VexExpr)
    : M (Heap * Engine) PyObj :=
  match vex_operations !! op with
  | None => raise KeyError
  | Some simop =>
      do arg_0 <- _expr arg;
      do bits <- lift_exc (match to_size simop with
                           | Some bits => Ok bits
                           | None => Raise TypeError
                           end);
      do members <- lift_exc (py_iter arg_0);
      do data <- lift_exc (_handle_Conversion_loop bits members ∅);
      lift_exc (new_DataSet data (result_size expr))
  end.

Definition _handle_Not1 (expr arg0 : VexExpr) : M (Heap * Engine) PyObj :=
  do expr_0 <- _expr arg0;
  do n <- lift_exc (py_len expr_0);
  do e0 <- (if decide (n = 1%nat)
            then match expr_0 with
                 | ODataSet d => lift_exc (exc_bind (get_first_element d)
                                             (λ e0, Ok (Some e0)))
                 | _ => raise AttributeError
                 end
            else ret None);
  match e0 with
  | Some (VInt e0) => ret (OBool (bool_decide (e0 ≠ 1)))
  | _ =>
      (* l.warning('Comparison of multiple values / different types.') *)
      lift_exc (new_DataSet {[VTrue; VFalse]} (result_size expr))
  end.

(** What the [try] statement in the loop of [_handle_Sar] computes for
    [(e0, e1)]: [head | (e0 >> e1)], where [head] is 0 if
    [e0 >> (size - 1) == 0] and [((1 << e1) - 1) << (size - e1)] otherwise.
    On two integers a shift by a negative count raises [ValueError], and a
    shift by a count beyond the limits of the interpreter what the
    interpreter says.  The operators of [Undefined] hand [Undefined]
    through to the result, and [Undefined == 0] is false; an operator that
    [Parameter] lacks raises [TypeError]; the shifts between integers on
    the way are still carried out. *)
Definition sar (size : Z) (e0 e1 : Value) : Exc Value :=
  match e0, e1 with
  | VInt x, VInt y =>
      exc_bind (int_op rshift x (size - 1)) (λ top,
      exc_bind (if decide (top = 0) then Ok 0
                else exc_bind (int_op lshift 1 y) (λ one,
                       int_op lshift (one - 1) (size - y))) (λ head,
      exc_bind (int_op rshift x y) (λ low,
        Ok (VInt (Z.lor head low)))))
  | (VSpOffset _ _ _ | VRegisterOffset _ _ _), _
  | _, (VSpOffset _ _ _ | VRegisterOffset _ _ _) => offset_sar size e0 e1
  | VInt x, VUndefined =>
      exc_bind (int_op rshift x (size - 1)) (λ _, Ok VUndefined)
  | VInt x, VParameter _ =>
      exc_bind (int_op rshift x (size - 1)) (λ _, Raise TypeError)
  | VUndefined, VInt y =>
      exc_bind (int_op lshift 1 y) (λ one,
      exc_bind (int_op lshift (one - 1) (size - y)) (λ _, Ok VUndefined))
  | VUndefined, VUndefined => Ok VUndefined
  | VUndefined, VParameter _ => Raise TypeError
  | VParameter _, _ => Raise TypeError
  end.

(** [try: data.add(...) except (ValueError, TypeError): data.add(undefined)] *)
Definition _handle_Sar_body (size : Z) (e0 e1 : Value) (data : gset Value)
    : Exc (gset Value) :=
  match sar size e0 e1 with
  | Ok v => Ok ({[v]} ∪ data)
  | Raise ValueError | Raise TypeError => Ok ({[VUndefined]} ∪ data)
  | Raise e => Raise e
  end.

Fixpoint _handle_Sar_inner (size : Z) (e0 : Value) (expr_1 : list Value)
    (data : gset Value) : Exc (gset Value) :=
  match expr_1 with
  | [] => Ok data
  | e1 :: rest =>
      exc_bind (_handle_Sar_body size e0 e1 data) (_handle_Sar_inner size e0 rest)
  end.

Fixpoint _handle_Sar_outer (size : Z) (expr_0 : list Value) (expr_1 : PyObj)
    (data : gset Value) : Exc (gset Value) :=
  match expr_0 with
  | [] => Ok data
  | e0 :: rest =>
      exc_bind (py_iter expr_1) (λ e1s,
      exc_bind (_handle_Sar_inner size e0 e1s data)
        (_handle_Sar_outer size rest expr_1))
  end.

Definition _handle_Sar (expr arg0 arg1 : VexExpr) : M (Heap * Engine) PyObj :=
  do expr_0 <- _expr arg0;
  do expr_1 <- _expr arg1;
  let size := Z.of_N (result_size expr) in
  do e0s <- lift_exc (py_iter expr_0);
  do data <- lift_exc (_handle_Sar_outer size e0s expr_1 ∅);
  lift_exc (new_DataSet data (result_size expr)).

Definition _handle_CCall (expr : VexExpr) : M (Heap * Engine) PyObj :=
  lift_exc (new_DataSet {[VUndefined]} (result_size expr)).

(** The binary handlers of SimEngineLightVEX evaluate their operands one
    after the other and return [None] as soon as one of them is [None];
    [try_] is the body of their [try] statement. *)
Definition with_operands (arg0 arg1 : VexExpr)
    (try_ : PyObj → PyObj → Exc PyObj) : M (Heap * Engine) PyObj :=
  do expr_0 <- _expr arg0;
  if decide (expr_0 = ONone) then ret ONone else
  do expr_1 <- _expr arg1;
  if decide (expr_1 = ONone) then ret ONone else
  lift_exc (except_TypeError_None (try_ expr_0 expr_1)).

(** [(expr_0 op expr_1) & mask] on two integers, [expr_0 op expr_1] on
    other operands. *)
Definition masked (b : binop) (expr : VexExpr) (expr_0 expr_1 : PyObj)
    : Exc PyObj :=
  match as_int expr_0, as_int expr_1 with
  | Some x, Some y =>
      let mask := Z.shiftl 1 (Z.of_N (result_size expr)) - 1 in
      exc_bind (int_op b x y) (λ z, Ok (OValue (VInt (Z.land z mask))))
  | _, _ => py_binop offset_op object_op b expr_0 expr_1
  end.

Definition _handle_And (expr arg0 arg1 : VexExpr) :=
  with_operands arg0 arg1 (py_binop offset_op object_op and_).
Definition _handle_Or (expr arg0 arg1 : VexExpr) :=
  with_operands arg0 arg1 (py_binop offset_op object_op or_).
Definition _handle_Add (expr arg0 arg1 : VexExpr) :=
  with_operands arg0 arg1 (masked add expr).
Definition _handle_Sub (expr arg0 arg1 : VexExpr) :=
  with_operands arg0 arg1 (masked sub expr).
Definition _handle_Xor (expr arg0 arg1 : VexExpr) :=
  with_operands arg0 arg1 (py_binop offset_op object_op xor).
Definition _handle_Shl (expr arg0 arg1 : VexExpr) :=
  with_operands arg0 arg1 (masked lshift expr).
Definition _handle_Shr (expr arg0 arg1 : VexExpr) :=
  with_operands arg0 arg1 (py_binop offset_op object_op rshift).

(** **** The dispatchers *)

Definition _handle_Unop (expr : VexExpr) (op : string) (arg : VexExpr)
    : M (Heap * Engine) PyObj :=
  match vex_operations !! op with
  | None => raise KeyError
  | Some simop =>
      if conversion simop then _handle_Conversion expr op arg
      else if String.prefix "Iop_Not1" op then _handle_Not1 expr arg
      else ret ONone                   (* l.error('Unsupported Unop %s.') *)
  end.

(** [_handle_Binop] asks for no [Iop_CmpLT]; an operation whose name starts
    with [Const] is handed to [_handle_Const], which reads the [con] that a
    binary operation does not have. *)
Definition _handle_Binop (expr : VexExpr) (op : string) (arg0 arg1 : VexExpr)
    : M (Heap * Engine) PyObj :=
  if String.prefix "Iop_And" op then _handle_And expr arg0 arg1
  else if String.prefix "Iop_Or" op then _handle_Or expr arg0 arg1
  else if String.prefix "Iop_Add" op then _handle_Add expr arg0 arg1
  else if String.prefix "Iop_Sub" op then _handle_Sub expr arg0 arg1
  else if String.prefix "Iop_Xor" op then _handle_Xor expr arg0 arg1
  else if String.prefix "Iop_Shl" op then _handle_Shl expr arg0 arg1
  else if String.prefix "Iop_Shr" op then _handle_Shr expr arg0 arg1
  else if String.prefix "Iop_Sal" op then _handle_Shl expr arg0 arg1
  else if String.prefix "Iop_Sar" op then _handle_Sar expr arg0 arg1
  else if String.prefix "Iop_CmpEQ" op
       then _handle_CmpEQ result_size _expr expr arg0 arg1
  else if String.prefix "Iop_CmpNE" op
       then _handle_CmpNE result_size _expr expr arg0 arg1
  else if String.prefix "Iop_CmpORD" op
       then _handle_CmpORD result_size _expr expr arg0 arg1
  else if String.prefix "Const" op then raise AttributeError
  else ret ONone                       (* l.error('Unsupported Binop %s') *)
  .

End MoreHandlers.

Section Dispatch.
Context {interp : Interpreter}.
Variable result_size : VexExpr → N.
Variable offset_op : binop → Value → Value → Exc Value.
Variable object_op : binop → PyObj → PyObj → Exc PyObj.
Variable offset_sar : Z → Value → Value → Exc Value.
Variable vex_operations : gmap string SimIROp.
Variable read_bytes : Z → Z → Exc (list Byte.byte).
Variable memory_endness : string.

(** [_expr] of SimEngineLightVEX on SimEngineRD: the handler named after
    the type of the expression. *)
Fixpoint _expr (expr : VexExpr) : M (Heap * Engine) PyObj :=
  match expr with
  | VexRdTmp tmp => _handle_RdTmp result_size expr tmp
  | VexGet offset => _handle_Get result_size expr offset
  | VexLoad addr =>
      _handle_Load result_size read_bytes memory_endness _expr expr addr
  | VexITE cond iftrue iffalse =>
      _handle_ITE result_size _expr expr cond iftrue iffalse
  | VexConst value => _handle_Const result_size expr value
  | VexUnop op arg =>
      _handle_Unop result_size vex_operations _expr expr op arg
  | VexBinop op arg0 arg1 =>
      _handle_Binop result_size offset_op object_op offset_sar _expr
        expr op arg0 arg1
  | VexCCall _ => _handle_CCall result_size expr
  end.

(** [_handle_Stmt] of SimEngineLightVEX: the handler named after the type
    of the statement, if there is one.  [IMark], [Exit] and [AbiHint] have
    handlers that do nothing. *)
Definition _handle_Stmt (stmt : VexStmt) : M (Heap * Engine) unit :=
  match stmt with
  | VexIMark _ _ => ret tt
  | VexWrTmp tmp data => _handle_WrTmp _expr tmp data
  | VexPut offset data => _handle_Put result_size _expr offset data
  | VexStore addr data => _handle_Store result_size _expr addr data
  | VexStoreG guard addr data => _handle_StoreG result_size _expr guard addr data
  | VexExit => ret tt
  | VexAbiHint => ret tt
  | VexNoOp => ret tt         (* l.error('Unsupported statement type %s.') *)
  end.

End Dispatch.

End VEX.

(** ** SimEngineRD on AIL *)

(** The calling convention attached to a call, as far as the handler reads
    it. *)
Record SimCC := mkSimCC { CALLER_SAVED_REGS : list string }.

(** An AIL [Call] statement. *)
Record AilCall := mkAilCall {
  target : AilExpr;
  calling_convention : option SimCC;
  args : option (list AilExpr)
}.

(** AIL statements.  [AilOtherStmt] stands for a statement of a type that
    the engine has no handler for. *)
Inductive AilStmt :=
  | AilAssignment (dst src : AilExpr)
  | AilStore (addr data : AilExpr)
  | AilJump (target : AilExpr)
  | AilConditionalJump (condition true_target false_target : AilExpr)
  | AilCallStmt (call : AilCall)
  | AilOtherStmt.

Module AIL.
Import ReachingDefinitions.

(** [self.state.kill_definitions(atom, code_loc, ...)] with the positional
    arguments [rest] after the first two.  The method takes [atom],
    [code_loc] and [data]: with another number of arguments Python raises
    [TypeError] before the body runs. *)
Definition call_kill_definitions (atom : Atom) (code_loc : CodeLocation)
    (rest : list PyObj) : M (Heap * ReachingDefinitions.t) unit :=
  match rest with
  | [data] => kill_definitions atom code_loc data
  | _ => raise TypeError
  end.

(** The [Register] atom built from the pair [self.arch.registers[name]]. *)
Definition register_named (arch : Arch) (name : string) : Exc Atom :=
  match registers arch !! name with
  | Some (offset, size) => Ok (Register offset size)
  | None => Raise KeyError
  end.

(** [try: body except KeyError: handler] *)
Definition try_except_KeyError {S A} (body handler : M S A) : M S A :=
  λ s, match body s with
       | (Raise KeyError, s') => handler s'
       | r => r
       end.

(** [DataSet.update(data)] with a DataSet. *)
Definition DataSet_update (self data : DataSet.t) : DataSet.t :=
  DataSet.mk (DataSet.data self ∪ DataSet.data data) (DataSet._bits self).

(** [self.state.register_definitions.get_objects_by_offset(reg_offset)] *)
Definition register_defs_at (reg_offset : Z) : M (Heap * Engine) (gset Def.t) :=
  do e <- engine_;
  ret (KeyedRegion.get_objects_by_offset (register_definitions (state e)) reg_offset).

(** [_ail_handle_Register(expr)] for [expr = Register(reg_offset, bits)].
    [SpOffset(bits, 0)] is not a frame base unless [is_base=True] is given. *)
Definition _ail_handle_Register (reg_offset bits : Z) : M (Heap * Engine) PyObj :=
  let expr := AilRegister reg_offset bits in
  do codeloc <- _codeloc;
  on_state (add_use (Register reg_offset (bits / 8)) codeloc) ;;
  do e <- engine_;
  if decide (reg_offset = sp_offset (arch (state e))) then
    ret (OValue (VSpOffset bits 0 false))
  else if decide (reg_offset = bp_offset (arch (state e))) then
    ret (OValue (VSpOffset bits 0 true))
  else
    try_except_KeyError
      (do data <- lift_exc (DataSet.__init__ ∅ bits);
       do defs <- register_defs_at reg_offset;
       do defs <- (if decide (defs = ∅) then
                     (* define it right away as an external dependency *)
                     on_state (kill_and_add_definition
                                 (Register reg_offset (bits / 8))
                                 ExternalCodeLocation (OAil expr)) ;;
                     do defs <- register_defs_at reg_offset;
                     if decide (defs = ∅) then raise AssertionError else ret defs
                   else ret defs);
       (* for def_ in defs: data.update(def_.data) *)
       let data := foldl (λ data def_, DataSet_update data (Def.data def_))
                     data (elements defs) in
       (* data = data.compact(): a DataSet has no such attribute *)
       raise AttributeError)
      (ret (OValue (VRegisterOffset bits reg_offset 0))).

(** [_ail_handle_Tmp(expr)], with the lookup of SimEngineLightAIL. *)
Definition _ail_handle_Tmp (tmp_idx : Z) : M (Heap * Engine) PyObj :=
  do e <- engine_;
  (if _track_tmps (state e)
   then do codeloc <- _codeloc; on_state (add_use (Tmp tmp_idx) codeloc)
   else ret tt) ;;
  do e <- engine_;
  match tmps e !! tmp_idx with
  | Some v => ret v
  | None => ret ONone
  end.

(** [_ail_handle_Const(expr)] returns the expression. *)
Definition _ail_handle_Const (expr : AilExpr) : M (Heap * Engine) PyObj :=
  ret (OAil expr).

Section Handlers.
(** [self._expr]: the dispatcher of SimEngineLightAIL. *)
Variable _expr : AilExpr → M (Heap * Engine) PyObj.

(** [self.state.kill_definitions(Register(...), self._codeloc())] *)
Definition kill_register (reg : Exc Atom) : M (Heap * Engine) unit :=
  do reg <- lift_exc reg;
  do codeloc <- _codeloc;
  on_state (call_kill_definitions reg codeloc []).

Definition _ail_handle_Call (stmt : AilCall) : M (Heap * Engine) unit :=
  do _ <- _expr (target stmt);
  do e <- engine_;
  let arch := arch (state e) in
  let ip := Register (ip_offset arch) (bits arch / 8) in
  kill_register (Ok ip) ;;
  (* if arguments exist, use them *)
  match args stmt with
  | Some (arg :: rest) => for_each (arg :: rest) (λ arg, do _ <- _expr arg; ret tt)
  | _ => ret tt
  end ;;
  (* kill all caller-saved registers *)
  match calling_convention stmt with
  | Some cc =>
      match CALLER_SAVED_REGS cc with
      | [] => ret tt
      | regs => for_each regs (λ reg_name, kill_register (register_named arch reg_name))
      end
  | None => ret tt
  end ;;
  (* kill all cc_ops *)
  kill_register (register_named arch "cc_op") ;;
  kill_register (register_named arch "cc_dep1") ;;
  kill_register (register_named arch "cc_dep2") ;;
  kill_register (register_named arch "cc_ndep").

End Handlers.

(** The dispatcher on constants, temporaries and registers; other
    expressions are outside this fragment. *)
Definition _expr_atom (expr : AilExpr) : M (Heap * Engine) PyObj :=
  match expr with
  | AilConst _ _ => _ail_handle_Const expr
  | AilTmp tmp_idx _ => _ail_handle_Tmp tmp_idx
  | AilRegister reg_offset bits => _ail_handle_Register reg_offset bits
  | _ => raise NotImplementedError
  end.

(** *** The statement handlers *)

Section Statements.
Variable _expr : AilExpr → M (Heap * Engine) PyObj.

Definition _ail_handle_Assignment (stmt_dst stmt_src : AilExpr)
    : M (Heap * Engine) unit :=
  do src <- _expr stmt_src;
  match stmt_dst with
  | AilTmp tmp_idx _ =>
      do codeloc <- _codeloc;
      on_state (kill_and_add_definition (Tmp tmp_idx) codeloc src) ;;
      modify (λ '(h, e), (h, set_tmps (<[tmp_idx := src]> (tmps e)) e))
  | AilRegister reg_offset bits =>
      let reg := Register reg_offset (bits / 8) in
      do codeloc <- _codeloc;
      on_state (kill_and_add_definition reg codeloc src)
  | _ => ret tt     (* l.warning('Unsupported type of Assignment dst %s.') *)
  end.

Definition _ail_handle_Store (stmt_addr stmt_data : AilExpr)
    : M (Heap * Engine) unit :=
  do _ <- _expr stmt_data;
  do _ <- _expr stmt_addr;
  ret tt.

Definition _ail_handle_Jump (stmt_target : AilExpr) : M (Heap * Engine) unit :=
  do _ <- _expr stmt_target;
  ret tt.

Definition _ail_handle_ConditionalJump
    (stmt_condition stmt_true_target stmt_false_target : AilExpr)
    : M (Heap * Engine) unit :=
  do _ <- _expr stmt_condition;
  do _ <- _expr stmt_true_target;
  do _ <- _expr stmt_false_target;
  do e <- engine_;
  let arch := arch (state e) in
  let ip := Register (ip_offset arch) (bits arch / 8) in
  kill_register (Ok ip) ;;
  (* kill all cc_ops *)
  kill_register (register_named arch "cc_op") ;;
  kill_register (register_named arch "cc_dep1") ;;
  kill_register (register_named arch "cc_dep2") ;;
  kill_register (register_named arch "cc_ndep").

(** [_ail_handle_Stmt] of SimEngineLightAIL: the handler named after the
    type of the statement, if there is one. *)
Definition _ail_handle_Stmt (stmt : AilStmt) : M (Heap * Engine) unit :=
  match stmt with
  | AilAssignment dst src => _ail_handle_Assignment dst src
  | AilStore addr data => _ail_handle_Store addr data
  | AilJump target => _ail_handle_Jump target
  | AilConditionalJump condition true_target false_target =>
      _ail_handle_ConditionalJump condition true_target false_target
  | AilCallStmt call => _ail_handle_Call _expr call
  | AilOtherStmt => ret tt   (* l.warning('Unsupported statement type %s.') *)
  end.

End Statements.

End AIL.

(** ** ReachingDefinitionAnalysis: the per-node iteration cap *)

Module ReachingDefinitionAnalysis.
Import ReachingDefinitions.

(** The analysis, as far as [_run_on_node] reads and writes it.  A node is
    known by the address of its block ([block_key = node.addr]). *)
Record t := mk {
  _max_iterations : Z;
  _node_iterations : gmap Z Z          (* defaultdict(int) *)
}.

(** [self._node_iterations[block_key]], read without creating the key. *)
Definition iterations (self : t) (block_key : Z) : Z :=
  default 0 (_node_iterations self !! block_key).

Definition _merge_states (states : list ReachingDefinitions.t)
    : M Heap ReachingDefinitions.t :=
  match states with
  | [] => raise IndexError               (* states[0] *)
  | s :: rest => merge s rest
  end.

Section Analysis.
(** [engine.process(state, block=block, fail_fast=self._fail_fast)] for the
    block of the node: the engine of the block's dialect, run on [state]; it
    returns the state it ends with, or raises. *)
Variable process : Z → ReachingDefinitions.t → M Heap ReachingDefinitions.t.

Definition _run_on_node (node : Z) (state : ReachingDefinitions.t)
    : M (Heap * t) (bool * ReachingDefinitions.t) :=
  λ '(h, self),
    let block_key := node in
    let state := copy state in
    match process node state h with
    | (Raise e, h') => (Raise e, (h', self))
    | (Ok state, h') =>
        let self := mk (_max_iterations self)
                       (<[block_key := iterations self block_key + 1]>
                          (_node_iterations self)) in
        if decide (iterations self block_key < _max_iterations self)
        then (Ok (true, state), (h', self))
        else (Ok (false, state), (h', self))
    end.

End Analysis.

(** *** Observation points *)

Definition OP_BEFORE : Z := 0.
Definition OP_AFTER : Z := 1.

(** What [observe] and [one_result] read and write of the analysis: the
    observation points asked for, [None] or pairs [(ins_addr, OP_TYPE)],
    and the states observed so far. *)
Record Observer := mkObserver {
  _observation_points : option (list (option Z * Z));
  observed_results : gmap (option Z * Z) ReachingDefinitions.t
}.

(** The statement that [observe] is given, with the statements of the
    block when it is a pyvex statement. *)
Inductive Observed :=
  | OfVex (stmt : VexStmt) (statements : list VexStmt)
  | OfAil (stmt : AilStmt).

(** [type(stmt) is pyvex.IRStmt.IMark] *)
Definition is_IMark (stmt : VexStmt) : bool :=
  match stmt with
  | VexIMark _ _ => true
  | _ => false
  end.

(** [statements.index(stmt)]: the first position of an equal statement. *)
Fixpoint index (stmt : VexStmt) (statements : list VexStmt) : Exc nat :=
  match statements with
  | [] => Raise ValueError
  | x :: rest =>
      if decide (x = stmt) then Ok O
      else exc_bind (index stmt rest) (λ i, Ok (S i))
  end.

(** [self.observed_results[(ins_addr, ob_type)] = state.copy()] *)
Definition record (ins_addr : option Z) (ob_type : Z)
    (state : ReachingDefinitions.t) (self : Observer) : Observer :=
  mkObserver (_observation_points self)
    (<[(ins_addr, ob_type) := copy state]> (observed_results self)).

Definition observe (ins_addr : option Z) (stmt : Observed)
    (state : ReachingDefinitions.t) (ob_type : Z) : M Observer unit :=
  do self <- get;
  match _observation_points self with
  | None => ret tt
  | Some points =>
      if decide ((ins_addr, ob_type) ∈ points) then
        match stmt with
        | OfVex stmt statements =>
            (* OP_BEFORE: stmt has to be IMark *)
            if decide (ob_type = OP_BEFORE ∧ is_IMark stmt = true) then
              modify (record ins_addr ob_type state)
            (* OP_AFTER: stmt has to be last stmt of block or next stmt
               has to be IMark *)
            else if decide (ob_type = OP_AFTER) then
              do idx <- lift_exc (index stmt statements);
              if decide (idx = (length statements - 1)%nat
                         ∨ is_IMark <$> statements !! S idx = Some true)
              then modify (record ins_addr ob_type state)
              else ret tt
            else ret tt
        | OfAil _ => modify (record ins_addr ob_type state)
        end
      else ret tt
  end.

Definition one_result (self : Observer) : Exc ReachingDefinitions.t :=
  match map_to_list (observed_results self) with
  | [] => Raise ValueError              (* 'No result is available.' *)
  | [(_, result)] => Ok result
  | _ => Raise ValueError     (* 'More than one results are available.' *)
  end.

End ReachingDefinitionAnalysis.

(** ** SimEngineRD at work on a block *)

(** What the two engines that [get_engine] builds have in common. *)
Module SimEngineRD.
Import ReachingDefinitions ReachingDefinitionAnalysis.

(** How a call ends: it returns, it raises one of the exceptions of [exn],
    or it raises the [UnboundLocalError] of a local variable that is read
    before it was assigned. *)
Inductive Outcome (A : Type) :=
  | Returned (a : A)
  | Raised (e : exn)
  | RaisedUnboundLocalError.
Arguments Returned {A} a.
Arguments Raised {A} e.
Arguments RaisedUnboundLocalError {A}.

Definition outcome_of {A S} (r : Exc A * S) : Outcome A * S :=
  match r with
  | (Ok a, s) => (Returned a, s)
  | (Raise e, s) => (Raised e, s)
  end.

(** A handler of the engine, run while the analysis is at hand. *)
Definition on_engine {A} (m : M (Heap * Engine) A)
    : M (Heap * Engine * Observer) A :=
  λ '(h, e, o),
    match m (h, e) with
    | (r, (h', e')) => (r, (h', e', o))
    end.

(** [if self.state.analysis:
       self.state.analysis.observe(self.ins_addr, stmt, self.block,
                                   self.state, ob_type)] *)
Definition observe_stmt (stmt : Observed) (ob_type : Z)
    : M (Heap * Engine * Observer) unit :=
  λ '(h, e, o),
    if analysis (state e)
    then match observe (ins_addr e) stmt (state e) ob_type o with
         | (r, o') => (r, (h, e, o'))
         end
    else (Ok tt, (h, e, o)).

(** [process] hands on what [_process] raises unless it is a
    [SimEngineError], which none of the exceptions here is, and returns
    [self.state]. *)
Definition returning_state (r : Outcome unit * (Heap * Engine * Observer))
    : Outcome ReachingDefinitions.t * (Heap * Engine * Observer) :=
  match r with
  | (Returned _, (h, e, o)) => (Returned (state e), (h, e, o))
  | (Raised x, w) => (Raised x, w)
  | (RaisedUnboundLocalError, w) => (RaisedUnboundLocalError, w)
  end.

End SimEngineRD.

(** [get_engine(SimEngineLightVEX)] *)
Module SimEngineRD_VEX.
Import ReachingDefinitions ReachingDefinitionAnalysis SimEngineRD.

Section Engine.
Context {interp : Interpreter}.
Variable result_size : VexExpr → N.
Variable offset_op : binop → Value → Value → Exc Value.
Variable object_op : binop → PyObj → PyObj → Exc PyObj.
Variable offset_sar : Z → Value → Value → Exc Value.
Variable vex_operations : gmap string VEX.SimIROp.
Variable read_bytes : Z → Z → Exc (list Byte.byte).
Variable memory_endness : string.

(** [_handle_Stmt] of SimEngineRD, around the one of SimEngineLightVEX;
    [statements] are those of the block. *)
Definition _handle_Stmt (statements : list VexStmt) (stmt : VexStmt)
    : M (Heap * Engine * Observer) unit :=
  observe_stmt (OfVex stmt statements) OP_BEFORE ;;
  on_engine (VEX._handle_Stmt result_size offset_op object_op offset_sar
               vex_operations read_bytes memory_endness stmt) ;;
  observe_stmt (OfVex stmt statements) OP_AFTER.

(** [_hl_handle_Call] of SimEngineLightVEX; SimEngineRD has none of its
    own. *)
Definition _hl_handle_Call (arg : VexStmt) : M (Heap * Engine * Observer) unit :=
  raise NotImplementedError.

(** The loop of [_process_Stmt] from the statement of index [stmt_idx]
    on. *)
Fixpoint _process_Stmt_loop (statements : list VexStmt) (stmt_idx : Z)
    (rest : list VexStmt) : M (Heap * Engine * Observer) unit :=
  match rest with
  | [] => ret tt
  | stmt :: rest' =>
      on_engine (modify (λ '(h, e), (h, set_stmt_idx stmt_idx e))) ;;
      match stmt with
      | VexIMark addr delta =>
          on_engine (modify (λ '(h, e), (h, set_ins_addr (Some (addr + delta)) e)))
      | _ => ret tt
      end ;;
      _handle_Stmt statements stmt ;;
      _process_Stmt_loop statements (stmt_idx + 1) rest'
  end.

(** [_process_Stmt]: after the loop, [stmt] is the last statement, and is
    unbound when the block has none. *)
Definition _process_Stmt (statements : list VexStmt) (jumpkind : string)
    (w : Heap * Engine * Observer) : Outcome unit * (Heap * Engine * Observer) :=
  match _process_Stmt_loop statements 0 statements w with
  | (Raise e, w') => (Raised e, w')
  | (Ok _, w') =>
      if decide (jumpkind = "Ijk_Call") then
        match last statements with
        | None => (RaisedUnboundLocalError, w')
        | Some stmt => outcome_of (_hl_handle_Call stmt w')
        end
      else (Returned tt, w')
  end.

(** [_process(state, successors, block)] for a block at [block_addr].  The
    engine keeps [stmt_idx] and [ins_addr] from its last run until the loop
    sets them; of the final [self.stmt_idx = None; self.ins_addr = None]
    the first is not shown, [stmt_idx] being set before each statement. *)
Definition _process (state : ReachingDefinitions.t) (block_addr : Z)
    (statements : list VexStmt) (jumpkind : string)
    (w : Heap * Engine * Observer) : Outcome unit * (Heap * Engine * Observer) :=
  let '(h, e, o) := w in
  let e := mkEngine state ∅ block_addr (stmt_idx e) (ins_addr e) in
  match _process_Stmt statements jumpkind (h, e, o) with
  | (Returned _, (h', e', o')) => (Returned tt, (h', set_ins_addr None e', o'))
  | r => r
  end.

Definition process (state : ReachingDefinitions.t) (block_addr : Z)
    (statements : list VexStmt) (jumpkind : string)
    (w : Heap * Engine * Observer)
    : Outcome ReachingDefinitions.t * (Heap * Engine * Observer) :=
  returning_state (_process state block_addr statements jumpkind w).

End Engine.
End SimEngineRD_VEX.

(** [get_engine(SimEngineLightAIL)] *)
Module SimEngineRD_AIL.
Import ReachingDefinitions ReachingDefinitionAnalysis SimEngineRD.

Section Engine.
(** [self._expr]: the dispatcher of SimEngineLightAIL. *)
Variable _expr : AilExpr → M (Heap * Engine) PyObj.

(** [_ail_handle_Stmt] of SimEngineRD, around the one of
    SimEngineLightAIL. *)
Definition _ail_handle_Stmt (stmt : AilStmt) : M (Heap * Engine * Observer) unit :=
  observe_stmt (OfAil stmt) OP_BEFORE ;;
  on_engine (AIL._ail_handle_Stmt _expr stmt) ;;
  observe_stmt (OfAil stmt) OP_AFTER.

(** The loop of [_process_Stmt] from the statement of index [stmt_idx] on;
    a statement comes with its [ins_addr]. *)
Fixpoint _process_Stmt_loop (stmt_idx : Z) (rest : list (Z * AilStmt))
    : M (Heap * Engine * Observer) unit :=
  match rest with
  | [] => ret tt
  | (stmt_ins_addr, stmt) :: rest' =>
      on_engine (modify (λ '(h, e),
        (h, set_ins_addr (Some stmt_ins_addr) (set_stmt_idx stmt_idx e)))) ;;
      _ail_handle_Stmt stmt ;;
      _process_Stmt_loop (stmt_idx + 1) rest'
  end.

Definition _process_Stmt (statements : list (Z * AilStmt))
    : M (Heap * Engine * Observer) unit :=
  _process_Stmt_loop 0 statements.

Definition _process (state : ReachingDefinitions.t) (block_addr : Z)
    (statements : list (Z * AilStmt))
    (w : Heap * Engine * Observer) : Outcome unit * (Heap * Engine * Observer) :=
  let '(h, e, o) := w in
  let e := mkEngine state ∅ block_addr (stmt_idx e) (ins_addr e) in
  match _process_Stmt statements (h, e, o) with
  | (Ok _, (h', e', o')) => (Returned tt, (h', set_ins_addr None e', o'))
  | (Raise x, w') => (Raised x, w')
  end.

Definition process (state : ReachingDefinitions.t) (block_addr : Z)
    (statements : list (Z * AilStmt)) (w : Heap * Engine * Observer)
    : Outcome ReachingDefinitions.t * (Heap * Engine * Observer) :=
  returning_state (_process state block_addr statements w).

End Engine.
End SimEngineRD_AIL.

(** ** The fixpoint driver *)

Module ForwardAnalysis.
Import ReachingDefinitions ReachingDefinitionAnalysis.

(** Modelled from the spec: the state of the forward worklist driver
    (angr/analyses/forward_analysis.py is not among the sources): the
    analysis it drives, the heap, the out-state of every block visited so
    far, the blocks marked dirty, in the order in which they will be
    visited, and the blocks on which [_run_on_node] was called, latest
    first. *)
Record Driver := mkDriver {
  analysis : ReachingDefinitionAnalysis.t;
  heap : Heap;
  out_states : gmap Z ReachingDefinitions.t;
  worklist : list Z;
  trace : list Z
}.

Section Driver.
Variable process : Z → ReachingDefinitions.t → M Heap ReachingDefinitions.t.
(** The graph of the function, by block address. *)
Variable successors : Z → list Z.
Variable predecessors : Z → list Z.
(** [_initial_abstract_state(node)] *)
Variable initial_state : ReachingDefinitions.t.

(** Modelled from the spec: the in-state of a block joins the out-states of
    its predecessors ([merge]); a block with none starts from the initial
    abstract state. *)
Definition input_state (d : Driver) (node : Z) : M Heap ReachingDefinitions.t :=
  match omap (λ p, out_states d !! p) (predecessors node) with
  | [] => ret initial_state
  | states => _merge_states states
  end.

(** Modelled from the spec: "on change, mark successors dirty".  The
    successors that become dirty are those that are not dirty yet. *)
Definition newly_dirty (rest : list Z) (node : Z) : list Z :=
  filter (λ s, s ∉ rest) (remove_dups (successors node)).

(** Modelled from the spec: the driver picks a dirty block, runs the
    transfer on the join of its predecessors' out-states, records the
    out-state and, on change, marks the successors dirty.  The change is
    what [_run_on_node] reports, and the cap on the iterations is enforced
    there and nowhere else: a block that has reached it is visited again
    whenever a predecessor marks it dirty.  The driver returns when no
    block is dirty or when the engine raises.  [None]: out of fuel. *)
Fixpoint _analysis_core (fuel : nat) (d : Driver) : option (Exc unit * Driver) :=
  match worklist d with
  | [] => Some (Ok tt, d)
  | node :: rest =>
      match fuel with
      | O => None
      | S fuel =>
          match input_state d node (heap d) with
          | (Raise e, h) =>
              Some (Raise e, mkDriver (analysis d) h (out_states d) rest (trace d))
          | (Ok state, h) =>
              match _run_on_node process node state (h, analysis d) with
              | (Raise e, (h, a)) =>
                  Some (Raise e, mkDriver a h (out_states d) rest (node :: trace d))
              | (Ok (changed, out), (h, a)) =>
                  _analysis_core fuel
                    (mkDriver a h (<[node := out]> (out_states d))
                       (if changed : bool then rest ++ newly_dirty rest node
                        else rest)
                       (node :: trace d))
              end
          end
      end
  end.

End Driver.
End ForwardAnalysis.

(** * Properties *)

(** ** What the examples share *)

Module Scenario.

(** An architecture of 64 bits, with the stack pointer at offset 48, the
    frame pointer at 56 and the instruction pointer at 184. *)
Definition arch64 : Arch := mkArch 64 8 48 56 184 ∅ ∅.

(** A state that has seen nothing. *)
Definition blank : ReachingDefinitions.t :=
  ReachingDefinitions.__init__ arch64 false false.

(** An engine at the first statement of the block at 0x400000, on the blank
    state. *)
Definition idle : Heap * Engine :=
  (empty_heap, mkEngine blank ∅ 0x400000 0 (Some 0x400000)).

(** The interpreter of the language reference on a platform of 64 bits with
    memory to spare: 'the right-hand operand is required to be at most
    sys.maxsize', and a larger one raises [OverflowError]. *)
Definition sys_maxsize : Z := 2 ^ 63 - 1.
Definition cpython_shift_error (b : binop) (x y : Z) : option exn :=
  if decide (sys_maxsize < y) then Some OverflowError else None.
Lemma cpython_shift_error_no_TypeError b x y :
  cpython_shift_error b x y ≠ Some TypeError.
Proof. unfold cpython_shift_error. by destruct (decide (sys_maxsize < y)). Qed.
Definition cpython : Interpreter :=
  {| shift_error := cpython_shift_error;
     shift_error_no_TypeError := cpython_shift_error_no_TypeError |}.

End Scenario.

(** ** Properties of [DataSet._bin_op] *)

Module DataSetFacts.
Import DataSet.

(** The member that the pair [(s, o)] adds to the result, when the loop
    goes on. *)
Definition member (op : Value → Value → Exc Value) (mask : Z) (o s : Value)
    : Value :=
  if decide (o = VUndefined ∨ s = VUndefined) then VUndefined
  else match op s o with
       | Ok (VInt tmp) => VInt (Z.land tmp mask)
       | Ok tmp => tmp
       | Raise _ => VUndefined
       end.

(** [op(s, o)] is evaluated and raises something else than [TypeError]. *)
Definition escapes (op : Value → Value → Exc Value) (o s : Value) : Prop :=
  o ≠ VUndefined ∧ s ≠ VUndefined ∧ ∃ e, op s o = Raise e ∧ e ≠ TypeError.

Lemma _bin_op_body_ok op mask o s res :
  ¬ escapes op o s →
  _bin_op_body op mask o s res = Ok ({[member op mask o s]} ∪ res).
Proof.
  intros Hne. unfold _bin_op_body, member.
  destruct (decide (o = VUndefined ∨ s = VUndefined)) as [|Hd]; [done|].
  destruct (op s o) as [[]|e] eqn:Hop; try done.
  destruct e; try done; exfalso; apply Hne; (split; [tauto|]);
    (split; [tauto|]); eexists; (split; [exact Hop|done]).
Qed.

Lemma _bin_op_body_escapes op mask o s res e :
  o ≠ VUndefined → s ≠ VUndefined → op s o = Raise e → e ≠ TypeError →
  _bin_op_body op mask o s res = Raise e.
Proof.
  intros Ho Hs Hop He. unfold _bin_op_body.
  destruct (decide (o = VUndefined ∨ s = VUndefined)) as [|_]; [tauto|].
  rewrite Hop. by destruct e.
Qed.

Lemma _bin_op_inner_ok op mask o ss : ∀ res,
  (∀ s, s ∈ ss → ¬ escapes op o s) →
  ∃ r, _bin_op_inner op mask o ss res = Ok r ∧
       ∀ v, v ∈ r ↔ v ∈ res ∨ ∃ s, s ∈ ss ∧ v = member op mask o s.
Proof.
  induction ss as [|s ss IH]; intros res Hok; simpl.
  - exists res. split; [done|]. intros v. split; [by left|].
    intros [?|(s & Hs & _)]; [done|]. by apply elem_of_nil in Hs.
  - rewrite _bin_op_body_ok by (apply Hok; left). simpl.
    destruct (IH ({[member op mask o s]} ∪ res)) as (r & Hr & Hmem).
    { intros s' Hs'. apply Hok. by right. }
    exists r. split; [done|]. intros v. rewrite Hmem.
    rewrite elem_of_union, elem_of_singleton. split.
    + intros [[->|?]|(s' & Hs' & ->)]; [right|by left|right].
      * exists s. split; [left|done].
      * exists s'. split; [by right|done].
    + intros [?|(s' & Hs' & ->)]; [left; by right|].
      apply elem_of_cons in Hs' as [->|Hs']; [left; by left|right; eauto].
Qed.

Lemma _bin_op_outer_ok op mask ss os : ∀ res,
  (∀ o s, o ∈ os → s ∈ ss → ¬ escapes op o s) →
  ∃ r, _bin_op_outer op mask os ss res = Ok r ∧
       ∀ v, v ∈ r ↔
            v ∈ res ∨ ∃ o s, o ∈ os ∧ s ∈ ss ∧ v = member op mask o s.
Proof.
  induction os as [|o os IH]; intros res Hok; simpl.
  - exists res. split; [done|]. intros v. split; [by left|].
    intros [?|(o & s & Ho & _)]; [done|]. by apply elem_of_nil in Ho.
  - destruct (_bin_op_inner_ok op mask o ss res) as (r1 & Hr1 & Hm1).
    { intros s Hs. apply Hok; [left|done]. }
    rewrite Hr1. simpl.
    destruct (IH r1) as (r & Hr & Hm).
    { intros o' s Ho' Hs. apply Hok; [by right|done]. }
    exists r. split; [done|]. intros v. rewrite Hm, Hm1. split.
    + intros [[?|(s & Hs & ->)]|(o' & s & Ho' & Hs & ->)].
      * by left.
      * right. exists o, s. split; [left|done].
      * right. exists o', s. split; [by right|done].
    + intros [?|(o' & s & Ho' & Hs & ->)]; [left; by left|].
      apply elem_of_cons in Ho' as [->|Ho'].
      * left. right. eauto.
      * right. eauto.
Qed.

(** [_bin_op] for an arbitrary [op]: when no member pair makes [op] raise
    anything but [TypeError], the call returns the set of the pairs'
    members, at the receiver's width. *)
Lemma _bin_op_ok (x y : t) op :
  data x ≠ ∅ → data y ≠ ∅ →
  (∀ o s, o ∈ data y → s ∈ data x → ¬ escapes op o s) →
  ∃ r, _bin_op x y op = Ok r ∧ _bits r = _bits x ∧
       ∀ v, v ∈ data r ↔
            ∃ o s, o ∈ data y ∧ s ∈ data x ∧ v = member op (_mask x) o s.
Proof.
  intros Hx Hy Hok. unfold _bin_op.
  destruct (_bin_op_outer_ok op (_mask x) (elements (data x))
              (elements (data y)) ∅) as (res & Hres & Hm).
  { intros o s Ho Hs. apply Hok; by apply elem_of_elements. }
  rewrite Hres. simpl.
  assert (Hm' : ∀ v, v ∈ res ↔
            ∃ o s, o ∈ data y ∧ s ∈ data x ∧ v = member op (_mask x) o s).
  { intros v. rewrite Hm. split.
    - intros [?|(o & s & Ho & Hs & ->)]; [set_solver|].
      exists o, s. by rewrite <- !elem_of_elements.
    - intros (o & s & Ho & Hs & ->). right. exists o, s.
      by rewrite !elem_of_elements. }
  unfold __init__. destruct (decide (res = ∅)) as [->|Hne].
  - exfalso. apply set_choose_L in Hx as [s Hs].
    apply set_choose_L in Hy as [o Ho].
    eapply (not_elem_of_empty (C := gset Value)). apply Hm'. eauto.
  - destruct (decide (Z.of_N (_bits x) < 0)); [lia|].
    eexists. split; [reflexivity|]. split; [apply N2Z.id|]. exact Hm'.
Qed.

Section Integers.
Context {interp : Interpreter}.

(** On two integers an operator raises nothing but what a shift raises:
    [ValueError] for a negative count and, for a count that is not
    negative, what the interpreter raises when the count is beyond its
    limits. *)
Lemma int_op_raises b a c e :
  int_op b a c = Raise e →
  (b = lshift ∨ b = rshift) ∧
  (c < 0 ∧ e = ValueError ∨ 0 ≤ c ∧ shift_error b a c = Some e).
Proof.
  destruct b; simpl; try done; unfold shift_raises;
    (destruct (decide (c < 0)); [intros [= <-]; auto|]);
    (destruct (shift_error _ a c) as [e'|] eqn:He; [|done]);
    intros [= <-]; (split; [auto|right; split; [lia|done]]).
Qed.

(** None of them is [TypeError], the one exception that [_bin_op] and the
    handlers of the light engine catch. *)
Lemma int_op_never_TypeError b a c : int_op b a c ≠ Raise TypeError.
Proof.
  intros H. apply int_op_raises in H as [_ [[_ [=]]|[_ H]]].
  by apply shift_error_no_TypeError in H.
Qed.

Lemma int_op_total b a c :
  (b = lshift ∨ b = rshift → 0 ≤ c ∧ shift_error b a c = None) →
  ∃ z, int_op b a c = Ok z.
Proof.
  intros Hc. destruct b; simpl; eauto; unfold shift_raises;
    (destruct Hc as [Hc ->]; [auto|]);
    (destruct (decide (c < 0)); [lia|by eauto]).
Qed.

(** So an operator applied to two integers returns, unless it is a shift by
    a negative count or by a count beyond the limits of the interpreter. *)
Lemma operator_on_integers offset_op b a c :
  (b = lshift ∨ b = rshift → 0 ≤ c ∧ shift_error b a c = None) →
  ∃ z, operator offset_op b (VInt a) (VInt c) = Ok (VInt z).
Proof.
  intros Hc. destruct (int_op_total b a c Hc) as [z Hz]. exists z.
  simpl. by rewrite Hz.
Qed.

End Integers.

(** C1, amended: for each of the seven operators and every member pair
    [(s, o)] of the product, provided no member pair makes the operator
    raise anything but [TypeError] (on two integers only a shift does, by a
    negative count or by a count beyond the limits of the interpreter, see
    [int_op_raises]), [x op y] returns a DataSet of [x]'s width that
    contains [Undefined] when [s] or [o] is [Undefined], contains
    [(s op o) & x.mask] when both are integers, and contains [Undefined]
    when [op(s, o)] raises [TypeError]. *)
Theorem bin_op_members {interp : Interpreter} offset_op (b : binop) (x y : t) :
  data x ≠ ∅ → data y ≠ ∅ →
  (∀ s o e, s ∈ data x → o ∈ data y → s ≠ VUndefined → o ≠ VUndefined →
            operator offset_op b s o = Raise e → e = TypeError) →
  ∃ r, method offset_op b x y = Ok r ∧ _bits r = _bits x ∧
    ∀ s o, s ∈ data x → o ∈ data y →
      (s = VUndefined ∨ o = VUndefined → VUndefined ∈ data r) ∧
      (∀ a c, s = VInt a → o = VInt c →
         ∃ z, int_op b a c = Ok z ∧ VInt (Z.land z (_mask x)) ∈ data r) ∧
      (s ≠ VUndefined → o ≠ VUndefined →
       operator offset_op b s o = Raise TypeError → VUndefined ∈ data r).
Proof.
  intros Hx Hy Hraise.
  destruct (_bin_op_ok x y (operator offset_op b) Hx Hy) as (r & Hr & Hb & Hm).
  { intros o s Ho Hs (Hou & Hsu & e & He & Hne). apply Hne. eauto. }
  exists r. split; [by destruct b|]. split; [done|].
  intros s o Hs Ho. repeat split.
  - intros Hu. apply Hm. exists o, s. repeat split; try done.
    unfold member. destruct (decide (o = VUndefined ∨ s = VUndefined)); tauto.
  - intros a c -> ->.
    destruct (int_op b a c) as [z|e] eqn:Hz.
    + exists z. split; [done|]. apply Hm. exists (VInt c), (VInt a).
      repeat split; try done. unfold member.
      destruct (decide _) as [[?|?]|_]; [done..|]. simpl. by rewrite Hz.
    + exfalso. assert (e = TypeError) as ->.
      { apply (Hraise (VInt a) (VInt c)); try done. simpl. by rewrite Hz. }
      by apply int_op_never_TypeError in Hz.
  - intros Hsu Hou Hte. apply Hm. exists o, s. repeat split; try done.
    unfold member. destruct (decide _) as [[?|?]|_]; [done..|].
    by rewrite Hte.
Qed.

(** *** Examples, on the interpreter of the language reference *)

Section Examples.
Existing Instance Scenario.cpython.

(** The operands of the counterexample: [DataSet({1}, 8)] and
    [DataSet({-1}, 8)]. *)
Definition one8 : t := mk {[VInt 1]} 8.
Definition minus_one8 : t := mk {[VInt (-1)]} 8.
(** No offset arithmetic is needed on integers. *)
Definition no_offset_op (b : binop) (s o : Value) : Exc Value := Raise TypeError.
(** [DataSet({1}, 64)] and [DataSet({2 ** 64 - 1}, 64)]. *)
Definition one64 : t := mk {[VInt 1]} 64.
Definition max64 : t := mk {[VInt (2 ^ 64 - 1)]} 64.

(** C1, as stated, fails: both members are integers, and
    [DataSet({1}, 8) << DataSet({-1}, 8)] returns no result set at all,
    since [1 << -1] raises [ValueError], which [_bin_op] does not catch. *)
Lemma bin_op_negative_shift_aborts :
  VInt 1 ∈ data one8 ∧ VInt (-1) ∈ data minus_one8 ∧
  __lshift__ no_offset_op one8 minus_one8 = Raise ValueError ∧
  ¬ ∃ r, method no_offset_op lshift one8 minus_one8 = Ok r.
Proof.
  split; [unfold one8; simpl; set_solver|].
  split; [unfold minus_one8; simpl; set_solver|].
  assert (H : __lshift__ no_offset_op one8 minus_one8 = Raise ValueError)
    by (vm_compute; reflexivity).
  split; [exact H|]. intros [r Hr]. simpl in Hr. congruence.
Qed.

(** Nor does [_bin_op] catch what a shift by a count beyond the limits of
    the interpreter raises: [DataSet({1}, 64) << DataSet({2 ** 64 - 1}, 64)]
    returns no result set either. *)
Lemma bin_op_large_shift_aborts :
  __lshift__ no_offset_op one64 max64 = Raise OverflowError.
Proof. vm_compute; reflexivity. Qed.

Definition one_two8 : t := mk {[VInt 1; VInt 2]} 8.
Definition three_undef8 : t := mk {[VInt 3; VUndefined]} 8.

(** The hypotheses of [bin_op_members] hold of [{1, 2} + {3, Undefined}]
    at 8 bits. *)
Lemma bin_op_members_witness :
  ∃ r, method no_offset_op add one_two8 three_undef8 = Ok r ∧
    _bits r = _bits one_two8 ∧
    ∀ s o, s ∈ data one_two8 → o ∈ data three_undef8 →
      (s = VUndefined ∨ o = VUndefined → VUndefined ∈ data r) ∧
      (∀ a c, s = VInt a → o = VInt c →
         ∃ z, int_op add a c = Ok z ∧
              VInt (Z.land z (_mask one_two8)) ∈ data r) ∧
      (s ≠ VUndefined → o ≠ VUndefined →
       operator no_offset_op add s o = Raise TypeError → VUndefined ∈ data r).
Proof.
  apply (bin_op_members no_offset_op add one_two8 three_undef8).
  - apply (non_empty_inhabited_L (VInt 1)). unfold one_two8. simpl. set_solver.
  - apply (non_empty_inhabited_L (VInt 3)). unfold three_undef8. simpl. set_solver.
  - unfold one_two8, three_undef8. simpl. intros s o e Hs Ho _ Hou.
    apply elem_of_union in Hs as [Hs|Hs]; apply elem_of_singleton in Hs as ->;
      (apply elem_of_union in Ho as [Ho|Ho]; apply elem_of_singleton in Ho as ->;
       [discriminate|done]).
Defined.

End Examples.

End DataSetFacts.

(** ** Membership in a KeyedRegion *)

Module KeyedRegionFacts.
Import KeyedRegion.

Lemma elem_of_set_object self offset obj size e :
  e ∈ set_object self offset obj size ↔
  e = (offset, size, obj) ∨ (e ∈ self ∧ ¬ covered offset size e).
Proof.
  unfold set_object. rewrite elem_of_union, elem_of_singleton, elem_of_filter.
  tauto.
Qed.

Lemma elem_of_get_objects_by_offset self offset obj :
  obj ∈ get_objects_by_offset self offset ↔
  ∃ o s, (o, s, obj) ∈ self ∧ o ≤ offset < o + s.
Proof.
  unfold get_objects_by_offset. rewrite elem_of_map. split.
  - intros ([[o s] d] & -> & He). apply elem_of_filter in He as [Hc He].
    exists o, s. by split.
  - intros (o & s & He & Hc). exists (o, s, obj). split; [done|].
    apply elem_of_filter. by split.
Qed.

Lemma get_objects_by_offset_merge self other offset :
  get_objects_by_offset (merge self other) offset =
  get_objects_by_offset self offset ∪ get_objects_by_offset other offset.
Proof.
  apply set_eq. intros d. rewrite elem_of_union.
  rewrite !elem_of_get_objects_by_offset. unfold merge. set_solver.
Qed.

End KeyedRegionFacts.

(** ** Temporaries in the state *)

Module TmpFacts.
Import ReachingDefinitions.

(** C10: for a [Tmp] atom, [kill_and_add_definition(atom, code_loc, data)]
    only binds [tmp_definitions[atom.tmp_idx]] to the pair
    [(atom, code_loc)]: the call returns normally, every other part of the
    state and the heap are as before (no definition is installed in a
    region, none is marked dead), and the outcome is the same for every
    [data]. *)
Theorem kill_and_add_tmp_discards_data (h : Heap) (s : t) (tmp_idx : Z)
    (code_loc : CodeLocation) (data : PyObj) :
  let out := kill_and_add_definition (Tmp tmp_idx) code_loc data (h, s) in
  out = (Ok tt, (h, set_tmp_definitions
                      (<[tmp_idx := (Tmp tmp_idx, code_loc)]> (tmp_definitions s)) s)) ∧
  tmp_definitions out.2.2 !! tmp_idx = Some (Tmp tmp_idx, code_loc) ∧
  (∀ i, i ≠ tmp_idx → tmp_definitions out.2.2 !! i = tmp_definitions s !! i) ∧
  register_definitions out.2.2 = register_definitions s ∧
  memory_definitions out.2.2 = memory_definitions s ∧
  _dead_virgin_definitions out.2.2 = _dead_virgin_definitions s ∧
  register_uses out.2.2 = register_uses s ∧
  memory_uses out.2.2 = memory_uses s ∧
  tmp_uses out.2.2 = tmp_uses s ∧
  ∀ data', kill_and_add_definition (Tmp tmp_idx) code_loc data' (h, s) = out.
Proof.
  simpl. split; [reflexivity|]. split; [apply lookup_insert_eq|].
  split; [intros i Hi; by apply lookup_insert_ne|]. by repeat split.
Qed.

(** C9: [add_use] of a [Tmp] atom raises [KeyError], leaving heap and
    state as they were, when [tmp_definitions] has no entry for its
    [tmp_idx]; with an entry [d] it returns normally and
    [tmp_uses[tmp_idx]] then holds [(code_loc, d)] besides what it held.
    An entry is there once [kill_and_add_definition] has run for the
    temporary. *)
Theorem add_use_tmp (h : Heap) (s : t) (tmp_idx : Z) (code_loc : CodeLocation) :
  (tmp_definitions s !! tmp_idx = None →
     add_use (Tmp tmp_idx) code_loc (h, s) = (Raise KeyError, (h, s))) ∧
  (∀ d, tmp_definitions s !! tmp_idx = Some d →
     ∃ h' s', add_use (Tmp tmp_idx) code_loc (h, s) = (Ok tt, (h', s')) ∧
              get_tmp_uses h' s' tmp_idx =
                {[(code_loc, d)]} ∪ get_tmp_uses h s tmp_idx ∧
              tmp_definitions s' = tmp_definitions s) ∧
  (∀ loc0 data,
     ∃ h' s',
       (kill_and_add_definition (Tmp tmp_idx) loc0 data ;;
        add_use (Tmp tmp_idx) code_loc) (h, s) = (Ok tt, (h', s')) ∧
       (code_loc, (Tmp tmp_idx, loc0)) ∈ get_tmp_uses h' s' tmp_idx).
Proof.
  assert (Hsome : ∀ s0 d, tmp_definitions s0 !! tmp_idx = Some d →
     ∃ h' s', add_use (Tmp tmp_idx) code_loc (h, s0) = (Ok tt, (h', s')) ∧
              get_tmp_uses h' s' tmp_idx =
                {[(code_loc, d)]} ∪ get_tmp_uses h s0 tmp_idx ∧
              tmp_definitions s' = tmp_definitions s0).
  { intros s0 d Hd. unfold add_use, _add_tmp_use, bind, self_, tmp_uses_getitem,
      modify, get_tmp_uses. rewrite Hd.
    destruct (tmp_uses s0 !! tmp_idx) as [r|] eqn:Hr.
    - eexists _, _. split; [reflexivity|]. simpl. rewrite Hr.
      by rewrite lookup_insert_eq.
    - eexists _, _. split; [reflexivity|]. cbn.
      repeat (rewrite lookup_insert_eq; cbn). split; [set_solver|done]. }
  split; [|split].
  - intros Hd. unfold add_use, _add_tmp_use, bind, self_. by rewrite Hd.
  - apply Hsome.
  - intros loc0 data.
    destruct (Hsome (set_tmp_definitions
                (<[tmp_idx := (Tmp tmp_idx, loc0)]> (tmp_definitions s)) s)
                (Tmp tmp_idx, loc0)) as (h' & s' & Hrun & Huses & _).
    { simpl. apply lookup_insert_eq. }
    exists h', s'. split; [exact Hrun|]. rewrite Huses. set_solver.
Qed.

(** A state that tracks temporaries and has seen nothing. *)
Definition fresh_state : t := __init__ Scenario.arch64 true false.
(** The same state after [t7] was written at statement 3 of block 0x400000. *)
Definition state_with_t7 : t :=
  set_tmp_definitions {[ 7 := (Tmp 7, CodeLoc 0x400000 3 (Some 0x400004)) ]}
    fresh_state.

Lemma add_use_tmp_witness :
  add_use (Tmp 7) (CodeLoc 0x400000 5 None) (empty_heap, fresh_state)
    = (Raise KeyError, (empty_heap, fresh_state)) ∧
  ∃ h' s', add_use (Tmp 7) (CodeLoc 0x400000 5 None) (empty_heap, state_with_t7)
             = (Ok tt, (h', s')) ∧
           get_tmp_uses h' s' 7 =
             {[(CodeLoc 0x400000 5 None, (Tmp 7, CodeLoc 0x400000 3 (Some 0x400004)))]}
             ∪ get_tmp_uses empty_heap state_with_t7 7 ∧
           tmp_definitions s' = tmp_definitions state_with_t7.
Proof.
  split.
  - apply (add_use_tmp empty_heap fresh_state 7 (CodeLoc 0x400000 5 None)).
    reflexivity.
  - apply (add_use_tmp empty_heap state_with_t7 7 (CodeLoc 0x400000 5 None)).
    reflexivity.
Defined.

End TmpFacts.

(** ** [Uses.merge] on the heap *)

Module UsesFacts.
Import Uses.

(** Every set a dictionary refers to was created for the key it stands
    under, in a dictionary of one kind ([true]: register uses, [false]:
    memory uses): [owner] names that kind and key.  The code keeps it so:
    a set is created by the [defaultdict] for the key looked up, and
    [merge] stores under [k] what it found under [k]. *)
Definition owned (owner : nat → bool * Def.t) (kd : bool) (u : t) : Prop :=
  ∀ k r, _uses_by_definition u !! k = Some r → owner r = (kd, k).

(** [add_use] keeps it so: the set it creates is new to every dictionary
    whose sets are in the heap. *)
Lemma add_use_owned owner kd h u d loc res h' u' :
  owned owner kd u →
  (∀ k r, _uses_by_definition u !! k = Some r → r ∈ dom h) →
  add_use d loc (h, u) = (res, (h', u')) →
  ∃ owner', owned owner' kd u' ∧ ∀ r, r ∈ dom h → owner' r = owner r.
Proof.
  intros Hu Hdom. unfold add_use, bind, _uses_by_definition_getitem, modify,
    lift_exc. simpl.
  destruct (_uses_by_definition u !! d) as [r|] eqn:Hd.
  - intros Hrun. exists owner. split; [|done].
    destruct (Def.offset d), (Def.size d); simpl in Hrun;
      injection Hrun as _ _ <-; exact Hu.
  - set (r := fresh (dom h)). intros Hrun.
    exists (λ x, if decide (x = r) then (kd, d) else owner x).
    assert (Hr : r ∉ dom h) by apply is_fresh.
    split.
    + assert (Hins : ∀ k r0, <[d := r]> (_uses_by_definition u) !! k = Some r0 →
                (if decide (r0 = r) then (kd, d) else owner r0) = (kd, k)).
      { intros k r0. destruct (decide (d = k)) as [<-|Hne].
        - rewrite lookup_insert_eq. intros [= <-]. by rewrite decide_True.
        - rewrite lookup_insert_ne by done. intros Hk.
          rewrite decide_False; [by apply Hu|].
          intros ->. by apply Hdom in Hk. }
      destruct (Def.offset d), (Def.size d); simpl in Hrun;
        injection Hrun as _ _ <-; exact Hins.
    + intros r0 Hr0. rewrite decide_False; [done|]. by intros ->.
Qed.

(** The first value under [k] in a list of items. *)
Fixpoint assoc (k : Def.t) (l : list (Def.t * nat)) : option nat :=
  match l with
  | [] => None
  | kv :: l' => if decide (kv.1 = k) then Some kv.2 else assoc k l'
  end.

Lemma assoc_Some k v l : assoc k l = Some v → (k, v) ∈ l.
Proof.
  induction l as [|[k' v'] l IH]; simpl; [done|].
  destruct (decide (k' = k)) as [->|].
  - intros [= ->]. left.
  - intros H. right. auto.
Qed.

Lemma assoc_None k l : k ∉ l.*1 → assoc k l = None.
Proof.
  induction l as [|[k' v'] l IH]; simpl; [done|].
  intros Hk. apply not_elem_of_cons in Hk as [Hne Hk].
  destruct (decide (k' = k)); [congruence|auto].
Qed.

Lemma assoc_map_to_list k (m : gmap Def.t nat) : assoc k (map_to_list m) = m !! k.
Proof.
  destruct (m !! k) as [v|] eqn:Hm.
  - destruct (assoc k (map_to_list m)) as [v'|] eqn:Ha.
    + apply assoc_Some, elem_of_map_to_list in Ha. congruence.
    + exfalso. apply elem_of_map_to_list in Hm. revert Ha Hm. generalize (map_to_list m). intros l.
      induction l as [|[k' w] l IH]; simpl; intros Ha Hin.
      * by apply elem_of_nil in Hin.
      * destruct (decide (k' = k)); [done|].
        apply elem_of_cons in Hin as [[=]|Hin]; [congruence|auto].
  - apply assoc_None. intros Hin. apply list_elem_of_fmap in Hin as ([k' v] & -> & Hin).
    apply elem_of_map_to_list in Hin. simpl in Hm. congruence.
Qed.

Lemma deref_insert (h : gmap nat (gset CodeLocation)) r0 X r :
  deref (<[r0 := X]> h) r = if decide (r = r0) then X else deref h r.
Proof.
  unfold deref. destruct (decide (r = r0)) as [->|Hne].
  - by rewrite lookup_insert_eq.
  - by rewrite lookup_insert_ne.
Qed.

(** The loop of [merge] over the items [l] of the other dictionary. *)
Lemma merge_items_spec owner kd (l : list (Def.t * nat)) : ∀ h self,
  NoDup l.*1 → owned owner kd self →
  (∀ k v, (k, v) ∈ l → owner v = (kd, k)) →
  ∃ h' dict',
    for_each l merge_item (h, self) = (Ok tt, (h', mk dict' (_current_uses self))) ∧
    (∀ k, dict' !! k = match _uses_by_definition self !! k with
                       | Some r => Some r
                       | None => assoc k l
                       end) ∧
    (∀ r, deref h' r =
          deref h r ∪
          if decide (_uses_by_definition self !! (owner r).2 = Some r)
          then match assoc (owner r).2 l with
               | Some v => deref h v
               | None => ∅
               end
          else ∅).
Proof.
  induction l as [|[k0 v0] l IH]; intros h self Hnd Hself Hl.
  - exists h, (_uses_by_definition self). split; [by destruct self|].
    split.
    + intros k. by destruct (_ !! k).
    + intros r. simpl. destruct (decide _); set_solver.
  - apply NoDup_cons in Hnd as [Hk0 Hnd]. simpl in Hk0.
    assert (Hl' : ∀ k v, (k, v) ∈ l → owner v = (kd, k)).
    { intros k v Hin. apply Hl. by right. }
    assert (Hv0 : owner v0 = (kd, k0)) by (apply Hl; left).
    cbn [for_each]. unfold bind at 1. unfold merge_item at 1, modify. cbn [fst snd].
    destruct (_uses_by_definition self !! k0) as [r0|] eqn:Hself0.
    + (* self[k0] |= v0 *)
      destruct (IH (<[r0 := deref h r0 ∪ deref h v0]> h) self Hnd Hself Hl')
        as (h' & dict' & Hrun & Hdict & Hheap).
      exists h', dict'. split; [exact Hrun|]. split.
      * intros k. rewrite Hdict. destruct (_ !! k) eqn:Hk; [done|]. simpl.
        destruct (decide (k0 = k)); [congruence|done].
      * intros r. rewrite Hheap. rewrite !deref_insert. simpl.
        assert (Hr0 : owner r0 = (kd, k0)) by (by apply Hself).
        destruct (decide (r = r0)) as [->|Hne].
        -- rewrite Hr0. simpl. rewrite (assoc_None k0 l Hk0).
           destruct (decide _); [|congruence].
           destruct (decide (k0 = k0)); [|congruence]. set_solver.
        -- destruct (decide (_uses_by_definition self !! (owner r).2 = Some r))
             as [Hr|]; [|done].
           destruct (decide (k0 = (owner r).2)) as [Heq|Hkne]; [congruence|].
           destruct (assoc (owner r).2 l) as [v|] eqn:Hv; [|done].
           apply assoc_Some, Hl' in Hv. rewrite deref_insert.
           destruct (decide (v = r0)) as [->|]; [|done].
           rewrite Hr0 in Hv. congruence.
    + (* self[k0] = v0 *)
      destruct (IH h (mk (<[k0 := v0]> (_uses_by_definition self))
                        (_current_uses self)) Hnd) as (h' & dict' & Hrun & Hdict & Hheap).
      { intros k r. simpl. destruct (decide (k0 = k)) as [->|Hne].
        - rewrite lookup_insert_eq. by intros [= <-].
        - rewrite lookup_insert_ne by done. apply Hself. }
      { exact Hl'. }
      exists h', dict'. split; [exact Hrun|]. simpl in *. split.
      * intros k. rewrite Hdict. destruct (decide (k0 = k)) as [->|Hne].
        -- by rewrite lookup_insert_eq, Hself0.
        -- by rewrite lookup_insert_ne.
      * intros r. rewrite Hheap. f_equal.
        destruct (decide (k0 = (owner r).2)) as [<-|Hne].
        -- rewrite lookup_insert_eq, Hself0, (assoc_None k0 l Hk0).
           by repeat destruct (decide _).
        -- by rewrite lookup_insert_ne.
Qed.

(** [self.merge(other)] in closed form. *)
Lemma uses_merge_spec owner kd h self other :
  owned owner kd self → owned owner kd other →
  ∃ h' self',
    merge other (h, self) = (Ok tt, (h', self')) ∧
    (∀ k, _uses_by_definition self' !! k =
          match _uses_by_definition self !! k with
          | Some r => Some r
          | None => _uses_by_definition other !! k
          end) ∧
    _current_uses self' =
      KeyedRegion.merge (_current_uses self) (_current_uses other) ∧
    (∀ r, deref h' r =
          deref h r ∪
          if decide (_uses_by_definition self !! (owner r).2 = Some r)
          then get_uses h other (owner r).2 else ∅).
Proof.
  intros Hself Hother.
  destruct (merge_items_spec owner kd (map_to_list (_uses_by_definition other))
              h self) as (h' & dict' & Hrun & Hdict & Hheap).
  { apply NoDup_fst_map_to_list. }
  { exact Hself. }
  { intros k v Hin. apply elem_of_map_to_list in Hin. by apply Hother. }
  exists h', (mk dict' (KeyedRegion.merge (_current_uses self) (_current_uses other))).
  split; [|split; [|split]].
  - unfold merge, bind. rewrite Hrun. reflexivity.
  - intros k. rewrite Hdict. by rewrite assoc_map_to_list.
  - done.
  - intros r. rewrite Hheap. unfold get_uses. by rewrite assoc_map_to_list.
Qed.

End UsesFacts.

(** ** Equality of states, copy and merge *)

Module StateFacts.
Import ReachingDefinitions.

(** [ReachingDefinitions] and [Uses] define no [__eq__] of their own; two
    states are compared by what they hold: the definitions of the two
    regions, the uses recorded for every definition and the current uses,
    the dead definitions, and the temporaries with their uses.  The sets
    of uses are read in the heap each state lives in. *)
Definition uses_eq (h1 : Heap) (u1 : Uses.t) (h2 : Heap) (u2 : Uses.t) : Prop :=
  (∀ d, Uses.get_uses (use_sets h1) u1 d = Uses.get_uses (use_sets h2) u2 d) ∧
  Uses._current_uses u1 = Uses._current_uses u2.

(** Equality on the five substructures that [merge] joins. *)
Definition merged_eq (h1 : Heap) (s1 : t) (h2 : Heap) (s2 : t) : Prop :=
  register_definitions s1 = register_definitions s2 ∧
  memory_definitions s1 = memory_definitions s2 ∧
  uses_eq h1 (register_uses s1) h2 (register_uses s2) ∧
  uses_eq h1 (memory_uses s1) h2 (memory_uses s2) ∧
  _dead_virgin_definitions s1 = _dead_virgin_definitions s2.

Definition state_eq (h1 : Heap) (s1 : t) (h2 : Heap) (s2 : t) : Prop :=
  merged_eq h1 s1 h2 s2 ∧
  tmp_definitions s1 = tmp_definitions s2 ∧
  ∀ i, get_tmp_uses h1 s1 i = get_tmp_uses h2 s2 i.

(** The register uses ([true]) or the memory uses ([false]) of a state. *)
Definition uses_of (kd : bool) (s : t) : Uses.t :=
  if kd then register_uses s else memory_uses s.

Definition state_owned (owner : nat → bool * Def.t) (s : t) : Prop :=
  ∀ kd, UsesFacts.owned owner kd (uses_of kd s).

(** [self.merge(other)] in closed form. *)
Lemma state_merge_spec owner h self other :
  state_owned owner self → state_owned owner other →
  ∃ h' res,
    merge self [other] h = (Ok res, h') ∧
    register_definitions res =
      register_definitions self ∪ register_definitions other ∧
    memory_definitions res = memory_definitions self ∪ memory_definitions other ∧
    _dead_virgin_definitions res =
      _dead_virgin_definitions self ∪ _dead_virgin_definitions other ∧
    tmp_definitions res = tmp_definitions self ∧
    tmp_uses res = tmp_uses self ∧
    tmp_use_sets h' = tmp_use_sets h ∧
    (∀ kd, Uses._current_uses (uses_of kd res) =
           Uses._current_uses (uses_of kd self) ∪ Uses._current_uses (uses_of kd other)) ∧
    (∀ kd k, Uses._uses_by_definition (uses_of kd res) !! k =
             match Uses._uses_by_definition (uses_of kd self) !! k with
             | Some r => Some r
             | None => Uses._uses_by_definition (uses_of kd other) !! k
             end) ∧
    (∀ r, Uses.deref (use_sets h') r =
          Uses.deref (use_sets h) r ∪
          if decide (Uses._uses_by_definition (uses_of (owner r).1 self)
                       !! (owner r).2 = Some r)
          then Uses.get_uses (use_sets h) (uses_of (owner r).1 other) (owner r).2
          else ∅).
Proof.
  intros Hself Hother.
  destruct (UsesFacts.uses_merge_spec owner true (use_sets h) (register_uses self)
              (register_uses other) (Hself true) (Hother true))
    as (h1 & u1 & Hrun1 & Hdict1 & Hcur1 & Hheap1).
  destruct (UsesFacts.uses_merge_spec owner false h1 (memory_uses self)
              (memory_uses other) (Hself false) (Hother false))
    as (h2 & u2 & Hrun2 & Hdict2 & Hcur2 & Hheap2).
  exists (mkHeap h2 (tmp_use_sets h)).
  eexists. split.
  { unfold merge, copy, Uses.copy, KeyedRegion.copy. cbn [for_each].
    unfold merge_other, bind, update, modify, on_register_uses, on_memory_uses,
      on_uses, ret. cbn.
    replace (Uses.mk (Uses._uses_by_definition (register_uses self))
               (Uses._current_uses (register_uses self)))
      with (register_uses self) by (by destruct (register_uses self)).
    rewrite Hrun1. cbn.
    replace (Uses.mk (Uses._uses_by_definition (memory_uses self))
               (Uses._current_uses (memory_uses self)))
      with (memory_uses self) by (by destruct (memory_uses self)).
    rewrite Hrun2. cbn. reflexivity. }
  cbn. repeat (split; [reflexivity|]). split; [|split].
  - intros []; simpl; [exact Hcur1|exact Hcur2].
  - intros [] k; simpl; [apply Hdict1|apply Hdict2].
  - intros r. rewrite Hheap2, Hheap1. destruct (owner r) as [[] k] eqn:Hr; simpl.
    + (* a set of the register uses: the memory merge leaves it alone *)
      destruct (decide (Uses._uses_by_definition (memory_uses self) !! k = Some r))
        as [Hm|_].
      { apply (Hself false) in Hm. congruence. }
      by rewrite (right_id_L ∅ (∪)).
    + (* a set of the memory uses: the register merge left it alone *)
      destruct (decide (Uses._uses_by_definition (register_uses self) !! k = Some r))
        as [Hm|_].
      { apply (Hself true) in Hm. congruence. }
      rewrite (right_id_L ∅ (∪)). f_equal.
      destruct (decide _) as [_|]; [|done].
      unfold Uses.get_uses.
      destruct (Uses._uses_by_definition (memory_uses other) !! k) as [v|] eqn:Hv;
        [|done].
      rewrite Hheap1. apply (Hother false) in Hv. rewrite Hv. simpl.
      destruct (decide (Uses._uses_by_definition (register_uses self) !! k = Some v))
        as [Hm|_].
      { apply (Hself true) in Hm. congruence. }
      by rewrite (right_id_L ∅ (∪)).
Qed.

(** The members that [u] records for [d], as far as [merge] is concerned. *)
Definition uses (h : Heap) (u : Uses.t) (d : Def.t) : gset CodeLocation :=
  Uses.get_uses (use_sets h) u d.

(** What [res = self.merge(other)], run from heap [h] to heap [h'], has
    done: the result joins both sides, no set of the heap has lost a
    member, and a set under [d] has gained members of [other] under [d]
    only. *)
Definition merge_post (owner : nat → bool * Def.t) (h : Heap) (self other : t)
    (h' : Heap) (res : t) : Prop :=
  register_definitions res =
    register_definitions self ∪ register_definitions other ∧
  memory_definitions res = memory_definitions self ∪ memory_definitions other ∧
  _dead_virgin_definitions res =
    _dead_virgin_definitions self ∪ _dead_virgin_definitions other ∧
  tmp_definitions res = tmp_definitions self ∧
  tmp_uses res = tmp_uses self ∧
  tmp_use_sets h' = tmp_use_sets h ∧
  (∀ kd, Uses._current_uses (uses_of kd res) =
         Uses._current_uses (uses_of kd self) ∪ Uses._current_uses (uses_of kd other)) ∧
  state_owned owner res ∧
  (∀ kd d, uses h' (uses_of kd res) d =
           uses h (uses_of kd self) d ∪ uses h (uses_of kd other) d) ∧
  (∀ u d, uses h u d ⊆ uses h' u d) ∧
  (∀ kd u d, UsesFacts.owned owner kd u →
             uses h' u d ⊆ uses h u d ∪ uses h (uses_of kd other) d).

Lemma get_uses_Some h u d r :
  Uses._uses_by_definition u !! d = Some r → Uses.get_uses h u d = Uses.deref h r.
Proof. unfold Uses.get_uses. by intros ->. Qed.

Lemma get_uses_None h u d :
  Uses._uses_by_definition u !! d = None → Uses.get_uses h u d = ∅.
Proof. unfold Uses.get_uses. by intros ->. Qed.

Lemma merge_run owner h self other :
  state_owned owner self → state_owned owner other →
  ∃ h' res, merge self [other] h = (Ok res, h') ∧
            merge_post owner h self other h' res.
Proof.
  intros Hself Hother.
  destruct (state_merge_spec owner h self other Hself Hother)
    as (h' & res & Hrun & Hrd & Hmd & Hdead & Htd & Htu & Hts & Hcur & Hdict & Hheap).
  exists h', res. split; [exact Hrun|].
  unfold merge_post. repeat (split; [assumption|]).
  split; [|split; [|split]].
  - intros kd k r. rewrite Hdict.
    destruct (Uses._uses_by_definition (uses_of kd self) !! k) as [r'|] eqn:Hk.
    + intros [= <-]. by apply (Hself kd).
    + apply (Hother kd).
  - intros kd d. unfold uses.
    destruct (Uses._uses_by_definition (uses_of kd self) !! d) as [r|] eqn:Hd.
    + rewrite (get_uses_Some _ (uses_of kd res) d r) by (by rewrite Hdict, Hd).
      rewrite (get_uses_Some _ (uses_of kd self) d r Hd).
      rewrite Hheap. rewrite (Hself kd d r Hd). simpl.
      by destruct (decide _).
    + rewrite (get_uses_None _ (uses_of kd self) d Hd), (left_id_L ∅ (∪)).
      destruct (Uses._uses_by_definition (uses_of kd other) !! d) as [v|] eqn:Hv.
      * rewrite (get_uses_Some _ (uses_of kd res) d v) by (by rewrite Hdict, Hd).
        rewrite (get_uses_Some _ (uses_of kd other) d v Hv).
        rewrite Hheap. rewrite (Hother kd d v Hv). simpl.
        destruct (decide _) as [?|_]; [congruence|]. by rewrite (right_id_L ∅ (∪)).
      * rewrite (get_uses_None _ (uses_of kd other) d Hv).
        apply get_uses_None. by rewrite Hdict, Hd.
  - intros u d. unfold uses.
    destruct (Uses._uses_by_definition u !! d) as [r|] eqn:Hd.
    + rewrite !(get_uses_Some _ u d r Hd). rewrite Hheap. set_solver.
    + by rewrite !(get_uses_None _ u d Hd).
  - intros kd u d Hu. unfold uses.
    destruct (Uses._uses_by_definition u !! d) as [r|] eqn:Hd.
    + rewrite !(get_uses_Some _ u d r Hd). rewrite Hheap. rewrite (Hu d r Hd).
      simpl. destruct (decide _); set_solver.
    + rewrite !(get_uses_None _ u d Hd). set_solver.
Qed.

(** The temporaries' uses are read through [tmp_uses] in [tmp_use_sets]. *)
Lemma get_tmp_uses_ext h1 s1 h2 s2 i :
  tmp_uses s1 = tmp_uses s2 → tmp_use_sets h1 = tmp_use_sets h2 →
  get_tmp_uses h1 s1 i = get_tmp_uses h2 s2 i.
Proof. unfold get_tmp_uses. by intros -> ->. Qed.

(** [merge] is commutative on what it joins. *)
Lemma merge_comm owner h a b :
  state_owned owner a → state_owned owner b →
  ∃ ab h1 ba h2,
    merge a [b] h = (Ok ab, h1) ∧ merge b [a] h1 = (Ok ba, h2) ∧
    merged_eq h2 ab h2 ba ∧
    tmp_definitions ab = tmp_definitions a ∧ tmp_definitions ba = tmp_definitions b.
Proof.
  intros Ha Hb.
  destruct (merge_run owner h a b Ha Hb) as (h1 & ab & Hrun1 & P1).
  destruct (merge_run owner h1 b a Hb Ha) as (h2 & ba & Hrun2 & P2).
  exists ab, h1, ba, h2. split; [exact Hrun1|]. split; [exact Hrun2|].
  destruct P1 as (Hrd1 & Hmd1 & Hdead1 & Htd1 & _ & _ & Hcur1 & Hown1 & HR1 & Hmono1 & Hbound1).
  destruct P2 as (Hrd2 & Hmd2 & Hdead2 & Htd2 & _ & _ & Hcur2 & Hown2 & HR2 & Hmono2 & Hbound2).
  assert (Huses : ∀ kd, uses_eq h2 (uses_of kd ab) h2 (uses_of kd ba)).
  { intros kd. split.
    - intros d. fold (uses h2 (uses_of kd ab) d). fold (uses h2 (uses_of kd ba) d).
      pose proof (HR1 kd d) as R1. pose proof (HR2 kd d) as R2.
      pose proof (Hmono1 (uses_of kd a) d) as A1.
      pose proof (Hmono1 (uses_of kd b) d) as B1.
      pose proof (Hmono2 (uses_of kd ab) d) as AB2.
      pose proof (Hbound1 kd (uses_of kd a) d (Ha kd)) as A1'.
      pose proof (Hbound1 kd (uses_of kd b) d (Hb kd)) as B1'.
      pose proof (Hbound2 kd (uses_of kd ab) d (Hown1 kd)) as AB2'.
      clear -R1 R2 A1 B1 AB2 A1' B1' AB2'. set_solver.
    - rewrite Hcur1, Hcur2. apply (comm_L (∪)). }
  split; [|by split].
  split; [rewrite Hrd1, Hrd2; apply (comm_L (∪))|].
  split; [rewrite Hmd1, Hmd2; apply (comm_L (∪))|].
  split; [apply (Huses true)|]. split; [apply (Huses false)|].
  rewrite Hdead1, Hdead2. apply (comm_L (∪)).
Qed.

(** [merge] is associative. *)
Lemma merge_assoc owner h a b c :
  state_owned owner a → state_owned owner b → state_owned owner c →
  ∃ ab h1 ab_c h2 bc h3 a_bc h4,
    merge a [b] h = (Ok ab, h1) ∧ merge ab [c] h1 = (Ok ab_c, h2) ∧
    merge b [c] h2 = (Ok bc, h3) ∧ merge a [bc] h3 = (Ok a_bc, h4) ∧
    state_eq h4 ab_c h4 a_bc.
Proof.
  intros Ha Hb Hc.
  destruct (merge_run owner h a b Ha Hb) as (h1 & ab & Hrun1 & P1).
  assert (Hab : state_owned owner ab) by apply P1.
  destruct (merge_run owner h1 ab c Hab Hc) as (h2 & ab_c & Hrun2 & P2).
  assert (Habc : state_owned owner ab_c) by apply P2.
  destruct (merge_run owner h2 b c Hb Hc) as (h3 & bc & Hrun3 & P3).
  assert (Hbc : state_owned owner bc) by apply P3.
  destruct (merge_run owner h3 a bc Ha Hbc) as (h4 & a_bc & Hrun4 & P4).
  exists ab, h1, ab_c, h2, bc, h3, a_bc, h4.
  repeat (split; [assumption|]).
  destruct P1 as (Hrd1 & Hmd1 & Hdead1 & Htd1 & Htu1 & Hts1 & Hcur1 & _ & HR1 & Hmono1 & Hbound1).
  destruct P2 as (Hrd2 & Hmd2 & Hdead2 & Htd2 & Htu2 & Hts2 & Hcur2 & _ & HR2 & Hmono2 & Hbound2).
  destruct P3 as (Hrd3 & Hmd3 & Hdead3 & Htd3 & Htu3 & Hts3 & Hcur3 & _ & HR3 & Hmono3 & Hbound3).
  destruct P4 as (Hrd4 & Hmd4 & Hdead4 & Htd4 & Htu4 & Hts4 & Hcur4 & _ & HR4 & Hmono4 & Hbound4).
  assert (Huses : ∀ kd, uses_eq h4 (uses_of kd ab_c) h4 (uses_of kd a_bc)).
  { intros kd. split.
    - intros d. fold (uses h4 (uses_of kd ab_c) d). fold (uses h4 (uses_of kd a_bc) d).
      set (U := uses h (uses_of kd a) d ∪ uses h (uses_of kd b) d ∪ uses h (uses_of kd c) d).
      (* after the first merge *)
      assert (B1 : ∀ x, state_owned owner x → uses h (uses_of kd x) d ⊆ U →
                        uses h1 (uses_of kd x) d ⊆ U).
      { intros x Hx Hxu. pose proof (Hbound1 kd (uses_of kd x) d (Hx kd)) as Hb1.
        clear -Hxu Hb1. subst U. set_solver. }
      assert (Ua : uses h (uses_of kd a) d ⊆ U) by (clear; subst U; set_solver).
      assert (Ub : uses h (uses_of kd b) d ⊆ U) by (clear; subst U; set_solver).
      assert (Uc : uses h (uses_of kd c) d ⊆ U) by (clear; subst U; set_solver).
      assert (Uab1 : uses h1 (uses_of kd ab) d ⊆ U).
      { rewrite (HR1 kd d). clear. subst U. set_solver. }
      assert (B2 : ∀ x, state_owned owner x → uses h1 (uses_of kd x) d ⊆ U →
                        uses h2 (uses_of kd x) d ⊆ U).
      { intros x Hx Hxu. pose proof (Hbound2 kd (uses_of kd x) d (Hx kd)) as Hb2.
        pose proof (B1 c Hc Uc) as Hc1. clear -Hxu Hb2 Hc1. set_solver. }
      assert (Uabc2 : uses h2 (uses_of kd ab_c) d ⊆ U).
      { rewrite (HR2 kd d). pose proof (B1 c Hc Uc) as Hc1.
        clear -Uab1 Hc1. set_solver. }
      assert (B3 : ∀ x, state_owned owner x → uses h2 (uses_of kd x) d ⊆ U →
                        uses h3 (uses_of kd x) d ⊆ U).
      { intros x Hx Hxu. pose proof (Hbound3 kd (uses_of kd x) d (Hx kd)) as Hb3.
        pose proof (B2 c Hc (B1 c Hc Uc)) as Hc2. clear -Hxu Hb3 Hc2. set_solver. }
      assert (Ubc3 : uses h3 (uses_of kd bc) d ⊆ U).
      { rewrite (HR3 kd d). pose proof (B2 c Hc (B1 c Hc Uc)) as Hc2.
        pose proof (B2 b Hb (B1 b Hb Ub)) as Hb2. clear -Hc2 Hb2. set_solver. }
      assert (B4 : ∀ x, state_owned owner x → uses h3 (uses_of kd x) d ⊆ U →
                        uses h4 (uses_of kd x) d ⊆ U).
      { intros x Hx Hxu. pose proof (Hbound4 kd (uses_of kd x) d (Hx kd)) as Hb4.
        clear -Hxu Hb4 Ubc3. set_solver. }
      (* both sides are the union of the three *)
      assert (L : U ⊆ uses h4 (uses_of kd ab_c) d).
      { pose proof (Hmono4 (uses_of kd ab_c) d) as M4.
        pose proof (Hmono3 (uses_of kd ab_c) d) as M3.
        pose proof (HR2 kd d) as R2. pose proof (HR1 kd d) as R1.
        pose proof (Hmono1 (uses_of kd c) d) as M1.
        clear -M4 M3 R2 R1 M1. subst U. set_solver. }
      assert (R : U ⊆ uses h4 (uses_of kd a_bc) d).
      { pose proof (HR4 kd d) as R4. pose proof (HR3 kd d) as R3.
        pose proof (Hmono1 (uses_of kd a) d) as A1.
        pose proof (Hmono2 (uses_of kd a) d) as A2.
        pose proof (Hmono3 (uses_of kd a) d) as A3.
        pose proof (Hmono1 (uses_of kd b) d) as B1'.
        pose proof (Hmono2 (uses_of kd b) d) as B2'.
        pose proof (Hmono1 (uses_of kd c) d) as C1.
        pose proof (Hmono2 (uses_of kd c) d) as C2.
        clear -R4 R3 A1 A2 A3 B1' B2' C1 C2. subst U. set_solver. }
      assert (L' : uses h4 (uses_of kd ab_c) d ⊆ U).
      { apply (B4 ab_c Habc), (B3 ab_c Habc), Uabc2. }
      assert (R' : uses h4 (uses_of kd a_bc) d ⊆ U).
      { rewrite (HR4 kd d). pose proof (B3 a Ha (B2 a Ha (B1 a Ha Ua))) as Ha3.
        clear -Ha3 Ubc3. set_solver. }
      clear -L R L' R'. set_solver.
    - rewrite Hcur4, Hcur3, Hcur2, Hcur1. symmetry. apply (assoc_L (∪)). }
  split; [|split].
  - split; [rewrite Hrd4, Hrd3, Hrd2, Hrd1; symmetry; apply (assoc_L (∪))|].
    split; [rewrite Hmd4, Hmd3, Hmd2, Hmd1; symmetry; apply (assoc_L (∪))|].
    split; [apply (Huses true)|]. split; [apply (Huses false)|].
    rewrite Hdead4, Hdead3, Hdead2, Hdead1. symmetry. apply (assoc_L (∪)).
  - congruence.
  - intros i. apply get_tmp_uses_ext; congruence.
Qed.

(** [merge] is idempotent. *)
Lemma merge_idemp owner h a :
  state_owned owner a →
  ∃ aa h1, merge a [a] h = (Ok aa, h1) ∧ state_eq h1 aa h1 a.
Proof.
  intros Ha.
  destruct (merge_run owner h a a Ha Ha) as (h1 & aa & Hrun1 & P1).
  exists aa, h1. split; [exact Hrun1|].
  destruct P1 as (Hrd1 & Hmd1 & Hdead1 & Htd1 & Htu1 & Hts1 & Hcur1 & _ & HR1 & Hmono1 & Hbound1).
  assert (Huses : ∀ kd, uses_eq h1 (uses_of kd aa) h1 (uses_of kd a)).
  { intros kd. split.
    - intros d. fold (uses h1 (uses_of kd aa) d). fold (uses h1 (uses_of kd a) d).
      pose proof (HR1 kd d) as R1. pose proof (Hmono1 (uses_of kd a) d) as A1.
      pose proof (Hbound1 kd (uses_of kd a) d (Ha kd)) as A1'.
      clear -R1 A1 A1'. set_solver.
    - rewrite Hcur1. apply (idemp_L (∪)). }
  split; [|split].
  - split; [rewrite Hrd1; apply (idemp_L (∪))|].
    split; [rewrite Hmd1; apply (idemp_L (∪))|].
    split; [apply (Huses true)|]. split; [apply (Huses false)|].
    rewrite Hdead1. apply (idemp_L (∪)).
  - done.
  - intros i. by apply get_tmp_uses_ext.
Qed.

(** [a.merge(b) == b.merge(a)], the left side evaluated first, compared
    on the five substructures that [merge] joins; each side keeps the
    temporaries of its receiver. *)
Definition merge_commutes (h : Heap) (a b : t) : Prop :=
  ∃ ab h1 ba h2,
    merge a [b] h = (Ok ab, h1) ∧ merge b [a] h1 = (Ok ba, h2) ∧
    merged_eq h2 ab h2 ba ∧
    tmp_definitions ab = tmp_definitions a ∧ tmp_definitions ba = tmp_definitions b.

(** [a.merge(b).merge(c) == a.merge(b.merge(c))], the left side evaluated
    first. *)
Definition merge_associates (h : Heap) (a b c : t) : Prop :=
  ∃ ab h1 ab_c h2 bc h3 a_bc h4,
    merge a [b] h = (Ok ab, h1) ∧ merge ab [c] h1 = (Ok ab_c, h2) ∧
    merge b [c] h2 = (Ok bc, h3) ∧ merge a [bc] h3 = (Ok a_bc, h4) ∧
    state_eq h4 ab_c h4 a_bc.

(** [a.merge(a) == a] *)
Definition merge_idempotent (h : Heap) (a : t) : Prop :=
  ∃ aa h1, merge a [a] h = (Ok aa, h1) ∧ state_eq h1 aa h1 a.

(** C5, amended: on states whose sets of uses each belong to one
    definition, [merge] always returns; it is associative and idempotent
    up to state equality, and commutative on the five substructures it
    joins (register and memory definitions, register and memory uses, dead
    definitions).  The temporaries of [a.merge(b)] are those of [a]. *)
Theorem merge_laws owner (h : Heap) (a b c : t) :
  state_owned owner a → state_owned owner b → state_owned owner c →
  merge_commutes h a b ∧ merge_associates h a b c ∧ merge_idempotent h a.
Proof.
  intros Ha Hb Hc. split; [|split].
  - by apply (merge_comm owner).
  - by apply (merge_assoc owner).
  - by apply (merge_idemp owner).
Qed.

(** *** Concrete states *)

Definition rax : Atom := Register 16 8.
Definition L1 : CodeLocation := CodeLoc 0x400000 0 (Some 0x400000).
Definition L2 : CodeLocation := CodeLoc 0x400000 1 (Some 0x400004).
Definition L3 : CodeLocation := CodeLoc 0x400000 2 (Some 0x400008).
Definition L4 : CodeLocation := CodeLoc 0x400010 0 (Some 0x400010).
Definition one64 : DataSet.t := DataSet.mk {[VInt 1]} 64.
Definition d_rax : Def.t := Def.mk rax L1 one64.

(** The state after [rax] was defined at [L1] and used at [L2]: the uses
    of [d_rax] are the set at address 0. *)
Definition heap_used : Heap := mkHeap {[ 0%nat := {[L2]} ]} ∅.
Definition state_used : t :=
  mk Scenario.arch64 false false {[ (16, 8, d_rax) ]} ∅ ∅
     (Uses.mk {[ d_rax := 0%nat ]} {[ (16, 8, d_rax) ]}) Uses.__init__ ∅ ∅.

Lemma state_used_reached :
  (kill_and_add_definition rax L1 (ODataSet one64) ;; add_use rax L2)
    (empty_heap, Scenario.blank)
  = (Ok tt, (heap_used, state_used)).
Proof. by_evaluation. Qed.

(** A state that holds temporary [t7] and nothing else. *)
Definition state_t7 : t :=
  set_tmp_definitions {[ 7 := (Tmp 7, L1) ]} (Scenario.blank).

(** C5, as stated, fails: [a.merge(b)] keeps the temporaries of [a] and
    [b.merge(a)] those of [b], so the two are different states when [a]
    holds a temporary and [b] none. *)
Lemma merge_not_commutative :
  ∃ ab h1 ba h2,
    merge state_t7 [Scenario.blank] empty_heap = (Ok ab, h1) ∧
    merge (Scenario.blank) [state_t7] h1 = (Ok ba, h2) ∧
    tmp_definitions ab !! 7 = Some (Tmp 7, L1) ∧
    tmp_definitions ba !! 7 = None ∧
    ¬ state_eq h2 ab h2 ba.
Proof.
  exists state_t7, empty_heap, (Scenario.blank), empty_heap.
  split; [by_evaluation|]. split; [by_evaluation|].
  split; [reflexivity|]. split; [reflexivity|].
  intros (_ & Htd & _). apply (f_equal (λ m, m !! 7)) in Htd. discriminate Htd.
Qed.

Definition owner_rax (r : nat) : bool * Def.t := (true, d_rax).

Lemma state_used_owned : state_owned owner_rax state_used.
Proof.
  intros [] k r; simpl.
  - intros [<- <-]%lookup_singleton_Some. reflexivity.
  - by rewrite lookup_empty.
Qed.

Lemma state_without_uses_owned owner s :
  Uses._uses_by_definition (register_uses s) = ∅ →
  Uses._uses_by_definition (memory_uses s) = ∅ → state_owned owner s.
Proof. intros Hr Hm [] k r; simpl; rewrite ?Hr, ?Hm; by rewrite lookup_empty. Qed.

Lemma merge_laws_witness :
  merge_commutes heap_used state_used state_t7 ∧
  merge_associates heap_used state_used state_t7 (Scenario.blank) ∧
  merge_idempotent heap_used state_used.
Proof.
  apply (merge_laws owner_rax heap_used state_used state_t7
           (Scenario.blank)).
  - exact state_used_owned.
  - by apply state_without_uses_owned.
  - by apply state_without_uses_owned.
Defined.

(** C4 fails on the code: [copy()] copies the dictionaries of [Uses] but
    not the sets they map to.  From the state in which [rax] is defined at
    [L1] and used at [L2], [add_use] on the copy also adds [L3] to the
    uses that the original records for that definition, and so does a
    [merge] into the copy's register uses with [L4]: the original is no
    longer equal to what it was. *)
Lemma copy_shares_use_sets :
  ∃ h2 c2 h3 c3,
    add_use rax L3 (heap_used, copy state_used) = (Ok tt, (h2, c2)) ∧
    Uses.get_uses (use_sets heap_used) (register_uses state_used) d_rax = {[L2]} ∧
    Uses.get_uses (use_sets h2) (register_uses state_used) d_rax = {[L2; L3]} ∧
    ¬ state_eq heap_used state_used h2 state_used ∧
    on_register_uses
      (Uses.merge (Uses.mk {[ d_rax := 1%nat ]} ∅))
      (mkHeap (<[1%nat := {[L4]}]> (use_sets heap_used)) ∅, copy state_used)
      = (Ok tt, (h3, c3)) ∧
    Uses.get_uses (use_sets h3) (register_uses state_used) d_rax = {[L2; L4]}.
Proof.
  exists (mkHeap {[ 0%nat := {[L2; L3]} ]} ∅), state_used,
         (mkHeap {[ 0%nat := {[L2; L4]}; 1%nat := {[L4]} ]} ∅), state_used.
  assert (H1 : Uses.get_uses (use_sets heap_used) (register_uses state_used) d_rax
               = {[L2]}) by by_evaluation.
  assert (H2 : Uses.get_uses (use_sets (mkHeap {[ 0%nat := {[L2; L3]} ]} ∅))
                 (register_uses state_used) d_rax = {[L2; L3]}) by by_evaluation.
  split; [by_evaluation|]. split; [exact H1|]. split; [exact H2|]. split.
  - intros ((_ & _ & (Hu & _) & _) & _). specialize (Hu d_rax).
    rewrite H1, H2 in Hu.
    assert (Hin : L3 ∈ ({[L2]} : gset CodeLocation)) by (rewrite Hu; set_solver).
    apply elem_of_singleton in Hin. discriminate Hin.
  - split; by_evaluation.
Qed.

(** The same, for every state: a use added through the copy of a [Uses]
    for a definition that already has uses is a use of the original. *)
Lemma copy_add_use_reaches_original h (u : Uses.t) d r loc offset size :
  Uses._uses_by_definition u !! d = Some r →
  Def.offset d = Ok offset → Def.size d = Ok size →
  ∃ h' c', Uses.add_use d loc (h, Uses.copy u) = (Ok tt, (h', c')) ∧
           Uses.get_uses h' u d = {[loc]} ∪ Uses.get_uses h u d.
Proof.
  intros Hd Ho Hs. unfold Uses.add_use, bind, Uses._uses_by_definition_getitem,
    Uses.copy, modify, lift_exc. simpl. rewrite Hd, Ho, Hs.
  eexists _, _. split; [reflexivity|].
  rewrite !(get_uses_Some _ u d r Hd). by rewrite UsesFacts.deref_insert, decide_True.
Qed.

End StateFacts.

(** ** The comparison handlers of VEX *)

Module CompareFacts.
Import VEX Scenario.

Lemma DataSet_init_ok (s : gset Value) (n : N) :
  s ≠ ∅ → DataSet.__init__ s (Z.of_N n) = Ok (DataSet.mk s n).
Proof.
  intros Hs. unfold DataSet.__init__.
  destruct (decide (s = ∅)); [done|].
  destruct (decide (Z.of_N n < 0)); [lia|]. by rewrite N2Z.id.
Qed.

Lemma singleton_len d v :
  DataSet.data d = {[v]} → DataSet.__len__ d = 1%nat ∧ get_first_element d = Ok v.
Proof.
  intros Hd. unfold DataSet.__len__, get_first_element. rewrite Hd.
  by rewrite size_singleton, elements_singleton.
Qed.

Lemma len_1_singleton d :
  DataSet.__len__ d = 1%nat → ∃ v, DataSet.data d = {[v]}.
Proof.
  unfold DataSet.__len__. intros [v Hv]%size_1_elem_of. exists v.
  by apply leibniz_equiv.
Qed.

Section Compare.
Variable result_size : VexExpr → N.
Variable _expr : VexExpr → M (Heap * Engine) PyObj.

(** The DataSet [{True, False}] of the width of [expr]. *)
Definition true_or_false (expr : VexExpr) : PyObj :=
  ODataSet (DataSet.mk {[VTrue; VFalse]} (result_size expr)).

Lemma comparison_of_integers on_integers expr arg0 arg1 w d0 w1 d1 w2 e0 e1 :
  _expr arg0 w = (Ok (ODataSet d0), w1) →
  _expr arg1 w1 = (Ok (ODataSet d1), w2) →
  DataSet.data d0 = {[VInt e0]} → DataSet.data d1 = {[VInt e1]} →
  _handle_comparison result_size _expr on_integers expr arg0 arg1 w
  = (on_integers e0 e1, w2).
Proof.
  intros H0 H1 Hd0 Hd1. unfold _handle_comparison, bind. rewrite H0, H1.
  destruct (singleton_len d0 _ Hd0) as [Hl0 Hf0].
  destruct (singleton_len d1 _ Hd1) as [Hl1 Hf1].
  unfold lift_exc, both_of_length_1, integer_operands. simpl.
  rewrite Hl0, Hl1. simpl. by rewrite Hf0, Hf1.
Qed.

Lemma comparison_of_others on_integers expr arg0 arg1 w d0 w1 d1 w2 :
  _expr arg0 w = (Ok (ODataSet d0), w1) →
  _expr arg1 w1 = (Ok (ODataSet d1), w2) →
  (¬ ∃ e0 e1, DataSet.data d0 = {[VInt e0]} ∧ DataSet.data d1 = {[VInt e1]}) →
  _handle_comparison result_size _expr on_integers expr arg0 arg1 w
  = (Ok (true_or_false expr), w2).
Proof.
  intros H0 H1 Hno. unfold _handle_comparison, bind. rewrite H0, H1.
  assert (Htop : DataSet.__init__ {[VTrue; VFalse]} (Z.of_N (result_size expr))
                 = Ok (DataSet.mk {[VTrue; VFalse]} (result_size expr))).
  { apply DataSet_init_ok. apply (non_empty_inhabited_L VTrue). set_solver. }
  unfold lift_exc, both_of_length_1, integer_operands, true_or_false. simpl.
  destruct (decide (DataSet.__len__ d0 = 1%nat)) as [Hl0|_]; simpl;
    [|by rewrite Htop].
  destruct (bool_decide_reflect (DataSet.__len__ d1 = 1%nat)) as [Hl1|_]; simpl;
    [|by rewrite Htop].
  destruct (len_1_singleton d0 Hl0) as [v0 Hd0].
  destruct (len_1_singleton d1 Hl1) as [v1 Hd1].
  destruct (singleton_len d0 _ Hd0) as [_ ->].
  destruct (singleton_len d1 _ Hd1) as [_ ->]. simpl.
  destruct v0 as [e0| | | |]; try (by rewrite Htop).
  destruct v1 as [e1| | | |]; try (by rewrite Htop).
  exfalso. apply Hno. eauto.
Qed.

(** C7, amended: with both operands evaluated to DataSets, [CmpEQ], [CmpNE]
    and [CmpLT] return the bare boolean of the comparison (no DataSet) and
    [CmpORD] the singleton DataSet [{0x08}], [{0x04}] or [{0x02}] (less,
    greater, equal) when both operands are singletons of integers; in every
    other case the four of them return the DataSet [{True, False}]. *)
Theorem comparison_handlers expr arg0 arg1 w d0 w1 d1 w2 :
  _expr arg0 w = (Ok (ODataSet d0), w1) →
  _expr arg1 w1 = (Ok (ODataSet d1), w2) →
  (∀ e0 e1, DataSet.data d0 = {[VInt e0]} → DataSet.data d1 = {[VInt e1]} →
     _handle_CmpEQ result_size _expr expr arg0 arg1 w
       = (Ok (OBool (bool_decide (e0 = e1))), w2) ∧
     _handle_CmpNE result_size _expr expr arg0 arg1 w
       = (Ok (OBool (bool_decide (e0 ≠ e1))), w2) ∧
     _handle_CmpLT result_size _expr expr arg0 arg1 w
       = (Ok (OBool (bool_decide (e0 < e1))), w2) ∧
     _handle_CmpORD result_size _expr expr arg0 arg1 w
       = (Ok (ODataSet (DataSet.mk
                {[VInt (if decide (e0 < e1) then 0x08
                        else if decide (e0 > e1) then 0x04 else 0x02)]}
                (result_size expr))), w2)) ∧
  ((¬ ∃ e0 e1, DataSet.data d0 = {[VInt e0]} ∧ DataSet.data d1 = {[VInt e1]}) →
     _handle_CmpEQ result_size _expr expr arg0 arg1 w = (Ok (true_or_false expr), w2) ∧
     _handle_CmpNE result_size _expr expr arg0 arg1 w = (Ok (true_or_false expr), w2) ∧
     _handle_CmpLT result_size _expr expr arg0 arg1 w = (Ok (true_or_false expr), w2) ∧
     _handle_CmpORD result_size _expr expr arg0 arg1 w = (Ok (true_or_false expr), w2)).
Proof.
  intros H0 H1. split.
  - intros e0 e1 Hd0 Hd1.
    unfold _handle_CmpEQ, _handle_CmpNE, _handle_CmpLT, _handle_CmpORD.
    rewrite !(comparison_of_integers _ expr arg0 arg1 w d0 w1 d1 w2 e0 e1 H0 H1 Hd0 Hd1).
    repeat split. rewrite DataSet_init_ok; [done|].
    eapply non_empty_inhabited_L, elem_of_singleton. reflexivity.
  - intros Hno.
    unfold _handle_CmpEQ, _handle_CmpNE, _handle_CmpLT, _handle_CmpORD.
    by rewrite !(comparison_of_others _ expr arg0 arg1 w d0 w1 d1 w2 H0 H1 Hno).
Qed.

End Compare.

(** *** A block at work *)

(** Every expression is 64 bits wide. *)
Definition size64 (expr : VexExpr) : N := 64.
Definition const64 (v : Z) : DataSet.t := DataSet.mk {[VInt v]} 64.
Definition cmp_1_1 : VexExpr := VexBinop "Iop_CmpEQ64" (VexConst 1) (VexConst 1).

(** C7, as stated, fails: on the singletons [{1}] and [{1}], [CmpEQ]
    returns the bare [True], which is no DataSet. *)
Lemma CmpEQ_returns_bare_bool :
  _handle_CmpEQ size64 (_expr_atom size64) cmp_1_1 (VexConst 1) (VexConst 1) idle
    = (Ok (OBool true), idle) ∧
  ∀ d, OBool true ≠ ODataSet d.
Proof. split; [by_evaluation|discriminate]. Qed.

Lemma comparison_handlers_witness :
  (∀ e0 e1, DataSet.data (const64 1) = {[VInt e0]} →
            DataSet.data (const64 2) = {[VInt e1]} →
     _handle_CmpEQ size64 (_expr_atom size64) cmp_1_1 (VexConst 1) (VexConst 2) idle
       = (Ok (OBool (bool_decide (e0 = e1))), idle) ∧
     _handle_CmpNE size64 (_expr_atom size64) cmp_1_1 (VexConst 1) (VexConst 2) idle
       = (Ok (OBool (bool_decide (e0 ≠ e1))), idle) ∧
     _handle_CmpLT size64 (_expr_atom size64) cmp_1_1 (VexConst 1) (VexConst 2) idle
       = (Ok (OBool (bool_decide (e0 < e1))), idle) ∧
     _handle_CmpORD size64 (_expr_atom size64) cmp_1_1 (VexConst 1) (VexConst 2) idle
       = (Ok (ODataSet (DataSet.mk
                {[VInt (if decide (e0 < e1) then 0x08
                        else if decide (e0 > e1) then 0x04 else 0x02)]}
                (size64 cmp_1_1))), idle)) ∧
  ((¬ ∃ e0 e1, DataSet.data (const64 1) = {[VInt e0]} ∧
               DataSet.data (const64 2) = {[VInt e1]}) →
     _handle_CmpEQ size64 (_expr_atom size64) cmp_1_1 (VexConst 1) (VexConst 2) idle
       = (Ok (true_or_false size64 cmp_1_1), idle) ∧
     _handle_CmpNE size64 (_expr_atom size64) cmp_1_1 (VexConst 1) (VexConst 2) idle
       = (Ok (true_or_false size64 cmp_1_1), idle) ∧
     _handle_CmpLT size64 (_expr_atom size64) cmp_1_1 (VexConst 1) (VexConst 2) idle
       = (Ok (true_or_false size64 cmp_1_1), idle) ∧
     _handle_CmpORD size64 (_expr_atom size64) cmp_1_1 (VexConst 1) (VexConst 2) idle
       = (Ok (true_or_false size64 cmp_1_1), idle)).
Proof.
  apply (comparison_handlers size64 (_expr_atom size64) cmp_1_1
           (VexConst 1) (VexConst 2) idle (const64 1) idle (const64 2) idle).
  - by_evaluation.
  - by_evaluation.
Defined.

End CompareFacts.

(** ** [_handle_Store] through a multi-valued address *)

Module StoreFacts.
Import ReachingDefinitions VEX.





Section Store.
Variable result_size : VexExpr → N.
Variable _expr : VexExpr → M (Heap * Engine) PyObj.



End Store.

(** *** [STle(t1) = 0x55] with [t1 = {0x4000, 0x4008}] *)



End StoreFacts.

(** ** Killing registers, and the AIL handlers that kill or define them *)

Module KillFacts.
Import ReachingDefinitions AIL.

Lemma get_current_uses_ok u d o sz :
  Def.atom d = Register o sz → ∃ x, Uses.get_current_uses u d = Ok x.
Proof.
  intros Ha. unfold Uses.get_current_uses, Def.offset, Def.size. rewrite Ha.
  simpl. eauto.
Qed.

Lemma _current_uses_of_ok u l :
  (∀ d, d ∈ l → ∃ o sz, Def.atom d = Register o sz) →
  ∀ acc, ∃ x, _current_uses_of u l acc = Ok x.
Proof.
  induction l as [|d l IH]; intros Hl acc; simpl; [eauto|].
  destruct (Hl d) as (o & sz & Ha); [left|].
  destruct (get_current_uses_ok u d o sz Ha) as [x ->]. simpl.
  apply IH. intros d' Hd'. apply Hl. by right.
Qed.

(** C2, amended: [kill_definitions(atom, code_loc, data)] on a [Register]
    atom, the operation by which the Call handler means to kill the
    instruction pointer, the caller-saved registers and the cc
    pseudo-registers, overwrites rather than empties: the register
    definitions afterwards are the dummy definition [(atom, code_loc, data)]
    over the register's extent together with the prior entries that this
    extent does not fully cover.  So a lookup at the register's offset
    returns the dummy definition (it is not empty), the entries it covers
    are gone, and a definition of another register that is not covered is
    returned as before; memory definitions, temporaries and uses are
    unchanged. *)
Theorem kill_definitions_overwrites (h : Heap) (s : t) (reg_offset size : Z)
    (code_loc : CodeLocation) (data : DataSet.t) :
  (∀ d, d ∈ KeyedRegion.get_objects_by_offset (register_definitions s) reg_offset →
        ∃ o sz, Def.atom d = Register o sz) →
  let dummy := Def.mk (Register reg_offset size) code_loc data in
  ∃ s',
    kill_definitions (Register reg_offset size) code_loc (ODataSet data) (h, s)
      = (Ok tt, (h, s')) ∧
    (∀ e, e ∈ register_definitions s' ↔
          e = (reg_offset, size, dummy) ∨
          (e ∈ register_definitions s ∧ ¬ KeyedRegion.covered reg_offset size e)) ∧
    (0 < size →
       dummy ∈ KeyedRegion.get_objects_by_offset (register_definitions s') reg_offset) ∧
    (∀ o sz d x, (o, sz, d) ∈ register_definitions s →
       ¬ KeyedRegion.covered reg_offset size (o, sz, d) → o ≤ x < o + sz →
       d ∈ KeyedRegion.get_objects_by_offset (register_definitions s') x) ∧
    memory_definitions s' = memory_definitions s ∧
    tmp_definitions s' = tmp_definitions s ∧
    register_uses s' = register_uses s ∧
    memory_uses s' = memory_uses s ∧
    tmp_uses s' = tmp_uses s.
Proof.
  intros Hatoms dummy.
  set (current_defs :=
         KeyedRegion.get_objects_by_offset (register_definitions s) reg_offset).
  assert (Hshape : ∃ dead,
    kill_definitions (Register reg_offset size) code_loc (ODataSet data) (h, s)
    = (Ok tt, (h, set_register_definitions
                    (KeyedRegion.set_object (register_definitions s) reg_offset
                       dummy size)
                    (set_dead_virgin_definitions dead s)))).
  { unfold kill_definitions, kill_and_add_definition,
      _kill_and_add_register_definition, bind, self_. fold current_defs.
    destruct (decide (current_defs = ∅)) as [Hnone|Hsome].
    - exists (_dead_virgin_definitions s). simpl. by destruct s.
    - destruct (_current_uses_of_ok (register_uses s) (elements current_defs))
        with (acc := (∅ : gset Def.t)) as [uses Huses].
      { intros d Hd. apply Hatoms. by apply elem_of_elements. }
      unfold lift_exc. rewrite Huses.
      destruct (decide (uses = ∅)).
      + exists (_dead_virgin_definitions s ∪ current_defs). reflexivity.
      + exists (_dead_virgin_definitions s). simpl. by destruct s. }
  destruct Hshape as [dead Hrun]. eexists. split; [exact Hrun|]. simpl.
  split; [|split; [|split]]; [| | |done].
  - intros e. apply KeyedRegionFacts.elem_of_set_object.
  - intros Hsize. apply KeyedRegionFacts.elem_of_get_objects_by_offset.
    exists reg_offset, size. split; [|lia].
    apply KeyedRegionFacts.elem_of_set_object. by left.
  - intros o sz d x He Hc Hx. apply KeyedRegionFacts.elem_of_get_objects_by_offset.
    exists o, sz. split; [|done]. apply KeyedRegionFacts.elem_of_set_object. by right.
Qed.

(** *** A call with caller-saved [rax] and [rcx] *)

Definition amd64 : Arch :=
  mkArch 64 8 48 56 184
    {[ "rax" := (16, 8); "rcx" := (24, 8); "rbx" := (40, 8);
       "cc_op" := (144, 8); "cc_dep1" := (152, 8); "cc_dep2" := (160, 8);
       "cc_ndep" := (168, 8) ]}
    {[ 16 := "rax"; 24 := "rcx"; 40 := "rbx" ]}.

Definition L0 : CodeLocation := CodeLoc 0x400000 0 (Some 0x400000).
Definition at_call : CodeLocation := CodeLoc 0x400000 3 (Some 0x40000c).
Definition def_of (reg_offset value : Z) : Def.t :=
  Def.mk (Register reg_offset 8) L0 (DataSet.mk {[VInt value]} 64).

(** [rax], [rcx] and the callee-saved [rbx] hold concrete definitions. *)
Definition before_call : Heap * Engine :=
  (empty_heap,
   mkEngine
     (set_register_definitions
        {[ (16, 8, def_of 16 1); (24, 8, def_of 24 2); (40, 8, def_of 40 3) ]}
        (__init__ amd64 false false))
     ∅ 0x400000 3 (Some 0x40000c)).

Definition the_call : AilCall :=
  mkAilCall (AilConst 0x401000 64) (Some (mkSimCC ["rax"; "rcx"])) None.

Definition dummy64 : DataSet.t := DataSet.mk {[VUndefined]} 64.

(** C2, as stated, fails.  The handler passes two arguments to
    [kill_definitions], which takes three, and stops with a [TypeError] at
    the instruction pointer: [rax] still holds its definition.  And a kill
    that is given its [data] leaves the dummy definition at the offset, not
    an empty set. *)
Lemma call_leaves_rax_defined :
  _ail_handle_Call _expr_atom the_call before_call = (Raise TypeError, before_call) ∧
  KeyedRegion.get_objects_by_offset
    (register_definitions (state before_call.2)) 16 = {[def_of 16 1]} ∧
  ∃ s', kill_definitions (Register 16 8) at_call (ODataSet dummy64)
          (before_call.1, state before_call.2) = (Ok tt, (before_call.1, s')) ∧
        KeyedRegion.get_objects_by_offset (register_definitions s') 16
          = {[Def.mk (Register 16 8) at_call dummy64]} ∧
        KeyedRegion.get_objects_by_offset (register_definitions s') 16 ≠ ∅.
Proof.
  split; [by_evaluation|]. split; [by_evaluation|].
  exists (set_dead_virgin_definitions {[def_of 16 1]}
            (set_register_definitions
               {[ (16, 8, Def.mk (Register 16 8) at_call dummy64);
                  (24, 8, def_of 24 2); (40, 8, def_of 40 3) ]}
               (state before_call.2))).
  split; [by_evaluation|].
  assert (H : KeyedRegion.get_objects_by_offset
                (register_definitions
                   (set_dead_virgin_definitions {[def_of 16 1]}
                      (set_register_definitions
                         {[ (16, 8, Def.mk (Register 16 8) at_call dummy64);
                            (24, 8, def_of 24 2); (40, 8, def_of 40 3) ]}
                         (state before_call.2)))) 16
              = {[Def.mk (Register 16 8) at_call dummy64]}) by by_evaluation.
  split; [exact H|]. rewrite H.
  eapply non_empty_inhabited_L, elem_of_singleton. reflexivity.
Qed.

Lemma kill_definitions_overwrites_witness :
  let dummy := Def.mk (Register 16 8) at_call dummy64 in
  let s := state before_call.2 in
  ∃ s',
    kill_definitions (Register 16 8) at_call (ODataSet dummy64) (empty_heap, s)
      = (Ok tt, (empty_heap, s')) ∧
    (∀ e, e ∈ register_definitions s' ↔
          e = (16, 8, dummy) ∨
          (e ∈ register_definitions s ∧ ¬ KeyedRegion.covered 16 8 e)) ∧
    (0 < 8 → dummy ∈ KeyedRegion.get_objects_by_offset (register_definitions s') 16) ∧
    (∀ o sz d x, (o, sz, d) ∈ register_definitions s →
       ¬ KeyedRegion.covered 16 8 (o, sz, d) → o ≤ x < o + sz →
       d ∈ KeyedRegion.get_objects_by_offset (register_definitions s') x) ∧
    memory_definitions s' = memory_definitions s ∧
    tmp_definitions s' = tmp_definitions s ∧
    register_uses s' = register_uses s ∧
    memory_uses s' = memory_uses s ∧
    tmp_uses s' = tmp_uses s.
Proof.
  apply (kill_definitions_overwrites empty_heap (state before_call.2) 16 8
           at_call dummy64).
  assert (H : KeyedRegion.get_objects_by_offset
                (register_definitions (state before_call.2)) 16 = {[def_of 16 1]})
    by by_evaluation.
  rewrite H. intros d ->%elem_of_singleton. by exists 16, 8.
Defined.

(** C8 fails on the code.  For a register that is neither the stack nor the
    frame pointer and has no definition, [_ail_handle_Register] stops at
    [DataSet(set(), bits)], whose constructor asserts a non-empty set:
    nothing is installed and nothing is returned.  The definition it would
    install next is refused as well: [Definition] asserts that its data is a
    DataSet, and the handler passes the expression. *)
Lemma ail_register_stops_at_the_assertion :
  _ail_handle_Register 16 64 Scenario.idle
    = (Raise AssertionError, Scenario.idle) ∧
  register_definitions (state Scenario.idle.2) = ∅ ∧
  kill_and_add_definition (Register 16 8) ExternalCodeLocation
    (OAil (AilRegister 16 64))
    (Scenario.idle.1, state Scenario.idle.2)
    = (Raise AssertionError, (Scenario.idle.1, state Scenario.idle.2)).
Proof. split; [by_evaluation|]. split; [reflexivity|by_evaluation]. Qed.

Lemma add_use_without_definitions h s reg_offset size code_loc :
  KeyedRegion.get_objects_by_offset (register_definitions s) reg_offset = ∅ →
  add_use (Register reg_offset size) code_loc (h, s) = (Ok tt, (h, s)).
Proof.
  intros Hnone. unfold add_use, _add_register_use, bind, self_.
  by rewrite Hnone, elements_empty.
Qed.

(** The same for every state and every such register. *)
Lemma ail_register_raises h e reg_offset bits :
  reg_offset ≠ sp_offset (arch (state e)) →
  reg_offset ≠ bp_offset (arch (state e)) →
  KeyedRegion.get_objects_by_offset (register_definitions (state e)) reg_offset = ∅ →
  _ail_handle_Register reg_offset bits (h, e) = (Raise AssertionError, (h, e)).
Proof.
  intros Hsp Hbp Hnone.
  assert (He : set_state (state e) e = e) by (by destruct e).
  unfold _ail_handle_Register, _codeloc, on_state, bind, engine_, ret.
  rewrite (add_use_without_definitions _ _ _ _ _ Hnone), He.
  destruct (decide (reg_offset = sp_offset (arch (state e)))); [done|].
  destruct (decide (reg_offset = bp_offset (arch (state e)))); [done|].
  reflexivity.
Qed.

End KillFacts.

(** ** Termination of the driver under the iteration cap *)

Module DriverFacts.
Import ReachingDefinitions ReachingDefinitionAnalysis ForwardAnalysis.

(** The analysis after one more iteration of [node] was counted. *)
Definition bump (a : ReachingDefinitionAnalysis.t) (node : Z)
    : ReachingDefinitionAnalysis.t :=
  ReachingDefinitionAnalysis.mk (_max_iterations a)
    (<[node := iterations a node + 1]> (_node_iterations a)).

Lemma iterations_bump a node n :
  iterations (bump a node) n =
  if decide (n = node) then iterations a node + 1 else iterations a n.
Proof.
  unfold iterations, bump. simpl. destruct (decide (n = node)) as [->|Hne].
  - by rewrite lookup_insert_eq.
  - by rewrite lookup_insert_ne.
Qed.

(** [_run_on_node] counts the visit and reports the node as revisitable
    exactly while its counter is below [max_iterations]. *)
Lemma _run_on_node_spec process node state h a :
  _run_on_node process node state (h, a) =
  match process node (copy state) h with
  | (Raise e, h') => (Raise e, (h', a))
  | (Ok out, h') =>
      (Ok (bool_decide (iterations a node + 1 < _max_iterations a), out),
       (h', bump a node))
  end.
Proof.
  unfold _run_on_node. destruct (process node (copy state) h) as [[out|e] h']; [|done].
  fold (bump a node). rewrite iterations_bump. simpl.
  destruct (decide (node = node)) as [_|]; [|done].
  by destruct (decide _); [rewrite bool_decide_eq_true_2|rewrite bool_decide_eq_false_2].
Qed.

(** The number of calls of [_run_on_node] on [n] in a trace. *)
Definition calls (n : Z) (trace : list Z) : nat :=
  length (filter (λ x, x = n) trace).

Lemma calls_cons n node trace :
  calls n (node :: trace) = if decide (node = n) then S (calls n trace) else calls n trace.
Proof. unfold calls. rewrite filter_cons. by destruct (decide (node = n)). Qed.

Lemma calls_app n l1 l2 : calls n (l1 ++ l2) = (calls n l1 + calls n l2)%nat.
Proof. unfold calls. by rewrite filter_app, length_app. Qed.

Lemma calls_not_elem n l : n ∉ l → calls n l = 0%nat.
Proof.
  induction l as [|x l IH]; [done|]. intros [Hne Hnin]%not_elem_of_cons.
  rewrite calls_cons, decide_False by done. by apply IH.
Qed.

Lemma calls_NoDup n l : NoDup l → (calls n l ≤ 1)%nat.
Proof.
  induction 1 as [|x l Hx Hnd IH]; [unfold calls; simpl; lia|].
  rewrite calls_cons. destruct (decide (x = n)) as [->|_]; [|done].
  rewrite calls_not_elem by done. lia.
Qed.

(** The visits of the block [n] that will still report a change under the
    cap [m]: [_run_on_node] reports one while the counter, the visit
    included, is below [m]. *)
Definition changes_left (m : Z) (a : ReachingDefinitionAnalysis.t) (n : Z) : nat :=
  Z.to_nat (m - 1 - iterations a n).

(** The changes that the blocks [B] will still report, each counted
    [weight] times. *)
Definition potential (weight : Z → nat) (m : Z) (a : ReachingDefinitionAnalysis.t)
    (B : list Z) : nat :=
  sum_list_with (λ p, changes_left m a p * weight p)%nat B.

Lemma potential_bump_other weight m a node B :
  node ∉ B → potential weight m (bump a node) B = potential weight m a B.
Proof.
  induction B as [|x B IH]; [done|]. intros [Hne Hnin]%not_elem_of_cons.
  unfold potential, changes_left in *. simpl. rewrite IH by done.
  by rewrite iterations_bump, decide_False.
Qed.

Lemma potential_bump_changed weight m a node B :
  NoDup B → node ∈ B → iterations a node + 1 < m →
  (potential weight m (bump a node) B + weight node)%nat = potential weight m a B.
Proof.
  induction B as [|x B IH]; intros Hnd Hin Hlt; [by apply elem_of_nil in Hin|].
  apply NoDup_cons in Hnd as [Hx Hnd].
  destruct (decide (x = node)) as [->|Hne].
  - unfold potential. simpl. fold (potential weight m (bump a node) B).
    fold (potential weight m a B). rewrite potential_bump_other by done.
    unfold changes_left. rewrite iterations_bump, decide_True by done.
    replace (Z.to_nat (m - 1 - iterations a node))
      with (S (Z.to_nat (m - 1 - (iterations a node + 1)))) by lia.
    lia.
  - apply elem_of_cons in Hin as [->|Hin]; [done|].
    unfold potential in *. simpl. rewrite <- IH by done.
    unfold changes_left. rewrite iterations_bump, decide_False by done. lia.
Qed.

Lemma potential_bump_unchanged weight m a node B :
  ¬ iterations a node + 1 < m →
  potential weight m (bump a node) B = potential weight m a B.
Proof.
  intros Hcap. induction B as [|x B IH]; [done|].
  unfold potential in *. simpl. rewrite IH. f_equal.
  unfold changes_left. rewrite iterations_bump.
  destruct (decide (x = node)) as [->|_]; [|done].
  replace (Z.to_nat (m - 1 - (iterations a node + 1))) with 0%nat by lia.
  by replace (Z.to_nat (m - 1 - iterations a node)) with 0%nat by lia.
Qed.

Lemma potential_start weight m B :
  potential weight m (ReachingDefinitionAnalysis.mk m ∅) B
  = (Z.to_nat (m - 1) * sum_list_with weight B)%nat.
Proof.
  induction B as [|x B IH]; simpl; [lia|].
  unfold potential in *. simpl. rewrite IH. unfold changes_left, iterations.
  simpl. rewrite lookup_empty. simpl. replace (m - 1 - 0) with (m - 1) by lia.
  lia.
Qed.

Section Graph.
Variable successors : Z → list Z.

(** The number of blocks that a change of [p] marks dirty at most, and
    whether [n] is one of them. *)
Definition out_degree (p : Z) : nat := length (remove_dups (successors p)).
Definition edge_to (n p : Z) : nat := if decide (n ∈ successors p) then 1 else 0.

(** The edges of the graph on the blocks [B], and those that lead to
    [n]. *)
Definition edges (B : list Z) : nat := sum_list_with out_degree B.
Definition in_degree (B : list Z) (n : Z) : nat := sum_list_with (edge_to n) B.

Lemma newly_dirty_length rest node :
  (length (newly_dirty successors rest node) ≤ out_degree node)%nat.
Proof. apply length_filter. Qed.

Lemma newly_dirty_calls n rest node :
  (calls n (newly_dirty successors rest node) ≤ edge_to n node)%nat.
Proof.
  unfold edge_to. destruct (decide (n ∈ successors node)) as [|Hn].
  - apply calls_NoDup, NoDup_filter, NoDup_remove_dups.
  - rewrite calls_not_elem; [lia|].
    intros [_ Hs]%list_elem_of_filter. by rewrite elem_of_remove_dups in Hs.
Qed.

Lemma newly_dirty_successors rest node s :
  s ∈ newly_dirty successors rest node → s ∈ successors node.
Proof. intros [_ Hs]%list_elem_of_filter. by rewrite elem_of_remove_dups in Hs. Qed.

End Graph.

Section Termination.
Variable process : Z → ReachingDefinitions.t → M Heap ReachingDefinitions.t.
Variable successors predecessors : Z → list Z.
Variable initial_state : ReachingDefinitions.t.
(** The blocks of the function and the configured cap. *)
Variable B : list Z.
Variable m : Z.
Hypothesis B_NoDup : NoDup B.
Hypothesis B_closed : ∀ n s, n ∈ B → s ∈ successors n → s ∈ B.

(** What the driver keeps true between two visits. *)
Definition invariant (d : Driver) : Prop :=
  _max_iterations (analysis d) = m ∧ ∀ n, n ∈ worklist d → n ∈ B.

(** The visits that are still to come at most: a visit for each dirty
    block, and one for each block that a change still to come marks
    dirty. *)
Definition visits_left (d : Driver) : nat :=
  (length (worklist d) + potential (out_degree successors) m (analysis d) B)%nat.

(** The same for the visits of the block [n]. *)
Definition visits_left_of (n : Z) (d : Driver) : nat :=
  (calls n (worklist d) + potential (edge_to successors n) m (analysis d) B)%nat.

Lemma _analysis_core_terminates : ∀ fuel d,
  invariant d → (visits_left d < fuel)%nat →
  ∃ r d',
    _analysis_core process successors predecessors initial_state fuel d
      = Some (r, d') ∧
    (length (trace d') ≤ length (trace d) + visits_left d)%nat ∧
    (∀ n, (calls n (trace d') ≤ calls n (trace d) + visits_left_of n d)%nat) ∧
    (r = Ok tt → worklist d' = []).
Proof.
  induction fuel as [|fuel IH]; intros d [Hmax Hwl] Hfuel; [lia|].
  cbn [_analysis_core]. unfold visits_left, visits_left_of in *.
  destruct (worklist d) as [|node rest] eqn:Hw.
  { exists (Ok tt), d. split; [done|]. split; [lia|]. split; [intros n; lia|done]. }
  assert (HnodeB : node ∈ B) by (apply Hwl; left).
  cbn [length] in Hfuel.
  destruct (input_state predecessors initial_state d node (heap d))
    as [[state|e] h] eqn:Hin.
  2:{ eexists _, _. split; [reflexivity|]. simpl. split; [lia|].
      split; [intros n; lia|done]. }
  rewrite _run_on_node_spec.
  destruct (process node (copy state) h) as [[out|e] h'] eqn:Hp.
  2:{ eexists _, _. split; [reflexivity|]. simpl. split; [lia|].
      split; [|done]. intros n. rewrite !calls_cons.
      destruct (decide (node = n)); lia. }
  set (changed := bool_decide (iterations (analysis d) node + 1
                               < _max_iterations (analysis d))).
  set (d1 := mkDriver (bump (analysis d) node) h' (<[node := out]> (out_states d))
               (if changed then rest ++ newly_dirty successors rest node else rest)
               (node :: trace d)).
  assert (Hinv1 : invariant d1).
  { split; [done|]. simpl. intros n Hn. destruct changed.
    - apply elem_of_app in Hn as [Hn|Hn]; [apply Hwl; by right|].
      apply (B_closed node); [done|]. by apply newly_dirty_successors in Hn.
    - apply Hwl. by right. }
  assert (Hstep : ∀ weight (count : list Z → nat),
            (∀ l1 l2, count (l1 ++ l2) = count l1 + count l2)%nat →
            (count (newly_dirty successors rest node) ≤ weight node)%nat →
            (count (worklist d1) + potential weight m (analysis d1) B
             ≤ count rest + potential weight m (analysis d) B)%nat).
  { intros weight count Happ Hnew. simpl. unfold changed.
    destruct (bool_decide_reflect (iterations (analysis d) node + 1
                                   < _max_iterations (analysis d))) as [Hlt|Hcap].
    - rewrite Happ.
      rewrite <- (potential_bump_changed weight m (analysis d) node B) by
        (done || lia). lia.
    - rewrite potential_bump_unchanged by lia. lia. }
  pose proof (Hstep (out_degree successors) length (@length_app Z)
                (newly_dirty_length successors rest node)) as Hall.
  destruct (IH d1 Hinv1) as (r & d' & Hrun & Hlen & Hcalls & Hend).
  { unfold visits_left. lia. }
  exists r, d'. split; [exact Hrun|]. split; [|split; [|done]].
  - unfold visits_left in Hlen. simpl in Hlen |- *. simpl in Hall. lia.
  - intros n. specialize (Hcalls n).
    pose proof (Hstep (edge_to successors n) (calls n) (calls_app n)
                  (newly_dirty_calls successors n rest node)) as Hn.
    change (trace d1) with (node :: trace d) in Hcalls.
    rewrite calls_cons in Hcalls. rewrite calls_cons.
    destruct (decide (node = n)); lia.
Qed.

End Termination.

(** The driver at the start of an analysis with cap [m]: no block was
    visited, the blocks [dirty] are to be visited. *)
Definition start (m : Z) (h : Heap) (dirty : list Z) : Driver :=
  mkDriver (ReachingDefinitionAnalysis.mk m ∅) h ∅ dirty [].

(** C6, amended: the driver returns, with no block left dirty unless the
    engine raised, and the cap bounds the changes, not the visits.  A call
    of [_run_on_node] that returns counts the visit and reports the block
    as revisitable exactly when its counter is still below [m], so no
    longer once the counter has reached [m]: a block reports at most
    [m - 1] changes, each of which marks its successors dirty.  So the
    driver calls [_run_on_node] at most [|D| + (m - 1) × |E|] times, for
    the blocks [D] dirty at the start and the edges [E] of the graph, and
    at most [1 + (m - 1) × p] times on a block with [p] predecessors. *)
Theorem driver_visits_bounded
    (process : Z → ReachingDefinitions.t → M Heap ReachingDefinitions.t)
    (successors predecessors : Z → list Z)
    (initial_state : ReachingDefinitions.t)
    (B : list Z) (m : Z) (h : Heap) (dirty : list Z) :
  NoDup B → (∀ n s, n ∈ B → s ∈ successors n → s ∈ B) →
  NoDup dirty → (∀ n, n ∈ dirty → n ∈ B) →
  let changes := Z.to_nat (m - 1) in
  let bound := (length dirty + changes * edges successors B)%nat in
  (∃ r d',
     _analysis_core process successors predecessors initial_state
       (S bound) (start m h dirty) = Some (r, d') ∧
     (length (trace d') ≤ bound)%nat ∧
     (∀ n, (calls n (trace d') ≤ 1 + changes * in_degree successors B n)%nat) ∧
     (r = Ok tt → worklist d' = [])) ∧
  (∀ node state h0 a out h',
     process node (copy state) h0 = (Ok out, h') →
     ∃ a', _run_on_node process node state (h0, a)
             = (Ok (bool_decide (iterations a' node < _max_iterations a), out),
                (h', a')) ∧
           iterations a' node = iterations a node + 1 ∧
           _max_iterations a' = _max_iterations a).
Proof.
  intros HB Hclosed Hdirty HdirtyB changes bound. split.
  - destruct (_analysis_core_terminates process successors predecessors
                initial_state B m HB Hclosed (S bound)
                (start m h dirty)) as (r & d' & Hrun & Hlen & Hcalls & Hend).
    + by split.
    + unfold visits_left. simpl. rewrite potential_start. unfold bound, edges. lia.
    + exists r, d'. split; [exact Hrun|].
      unfold visits_left in Hlen. simpl in Hlen. rewrite potential_start in Hlen.
      split; [unfold bound, edges; lia|]. split; [|done].
      intros n. specialize (Hcalls n). unfold visits_left_of in Hcalls.
      simpl in Hcalls. rewrite potential_start in Hcalls.
      pose proof (calls_NoDup n dirty Hdirty). unfold in_degree. unfold calls in *.
      simpl in Hcalls. lia.
  - intros node state h0 a out h' Hp. exists (bump a node).
    rewrite _run_on_node_spec, Hp. rewrite iterations_bump.
    destruct (decide (node = node)); [|done]. by split.
Qed.

(** *** Loops *)

Definition keep_state (node : Z) (state : ReachingDefinitions.t)
    : M Heap ReachingDefinitions.t := ret state.
Definition no_edges (n : Z) : list Z := [].

(** Two blocks that jump to each other. *)
Definition loop_successors (n : Z) : list Z :=
  if decide (n = 0x400000) then [0x400010]
  else if decide (n = 0x400010) then [0x400000] else [].
Definition loop_blocks : list Z := [0x400000; 0x400010].

(** Three nested loops with one head: the blocks 0x400000, 0x400010,
    0x400020 and 0x400030 follow each other, every block but the first
    jumps back to the head, and the last one to the second as well. *)
Definition nested_successors (n : Z) : list Z :=
  if decide (n = 0x400000) then [0x400010]
  else if decide (n = 0x400010) then [0x400000; 0x400020]
  else if decide (n = 0x400020) then [0x400000; 0x400030]
  else if decide (n = 0x400030) then [0x400000; 0x400010]
  else [].
Definition nested_predecessors (n : Z) : list Z :=
  if decide (n = 0x400000) then [0x400010; 0x400020; 0x400030]
  else if decide (n = 0x400010) then [0x400000; 0x400030]
  else if decide (n = 0x400020) then [0x400010]
  else if decide (n = 0x400030) then [0x400020]
  else [].
Definition nested_blocks : list Z := [0x400000; 0x400010; 0x400020; 0x400030].

(** The blocks in the order in which the driver visits them, latest
    first. *)
Definition nested_trace : list Z :=
  [0x400010; 0x400000; 0x400030; 0x400010; 0x400000; 0x400020;
   0x400030; 0x400000; 0x400010; 0x400020; 0x400000; 0x400010; 0x400000].

(** C6, as stated, fails on the nested loops with the default cap of 3,
    when the analysis starts from the head: the driver calls
    [_run_on_node] 13 times, which is more than [3 × 4], and 5 times on
    the head, which is more than 3.  A block that has reached the cap
    reports no change, but is visited again whenever one of its
    predecessors reports one. *)
Lemma visits_exceed_the_cap :
  (λ x, (x.1, trace x.2)) <$>
    _analysis_core keep_state nested_successors nested_predecessors Scenario.blank
      14 (start 3 empty_heap [0x400000])
  = Some (Ok tt, nested_trace) ∧
  ¬ (length nested_trace ≤ Z.to_nat 3 * length nested_blocks)%nat ∧
  ¬ (Z.of_nat (calls 0x400000 nested_trace) ≤ 3).
Proof.
  split; [by_evaluation|]. split; [simpl; lia|].
  assert (calls 0x400000 nested_trace = 5%nat) as -> by reflexivity. lia.
Qed.

(** The counter is compared after the visit: with a cap of 0 the one block
    of a graph is still visited once. *)
Lemma cap_of_zero_still_visits :
  (λ x, trace x.2) <$>
    _analysis_core keep_state no_edges no_edges Scenario.blank 1 (start 0 empty_heap [0x400000])
    = Some [0x400000].
Proof. by_evaluation. Qed.

Lemma driver_visits_bounded_witness :
  (∃ r d',
     _analysis_core keep_state loop_successors loop_successors Scenario.blank
       (S (length loop_blocks
           + Z.to_nat (3 - 1) * edges loop_successors loop_blocks))
       (start 3 empty_heap loop_blocks) = Some (r, d') ∧
     (length (trace d')
      ≤ length loop_blocks
        + Z.to_nat (3 - 1) * edges loop_successors loop_blocks)%nat ∧
     (∀ n, (calls n (trace d')
            ≤ 1 + Z.to_nat (3 - 1)
                  * in_degree loop_successors loop_blocks n)%nat) ∧
     (r = Ok tt → worklist d' = [])) ∧
  (∀ node state h0 a out h',
     keep_state node (copy state) h0 = (Ok out, h') →
     ∃ a', _run_on_node keep_state node state (h0, a)
             = (Ok (bool_decide (iterations a' node < _max_iterations a), out),
                (h', a')) ∧
           iterations a' node = iterations a node + 1 ∧
           _max_iterations a' = _max_iterations a).
Proof.
  apply (driver_visits_bounded keep_state loop_successors loop_successors Scenario.blank
           loop_blocks 3 empty_heap loop_blocks).
  - apply NoDup_cons. split; [|apply NoDup_singleton].
    intros [=]%list_elem_of_singleton.
  - intros n s _. unfold loop_successors.
    destruct (decide (n = 0x400000)); [intros ->%list_elem_of_singleton; by right; left|].
    destruct (decide (n = 0x400010)); [intros ->%list_elem_of_singleton; by left|].
    intros []%elem_of_nil.
  - apply NoDup_cons. split; [|apply NoDup_singleton].
    intros [=]%list_elem_of_singleton.
  - done.
Defined.

End DriverFacts.

(** ** Laws of the DataSet operators *)

Module DataSetLaws.
Import DataSet DataSetFacts.

(** [(1 << bits) - 1] keeps the [bits] low bits. *)
Lemma land_mask z (x : t) : Z.land z (_mask x) = z mod 2 ^ Z.of_N (_bits x).
Proof.
  unfold _mask. rewrite Z.shiftl_1_l.
  replace (2 ^ Z.of_N (_bits x) - 1) with (Z.ones (Z.of_N (_bits x)))
    by (rewrite Z.ones_equiv; lia).
  apply Z.land_ones. lia.
Qed.

Lemma land_mask_range z (x : t) : 0 ≤ Z.land z (_mask x) < 2 ^ Z.of_N (_bits x).
Proof. rewrite land_mask. apply Z.mod_pos_bound. lia. Qed.

(** The integers of a result set lie within the width [bits]. *)
Definition within (bits : N) (res : gset Value) : Prop :=
  ∀ z, VInt z ∈ res → 0 ≤ z < 2 ^ Z.of_N bits.

Lemma _bin_op_body_within op (x : t) o s res res' :
  _bin_op_body op (_mask x) o s res = Ok res' →
  within (_bits x) res → within (_bits x) res'.
Proof.
  unfold _bin_op_body. intros Hrun Hres z.
  destruct (decide (o = VUndefined ∨ s = VUndefined)).
  { injection Hrun as <-. intros [[=]%elem_of_singleton|?]%elem_of_union. auto. }
  destruct (op s o) as [[tmp| | | |]|[]]; try done; injection Hrun as <-;
    intros [Hz%elem_of_singleton|?]%elem_of_union; auto; try done.
  injection Hz as ->. apply land_mask_range.
Qed.

Lemma _bin_op_inner_within op (x : t) o ss : ∀ res res',
  _bin_op_inner op (_mask x) o ss res = Ok res' →
  within (_bits x) res → within (_bits x) res'.
Proof.
  induction ss as [|s ss IH]; simpl; intros res res'.
  - by intros [= <-].
  - destruct (_bin_op_body op (_mask x) o s res) as [r|] eqn:Hb; [|done].
    simpl. intros Hrun Hres. eapply IH; [exact Hrun|].
    eapply _bin_op_body_within; eauto.
Qed.

Lemma _bin_op_outer_within op (x : t) ss os : ∀ res res',
  _bin_op_outer op (_mask x) os ss res = Ok res' →
  within (_bits x) res → within (_bits x) res'.
Proof.
  induction os as [|o os IH]; simpl; intros res res'.
  - by intros [= <-].
  - destruct (_bin_op_inner op (_mask x) o ss res) as [r|] eqn:Hb; [|done].
    simpl. intros Hrun Hres. eapply IH; [exact Hrun|].
    eapply _bin_op_inner_within; eauto.
Qed.

(** X1: whatever the operator, a result that [_bin_op] returns has the
    width of the receiver, is not empty, and each of its integers is
    reduced to that width: it lies in [[0, 2 ^ bits)]. *)
Theorem bin_op_masked (x y : t) (op : Value → Value → Exc Value) (r : t) :
  _bin_op x y op = Ok r →
  _bits r = _bits x ∧ data r ≠ ∅ ∧
  ∀ z, VInt z ∈ data r → 0 ≤ z < 2 ^ Z.of_N (_bits x).
Proof.
  unfold _bin_op.
  destruct (_bin_op_outer op (_mask x) (elements (data y)) (elements (data x)) ∅)
    as [res|] eqn:Hres; [|done].
  simpl. unfold __init__. destruct (decide (res = ∅)); [done|].
  destruct (decide (Z.of_N (_bits x) < 0)); [done|]. intros [= <-]. simpl.
  split; [apply N2Z.id|]. split; [done|].
  eapply _bin_op_outer_within; [exact Hres|]. intros z Hz. set_solver.
Qed.

Lemma bin_op_masked_witness :
  _bits (mk {[VInt 0; VInt 1]} 8) = _bits one_two8 ∧
  data (mk {[VInt 0; VInt 1]} 8) ≠ ∅ ∧
  ∀ z, VInt z ∈ data (mk {[VInt 0; VInt 1]} 8) →
       0 ≤ z < 2 ^ Z.of_N (_bits one_two8).
Proof.
  apply (bin_op_masked one_two8 (mk {[VInt 255]} 8)
           (operator (interp := Scenario.cpython) no_offset_op add)).
  by_evaluation.
Defined.

(** A set with a member is not empty. *)
Lemma data_inhabited (x : t) v : v ∈ data x → data x ≠ ∅.
Proof. intros Hv. by apply (non_empty_inhabited_L v). Qed.

(** X2: [Undefined] absorbs.  When one operand holds nothing but
    [Undefined] and the other is not empty, the result of [_bin_op] is the
    DataSet of [Undefined] alone at the receiver's width, whatever the
    operator, which is not called. *)
Theorem bin_op_undefined (x y : t) (op : Value → Value → Exc Value) :
  data x ≠ ∅ → data y ≠ ∅ →
  data x = {[VUndefined]} ∨ data y = {[VUndefined]} →
  _bin_op x y op = Ok (mk {[VUndefined]} (_bits x)).
Proof.
  intros Hx Hy Hu.
  assert (Hpair : ∀ o s, o ∈ data y → s ∈ data x → o = VUndefined ∨ s = VUndefined).
  { intros o s Ho Hs. destruct Hu as [Hu|Hu]; rewrite Hu in *;
      [right|left]; set_solver. }
  destruct (_bin_op_ok x y op Hx Hy) as (r & -> & Hb & Hm).
  { intros o s Ho Hs (Hou & Hsu & _). destruct (Hpair o s Ho Hs); done. }
  f_equal. destruct r as [d b]. simpl in *. subst b. f_equal.
  apply set_eq. intros v. rewrite Hm, elem_of_singleton. split.
  - intros (o & s & Ho & Hs & ->). unfold member.
    destruct (decide (o = VUndefined ∨ s = VUndefined)) as [|Hn]; [done|].
    destruct Hn. by apply Hpair.
  - intros ->. apply set_choose_L in Hx as [s Hs].
    apply set_choose_L in Hy as [o Ho]. exists o, s. repeat split; try done.
    unfold member. destruct (decide (o = VUndefined ∨ s = VUndefined)) as [|Hn];
      [done|]. destruct Hn. by apply Hpair.
Qed.

Lemma bin_op_undefined_witness :
  _bin_op one_two8 (mk {[VUndefined]} 64)
    (operator (interp := Scenario.cpython) no_offset_op lshift)
  = Ok (mk {[VUndefined]} (_bits one_two8)).
Proof.
  apply (bin_op_undefined one_two8 (mk {[VUndefined]} 64)
           (operator (interp := Scenario.cpython) no_offset_op lshift)).
  - apply (data_inhabited one_two8 (VInt 1)). unfold one_two8. simpl. set_solver.
  - apply (data_inhabited (mk {[VUndefined]} 64) VUndefined). simpl. set_solver.
  - right. reflexivity.
Defined.

(** The values whose operators the sources define: integers, [Undefined]
    and [Parameter]. *)
Definition plain (v : Value) : Prop :=
  match v with
  | VInt _ | VUndefined | VParameter _ => True
  | _ => False
  end.

Lemma operator_plain_no_escape {interp : Interpreter} offset_op b o s :
  b ∈ [add; and_; xor; or_] → plain o → plain s →
  ¬ escapes (operator offset_op b) o s.
Proof.
  intros Hb Ho Hs (_ & _ & e & He & Hne). apply Hne.
  destruct o, s; simpl in *; try done; try congruence.
  destruct (int_op b z0 z) eqn:Hz; [done|].
  apply int_op_raises in Hz as ([->| ->] & _); set_solver.
Qed.

Lemma member_commutes {interp : Interpreter} offset_op b mask o s :
  b ∈ [add; and_; xor; or_] → plain o → plain s →
  member (operator offset_op b) mask o s = member (operator offset_op b) mask s o.
Proof.
  intros Hb Ho Hs. unfold member.
  destruct (decide (o = VUndefined ∨ s = VUndefined)) as [Hd|Hd];
    destruct (decide (s = VUndefined ∨ o = VUndefined)) as [Hd'|Hd'];
    try done; try tauto.
  destruct o, s; simpl in *; try done; try tauto.
  assert (int_op b z0 z = int_op b z z0) as ->; [|done].
  repeat (apply elem_of_cons in Hb as [->|Hb]); simpl;
    [by rewrite Z.add_comm|by rewrite Z.land_comm|by rewrite Z.lxor_comm
    |by rewrite Z.lor_comm|by apply elem_of_nil in Hb].
Qed.

Lemma method_is_bin_op {interp : Interpreter} offset_op b x y :
  method offset_op b x y = _bin_op x y (operator offset_op b).
Proof. by destruct b. Qed.

(** X3: [+], [&], [^] and [|] on DataSets commute when the two operands
    have the same width and hold integers, [Undefined] and [Parameter]s
    only.  (The width and the mask of a result are the receiver's.) *)
Theorem bin_op_commutes {interp : Interpreter} offset_op (b : binop) (x y : t) :
  b ∈ [add; and_; xor; or_] →
  data x ≠ ∅ → data y ≠ ∅ → _bits x = _bits y →
  (∀ v, v ∈ data x ∪ data y → plain v) →
  method offset_op b x y = method offset_op b y x.
Proof.
  intros Hb Hx Hy Hbits Hplain. rewrite !method_is_bin_op.
  destruct (_bin_op_ok x y (operator offset_op b) Hx Hy) as (r & -> & Hrb & Hr).
  { intros o s Ho Hs. apply operator_plain_no_escape; [done|..];
      apply Hplain; set_solver. }
  destruct (_bin_op_ok y x (operator offset_op b) Hy Hx) as (r' & -> & Hrb' & Hr').
  { intros o s Ho Hs. apply operator_plain_no_escape; [done|..];
      apply Hplain; set_solver. }
  f_equal. destruct r as [d n], r' as [d' n']. simpl in *. subst n n'.
  rewrite Hbits. f_equal. apply set_eq. intros v. rewrite Hr, Hr'.
  assert (Hmask : _mask x = _mask y) by (unfold _mask; by rewrite Hbits).
  split; intros (o & s & Ho & Hs & ->); exists s, o; repeat split; try done;
    rewrite Hmask || rewrite <- Hmask; apply member_commutes; try done;
    apply Hplain; set_solver.
Qed.

Lemma bin_op_commutes_witness :
  method (interp := Scenario.cpython) no_offset_op xor one_two8 three_undef8
  = method (interp := Scenario.cpython) no_offset_op xor three_undef8 one_two8.
Proof.
  apply (bin_op_commutes no_offset_op xor one_two8 three_undef8).
  - set_solver.
  - apply (data_inhabited one_two8 (VInt 1)). unfold one_two8. simpl. set_solver.
  - apply (data_inhabited three_undef8 (VInt 3)). unfold three_undef8. simpl.
    set_solver.
  - reflexivity.
  - unfold one_two8, three_undef8. simpl. intros v Hv.
    repeat (apply elem_of_union in Hv as [Hv|Hv]);
      apply elem_of_singleton in Hv as ->; exact I.
Defined.

(** *** Negation *)

(** The member that [-x] holds for the member [s] of [x]. *)
Definition negated (mask : Z) (s : Value) : Value :=
  match s with
  | VInt z => VInt (Z.land (- z) mask)
  | _ => VUndefined
  end.

Lemma _un_op_loop_neg offset_neg mask ss : ∀ res,
  (∀ s, s ∈ ss → plain s) →
  _un_op_loop (neg offset_neg) mask ss res
  = Ok (list_to_set (negated mask <$> ss) ∪ res).
Proof.
  induction ss as [|s ss IH]; intros res Hss; simpl.
  - f_equal. set_solver.
  - assert (Hs : plain s) by (apply Hss; left).
    assert (Hb : _un_op_body (neg offset_neg) mask s res
                 = Ok ({[negated mask s]} ∪ res)).
    { unfold _un_op_body. destruct s; simpl in *; try done. }
    rewrite Hb. simpl. rewrite IH by (intros s' Hs'; apply Hss; by right).
    f_equal. set_solver.
Qed.

Lemma neg_plain offset_neg (x : t) :
  data x ≠ ∅ → (∀ s, s ∈ data x → plain s) →
  __neg__ offset_neg x = Ok (mk (set_map (negated (_mask x)) (data x)) (_bits x)).
Proof.
  intros Hx Hplain. unfold __neg__, _un_op.
  rewrite _un_op_loop_neg by (intros s Hs; apply Hplain; by apply elem_of_elements).
  simpl. rewrite union_empty_r_L. fold (set_map (D := gset Value) (negated (_mask x)) (data x)).
  unfold __init__. destruct (decide _) as [He|_].
  - exfalso. apply set_choose_L in Hx as [s Hs].
    eapply (not_elem_of_empty (C := gset Value)). rewrite <- He.
    apply elem_of_map. eauto.
  - destruct (decide (Z.of_N (_bits x) < 0)); [lia|]. by rewrite N2Z.id.
Qed.

Lemma negated_twice (x : t) z :
  0 ≤ z < 2 ^ Z.of_N (_bits x) →
  Z.land (- Z.land (- z) (_mask x)) (_mask x) = z.
Proof.
  intros Hz. rewrite !land_mask.
  rewrite <- (Z.sub_0_l ((- z) mod _)), Zminus_mod_idemp_r.
  replace (0 - - z) with z by lia. apply Z.mod_small. lia.
Qed.

Lemma negated_negated (x : t) s :
  s = VUndefined ∨ (∃ z, s = VInt z ∧ 0 ≤ z < 2 ^ Z.of_N (_bits x)) →
  negated (_mask x) (negated (_mask x) s) = s.
Proof.
  intros [->|(z & -> & Hz)]; simpl; [done|]. by rewrite negated_twice.
Qed.

(** X4: [-x] holds [Undefined] for an [Undefined] and [(-z) & mask] for an
    integer [z]; on a DataSet of [Undefined] and of integers within its
    width, negating twice gives the DataSet back. *)
Theorem neg_involutive offset_neg (x : t) :
  data x ≠ ∅ →
  (∀ s, s ∈ data x → s = VUndefined ∨ ∃ z, s = VInt z ∧ 0 ≤ z < 2 ^ Z.of_N (_bits x)) →
  __neg__ offset_neg x = Ok (mk (set_map (negated (_mask x)) (data x)) (_bits x)) ∧
  exc_bind (__neg__ offset_neg x) (__neg__ offset_neg) = Ok x.
Proof.
  intros Hx Hall.
  assert (Hplain : ∀ s, s ∈ data x → plain s).
  { intros s [->|(z & -> & _)]%Hall; exact I. }
  rewrite (neg_plain offset_neg x Hx Hplain). split; [done|]. simpl.
  set (y := mk (set_map (negated (_mask x)) (data x)) (_bits x)).
  rewrite (neg_plain offset_neg y).
  - f_equal.
    assert (Hd : set_map (negated (_mask y)) (data y) = data x).
    { change (_mask y) with (_mask x). unfold y. cbn [data].
      apply set_eq. intros v. rewrite elem_of_map. setoid_rewrite elem_of_map.
      split.
      - intros (s' & -> & s & -> & Hs).
        by rewrite (negated_negated x s (Hall s Hs)).
      - intros Hv. exists (negated (_mask x) v).
        rewrite (negated_negated x v (Hall v Hv)). eauto. }
    rewrite Hd. unfold y. simpl. by destruct x.
  - unfold y. simpl. apply set_choose_L in Hx as [s Hs].
    apply (non_empty_inhabited_L (negated (_mask x) s)). apply elem_of_map. eauto.
  - unfold y. simpl. intros s (s' & -> & Hs')%elem_of_map.
    by destruct s'.
Qed.

Definition zero_five_undef8 : t := mk {[VInt 0; VInt 5; VUndefined]} 8.

Lemma neg_involutive_witness :
  __neg__ (λ _, Raise TypeError) zero_five_undef8
  = Ok (mk (set_map (negated (_mask zero_five_undef8)) (data zero_five_undef8))
          (_bits zero_five_undef8)) ∧
  exc_bind (__neg__ (λ _, Raise TypeError) zero_five_undef8)
    (__neg__ (λ _, Raise TypeError)) = Ok zero_five_undef8.
Proof.
  apply (neg_involutive (λ _, Raise TypeError) zero_five_undef8).
  - apply (data_inhabited zero_five_undef8 (VInt 0)).
    unfold zero_five_undef8. simpl. set_solver.
  - unfold zero_five_undef8. simpl. intros s Hs.
    repeat (apply elem_of_union in Hs as [Hs|Hs]);
      apply elem_of_singleton in Hs as ->;
      [right; exists 0; split; [done|lia]|right; exists 5; split; [done|lia]
      |by left].
Defined.

End DataSetLaws.

(** ** Recording uses *)

Module UsesLaws.
Import Uses.

(** The atoms that have an offset and a size. *)
Definition located (d : Def.t) : Prop :=
  match Def.atom d with
  | Register _ _ | MemoryLocation _ _ => True
  | _ => False
  end.

Lemma located_offset_size d :
  located d → ∃ o sz, Def.offset d = Ok o ∧ Def.size d = Ok sz.
Proof. unfold located, Def.offset, Def.size. destruct (Def.atom d); naive_solver. Qed.

Lemma not_located_offset d : ¬ located d → Def.offset d = Raise ValueError.
Proof. unfold located, Def.offset. destruct (Def.atom d); naive_solver. Qed.

(** What [add_use] does to the dictionary and to the heap, before it
    reads the offset of the definition. *)
Lemma add_use_uses h u d loc :
  ∃ h' dict,
    (∀ res h'' u', add_use d loc (h, u) = (res, (h'', u')) →
       h'' = h' ∧ _uses_by_definition u' = dict) ∧
    get_uses h' (mk dict (_current_uses u)) d = {[loc]} ∪ get_uses h u d ∧
    (∀ c d', get_uses h u d' ⊆ get_uses h' (mk dict c) d') ∧
    (∀ (v : t) d', _uses_by_definition v !! d = None → 
       (∀ k r, _uses_by_definition v !! k = Some r → r ∈ dom h) →
       _uses_by_definition u = _uses_by_definition v →
       get_uses h' v d' = get_uses h v d').
Proof.
  unfold add_use, bind, _uses_by_definition_getitem, modify, lift_exc, get_uses.
  destruct (_uses_by_definition u !! d) as [r|] eqn:Hd.
  - exists (<[r := {[loc]} ∪ deref h r]> h), (_uses_by_definition u).
    split; [|split; [|split]].
    + intros res h'' u'.
      destruct (Def.offset d), (Def.size d); simpl; intros [= _ <- <-]; done.
    + simpl. rewrite Hd. unfold deref. by rewrite lookup_insert_eq.
    + intros c d'. simpl. destruct (_uses_by_definition u !! d') as [r'|]; [|done].
      unfold deref. destruct (decide (r = r')) as [->|Hne].
      * rewrite lookup_insert_eq. simpl. set_solver.
      * by rewrite lookup_insert_ne.
    + intros v d' Hv _ Huv. rewrite <- Huv in Hv. congruence.
  - set (r := fresh (dom h)).
    assert (Hr : h !! r = None) by (apply not_elem_of_dom, is_fresh).
    exists (<[r := {[loc]} ∪ deref (<[r := ∅]> h) r]> (<[r := ∅]> h)),
           (<[d := r]> (_uses_by_definition u)).
    split; [|split; [|split]].
    + intros res h'' u'.
      destruct (Def.offset d), (Def.size d); simpl; intros [= _ <- <-]; done.
    + simpl. rewrite lookup_insert_eq. unfold deref. rewrite !lookup_insert_eq.
      simpl. done.
    + intros c d'. simpl. destruct (_uses_by_definition u !! d') as [r'|] eqn:Hd'; [|done].
      assert (d ≠ d') by congruence. rewrite lookup_insert_ne by done. rewrite Hd'.
      unfold deref. destruct (decide (r = r')) as [<-|Hne].
      * rewrite Hr. simpl. set_solver.
      * by rewrite !lookup_insert_ne.
    + intros v d' _ Hdom _. destruct (_uses_by_definition v !! d') as [r'|] eqn:Hd'; [|done].
      unfold deref. assert (r ≠ r').
      { intros <-. apply Hdom in Hd'. by apply not_elem_of_dom in Hr. }
      by rewrite !lookup_insert_ne.
Qed.

(** The outcome of [add_use], by the atom of the definition. *)
Lemma add_use_outcome h u d loc :
  ∃ h' dict,
    add_use d loc (h, u) =
      match Def.offset d, Def.size d with
      | Ok o, Ok sz =>
          (Ok tt, (h', mk dict (KeyedRegion.set_object (_current_uses u) o d sz)))
      | Raise e, _ | Ok _, Raise e => (Raise e, (h', mk dict (_current_uses u)))
      end.
Proof.
  destruct u as [dict0 cur].
  unfold add_use, bind, _uses_by_definition_getitem, modify, lift_exc. simpl.
  destruct (dict0 !! d) as [r|].
  - exists (<[r := {[loc]} ∪ deref h r]> h), dict0.
    destruct (Def.offset d), (Def.size d); reflexivity.
  - exists (<[fresh (dom h) := {[loc]} ∪ deref (<[fresh (dom h) := ∅]> h) (fresh (dom h))]>
              (<[fresh (dom h) := ∅]> h)),
           (<[d := fresh (dom h)]> dict0).
    destruct (Def.offset d), (Def.size d); reflexivity.
Qed.

(** [add_use] of a definition that has an offset and a size. *)
Lemma add_use_then_get_uses_lemma h u d loc :
  located d →
  ∃ h' u' o sz,
    add_use d loc (h, u) = (Ok tt, (h', u')) ∧
    get_uses h' u' d = {[loc]} ∪ get_uses h u d ∧
    (∀ d', get_uses h u d' ⊆ get_uses h' u' d') ∧
    Def.offset d = Ok o ∧ Def.size d = Ok sz ∧
    _current_uses u' = KeyedRegion.set_object (_current_uses u) o d sz.
Proof.
  intros (o & sz & Ho & Hsz)%located_offset_size.
  destruct (add_use_uses h u d loc) as (h' & dict & Hrun & Hd & Hmono & _).
  destruct (add_use_outcome h u d loc) as (h1 & dict1 & Hout).
  rewrite Ho, Hsz in Hout. destruct (Hrun _ _ _ Hout) as [-> Hdict].
  simpl in Hdict. subst dict1.
  eexists _, _, o, sz. split; [exact Hout|]. repeat split; try done; apply Hmono.
Qed.

(** X5: [add_use] of a definition of a register or of a memory location
    returns normally; [get_uses] of the definition then holds the code
    location besides what it held, no definition has lost a use, and the
    definition is installed in the region of current uses over the extent
    of its atom. *)
Theorem add_use_then_get_uses h u d loc :
  located d →
  ∃ h' u' o sz,
    add_use d loc (h, u) = (Ok tt, (h', u')) ∧
    get_uses h' u' d = {[loc]} ∪ get_uses h u d ∧
    (∀ d', get_uses h u d' ⊆ get_uses h' u' d') ∧
    Def.offset d = Ok o ∧ Def.size d = Ok sz ∧
    _current_uses u' = KeyedRegion.set_object (_current_uses u) o d sz.
Proof. apply add_use_then_get_uses_lemma. Qed.

(** A definition of the register at offset 16, and the heap and the uses
    after one use of it was recorded. *)
Definition d16 : Def.t :=
  Def.mk (Register 16 8) (CodeLoc 0x400000 0 (Some 0x400000))
    (DataSet.mk {[VInt 1]} 64).
Definition used_once : gmap nat (gset CodeLocation) * t :=
  ({[ 0%nat := {[CodeLoc 0x400000 1 (Some 0x400004)]} ]},
   mk {[ d16 := 0%nat ]} {[ (16, 8, d16) ]}).

Lemma add_use_then_get_uses_witness :
  ∃ h' u' o sz,
    add_use d16 (CodeLoc 0x400000 2 (Some 0x400008)) used_once = (Ok tt, (h', u')) ∧
    get_uses h' u' d16 =
      {[CodeLoc 0x400000 2 (Some 0x400008)]} ∪ get_uses used_once.1 used_once.2 d16 ∧
    (∀ d', get_uses used_once.1 used_once.2 d' ⊆ get_uses h' u' d') ∧
    Def.offset d16 = Ok o ∧ Def.size d16 = Ok sz ∧
    _current_uses u' = KeyedRegion.set_object (_current_uses used_once.2) o d16 sz.
Proof.
  apply (add_use_then_get_uses used_once.1 used_once.2 d16
           (CodeLoc 0x400000 2 (Some 0x400008))).
  exact I.
Defined.

(** X6: [add_use] of a definition whose atom has no offset (a [Tmp] or a
    [Parameter]) raises [ValueError], but only after the use was recorded:
    [get_uses] of the definition holds the code location all the same,
    while the region of current uses is as before. *)
Theorem add_use_unlocated h u d loc :
  ¬ located d →
  ∃ h' u',
    add_use d loc (h, u) = (Raise ValueError, (h', u')) ∧
    get_uses h' u' d = {[loc]} ∪ get_uses h u d ∧
    _current_uses u' = _current_uses u.
Proof.
  intros Ho%not_located_offset.
  destruct (add_use_uses h u d loc) as (h' & dict & Hrun & Hd & _).
  destruct (add_use_outcome h u d loc) as (h1 & dict1 & Hout).
  rewrite Ho in Hout. destruct (Hrun _ _ _ Hout) as [-> Hdict].
  simpl in Hdict. subst dict1. eauto.
Qed.

Definition d_tmp : Def.t :=
  Def.mk (Tmp 3) (CodeLoc 0x400000 0 (Some 0x400000)) (DataSet.mk {[VInt 1]} 64).

Lemma add_use_unlocated_witness :
  ∃ h' u',
    add_use d_tmp ExternalCodeLocation (∅, __init__) = (Raise ValueError, (h', u')) ∧
    get_uses h' u' d_tmp = {[ExternalCodeLocation]} ∪ get_uses ∅ __init__ d_tmp ∧
    _current_uses u' = _current_uses __init__.
Proof.
  apply (add_use_unlocated ∅ __init__ d_tmp ExternalCodeLocation).
  intros [].
Defined.

(** X7: a use recorded on a copy, of a definition that the original has
    no uses of, does not reach the original: [get_uses] on the original
    answers as before for every definition.  (The sets of the original are
    allocated in the heap.) *)
Theorem copy_keeps_new_definitions_apart h u d loc res h' u' :
  _uses_by_definition u !! d = None →
  (∀ k r, _uses_by_definition u !! k = Some r → r ∈ dom h) →
  add_use d loc (h, copy u) = (res, (h', u')) →
  loc ∈ get_uses h' u' d ∧ get_uses h' u d = ∅ ∧
  ∀ d', get_uses h' u d' = get_uses h u d'.
Proof.
  intros Hd Hdom Hrun.
  destruct (add_use_uses h (copy u) d loc) as (h1 & dict & Hshape & Hget & _ & Hsep).
  destruct (Hshape _ _ _ Hrun) as [-> Hdict].
  assert (Hother : ∀ d', get_uses h1 u d' = get_uses h u d')
    by (intros d'; by apply Hsep).
  split; [|split; [|done]].
  - unfold get_uses in *. simpl in *. rewrite Hdict. set_solver.
  - rewrite Hother. unfold get_uses. by rewrite Hd.
Qed.

(** A definition of the register at offset 24, of which [used_once] has no
    use. *)
Definition d24 : Def.t :=
  Def.mk (Register 24 8) (CodeLoc 0x400000 0 (Some 0x400000))
    (DataSet.mk {[VInt 2]} 64).
Definition used_twice : gmap nat (gset CodeLocation) * t :=
  ({[ 0%nat := {[CodeLoc 0x400000 1 (Some 0x400004)]};
      1%nat := {[CodeLoc 0x400000 2 None]} ]},
   mk {[ d16 := 0%nat; d24 := 1%nat ]} {[ (16, 8, d16); (24, 8, d24) ]}).

Lemma copy_keeps_new_definitions_apart_witness :
  CodeLoc 0x400000 2 None ∈ get_uses used_twice.1 used_twice.2 d24 ∧
  get_uses used_twice.1 used_once.2 d24 = ∅ ∧
  ∀ d', get_uses used_twice.1 used_once.2 d' = get_uses used_once.1 used_once.2 d'.
Proof.
  apply (copy_keeps_new_definitions_apart used_once.1 used_once.2 d24
           (CodeLoc 0x400000 2 None) (Ok tt)).
  - by_evaluation.
  - unfold used_once. simpl. intros k r Hk.
    destruct (decide (k = d16)) as [->|Hne].
    + rewrite lookup_singleton_eq in Hk. injection Hk as <-. set_solver.
    + by rewrite lookup_singleton_ne in Hk.
  - by_evaluation.
Defined.

End UsesLaws.

(** ** Uses and definitions in the state *)

Module StateLaws.
Import ReachingDefinitions UsesLaws.

(** What holds of the state that a loop reaches, when each turn keeps it. *)
Lemma for_each_invariant {S A} (P : S → Prop) (body : A → M S unit) (l : list A) :
  (∀ a s r s', P s → body a s = (r, s') → P s') →
  ∀ s r s', P s → for_each l body s = (r, s') → P s'.
Proof.
  intros Hbody. induction l as [|a l IH]; intros s r s' Hs; simpl.
  - by intros [= _ <-].
  - unfold bind. destruct (body a s) as [[[]|e] s1] eqn:Ha.
    + apply IH. eapply Hbody; eauto.
    + intros [= _ <-]. eapply Hbody; eauto.
Qed.

(** Everything of the state but its uses. *)
Definition same_definitions (s s' : t) : Prop :=
  arch s' = arch s ∧ _track_tmps s' = _track_tmps s ∧ analysis s' = analysis s ∧
  register_definitions s' = register_definitions s ∧
  memory_definitions s' = memory_definitions s ∧
  tmp_definitions s' = tmp_definitions s ∧
  _dead_virgin_definitions s' = _dead_virgin_definitions s.

Lemma same_definitions_refl s : same_definitions s s.
Proof. by repeat split. Qed.

Lemma for_each_add_use_frame proj inj loc (l : list Def.t) s0 :
  (∀ u s, same_definitions s0 s → same_definitions s0 (inj u s)) →
  ∀ h s r h' s', same_definitions s0 s →
    for_each l (λ d, on_uses proj inj (Uses.add_use d loc)) (h, s) = (r, (h', s')) →
    same_definitions s0 s'.
Proof.
  intros Hinj h s r h' s' Hs Hrun.
  apply (for_each_invariant (λ w, same_definitions s0 w.2)
           (λ d, on_uses proj inj (Uses.add_use d loc)) l) with (s := (h, s))
           (r := r) (s' := (h', s')); [|done|done].
  intros d [h1 s1] r1 [h2 s2]. simpl. intros Hs1. unfold on_uses.
  destruct (Uses.add_use d loc (use_sets h1, proj s1)) as [r2 [uh u]].
  intros [= _ _ <-]. by apply Hinj.
Qed.

(** X9: [add_use] never touches a definition: whatever the atom and
    however the call ends, the registers', the memory's and the
    temporaries' definitions, the dead definitions and the settings of the
    state are as before. *)
Theorem add_use_keeps_definitions atom loc h s r h' s' :
  add_use atom loc (h, s) = (r, (h', s')) → same_definitions s s'.
Proof.
  destruct atom as [tmp_idx|o sz|a sz|p]; simpl.
  - unfold _add_tmp_use, bind, self_.
    destruct (tmp_definitions s !! tmp_idx) as [current_def|].
    + unfold tmp_uses_getitem, modify. destruct (tmp_uses s !! tmp_idx).
      * intros [= _ _ <-]. apply same_definitions_refl.
      * intros [= _ _ <-]. by repeat split.
    + intros [= _ _ <-]. apply same_definitions_refl.
  - unfold _add_register_use, bind, self_, on_register_uses.
    apply for_each_add_use_frame; [|apply same_definitions_refl].
    intros u s1 Hs1. destruct Hs1 as (? & ? & ? & ? & ? & ? & ?). by repeat split.
  - unfold _add_memory_use, bind, self_, on_memory_uses.
    apply for_each_add_use_frame; [|apply same_definitions_refl].
    intros u s1 Hs1. destruct Hs1 as (? & ? & ? & ? & ? & ? & ?). by repeat split.
  - intros [= _ _ <-]. apply same_definitions_refl.
Qed.

Lemma add_use_keeps_definitions_witness :
  same_definitions TmpFacts.state_with_t7
    (set_tmp_uses {[ 7 := 0%nat ]} TmpFacts.state_with_t7).
Proof.
  apply (add_use_keeps_definitions (Tmp 7) (CodeLoc 0x400000 5 None)
           empty_heap TmpFacts.state_with_t7 (Ok tt)
           (mkHeap ∅ {[ 0%nat := {[ (CodeLoc 0x400000 5 None,
                                   (Tmp 7, CodeLoc 0x400000 3 (Some 0x400004))) ]} ]})).
  by_evaluation.
Defined.

(** The loop of [_add_register_use] and [_add_memory_use], on the uses
    that [proj] reads and [inj] writes. *)
Lemma for_each_add_use proj inj loc :
  (∀ u s, proj (inj u s) = u) →
  ∀ (l : list Def.t) h s,
  (∀ d, d ∈ l → located d) →
  ∃ h' s',
    for_each l (λ d, on_uses proj inj (Uses.add_use d loc)) (h, s)
      = (Ok tt, (h', s')) ∧
    (∀ d, d ∈ l → loc ∈ Uses.get_uses (use_sets h') (proj s') d) ∧
    (∀ d, Uses.get_uses (use_sets h) (proj s) d
          ⊆ Uses.get_uses (use_sets h') (proj s') d).
Proof.
  intros Hproj l. induction l as [|d l IH]; intros h s Hl.
  - exists h, s. split; [done|]. split; [|done].
    intros d Hd. by apply elem_of_nil in Hd.
  - destruct (add_use_then_get_uses_lemma (use_sets h) (proj s) d loc)
      as (uh & u & o & sz & Hrun & Hd & Hmono & _); [apply Hl; left|].
    destruct (IH (mkHeap uh (tmp_use_sets h)) (inj u s)) as (h' & s' & Hrest & Hin & Hmono').
    { intros d' Hd'. apply Hl. by right. }
    exists h', s'. split; [|split].
    + cbn [for_each]. unfold bind at 1. unfold on_uses at 1. rewrite Hrun.
      exact Hrest.
    + intros d' [->|Hd']%elem_of_cons; [|by apply Hin].
      apply Hmono'. simpl. rewrite Hproj, Hd. set_solver.
    + intros d'. etrans; [apply Hmono|]. specialize (Hmono' d').
      simpl in Hmono'. by rewrite Hproj in Hmono'.
Qed.

(** X10: [add_use] of a register (of a memory location) returns normally
    when the definitions that reach its offset are definitions of registers
    or of memory locations; each of them then has the code location among
    its uses, and no definition has lost a use.  The size of the atom plays
    no part. *)
Theorem add_use_reaches_every_definition h s o sz loc :
  ((∀ d, d ∈ KeyedRegion.get_objects_by_offset (register_definitions s) o → located d) →
   ∃ h' s',
     add_use (Register o sz) loc (h, s) = (Ok tt, (h', s')) ∧
     (∀ d, d ∈ KeyedRegion.get_objects_by_offset (register_definitions s) o →
           loc ∈ Uses.get_uses (use_sets h') (register_uses s') d) ∧
     (∀ d, Uses.get_uses (use_sets h) (register_uses s) d
           ⊆ Uses.get_uses (use_sets h') (register_uses s') d)) ∧
  ((∀ d, d ∈ KeyedRegion.get_objects_by_offset (memory_definitions s) o → located d) →
   ∃ h' s',
     add_use (MemoryLocation o sz) loc (h, s) = (Ok tt, (h', s')) ∧
     (∀ d, d ∈ KeyedRegion.get_objects_by_offset (memory_definitions s) o →
           loc ∈ Uses.get_uses (use_sets h') (memory_uses s') d) ∧
     (∀ d, Uses.get_uses (use_sets h) (memory_uses s) d
           ⊆ Uses.get_uses (use_sets h') (memory_uses s') d)).
Proof.
  split; intros Hloc.
  - destruct (for_each_add_use register_uses set_register_uses loc
                ltac:(done)
                (elements (KeyedRegion.get_objects_by_offset (register_definitions s) o))
                h s) as (h' & s' & Hrun & Hin & Hmono).
    { intros d Hd. apply Hloc. by apply elem_of_elements. }
    exists h', s'. split; [exact Hrun|]. split; [|done].
    intros d Hd. apply Hin. by apply elem_of_elements.
  - destruct (for_each_add_use memory_uses set_memory_uses loc
                ltac:(done)
                (elements (KeyedRegion.get_objects_by_offset (memory_definitions s) o))
                h s) as (h' & s' & Hrun & Hin & Hmono).
    { intros d Hd. apply Hloc. by apply elem_of_elements. }
    exists h', s'. split; [exact Hrun|]. split; [|done].
    intros d Hd. apply Hin. by apply elem_of_elements.
Qed.

(** A state in which [d16] and a second definition reach offset 16, and
    nothing reaches memory. *)
Definition d16' : Def.t :=
  Def.mk (Register 16 8) (CodeLoc 0x400010 0 (Some 0x400010))
    (DataSet.mk {[VInt 2]} 64).
Definition two_reach_16 : t :=
  set_register_definitions {[ (16, 8, d16); (16, 8, d16') ]} Scenario.blank.

Lemma two_reach_16_defs :
  KeyedRegion.get_objects_by_offset (register_definitions two_reach_16) 16
  = {[ d16; d16' ]}.
Proof. by_evaluation. Qed.

Lemma add_use_reaches_every_definition_witness :
  (∃ h' s',
     add_use (Register 16 8) ExternalCodeLocation (empty_heap, two_reach_16)
       = (Ok tt, (h', s')) ∧
     (∀ d, d ∈ KeyedRegion.get_objects_by_offset (register_definitions two_reach_16) 16 →
           ExternalCodeLocation ∈ Uses.get_uses (use_sets h') (register_uses s') d) ∧
     (∀ d, Uses.get_uses (use_sets empty_heap) (register_uses two_reach_16) d
           ⊆ Uses.get_uses (use_sets h') (register_uses s') d)) ∧
  (∃ h' s',
     add_use (MemoryLocation 16 8) ExternalCodeLocation (empty_heap, two_reach_16)
       = (Ok tt, (h', s')) ∧
     (∀ d, d ∈ KeyedRegion.get_objects_by_offset (memory_definitions two_reach_16) 16 →
           ExternalCodeLocation ∈ Uses.get_uses (use_sets h') (memory_uses s') d) ∧
     (∀ d, Uses.get_uses (use_sets empty_heap) (memory_uses two_reach_16) d
           ⊆ Uses.get_uses (use_sets h') (memory_uses s') d)).
Proof.
  split.
  - apply (add_use_reaches_every_definition empty_heap two_reach_16 16 8
             ExternalCodeLocation).
    rewrite two_reach_16_defs.
    intros d [->%elem_of_singleton| ->%elem_of_singleton]%elem_of_union; exact I.
  - apply (add_use_reaches_every_definition empty_heap two_reach_16 16 8
             ExternalCodeLocation).
    intros d Hd. exfalso. revert Hd. apply not_elem_of_empty.
Defined.

(** *** [kill_and_add_definition] *)

(** The definitions that reach the offset of a register. *)
Definition reaching (s : t) (reg_offset : Z) : gset Def.t :=
  KeyedRegion.get_objects_by_offset (register_definitions s) reg_offset.

(** What [_kill_and_add_register_definition] has done when it comes to
    build the new definition: nothing but, at most, marking the reaching
    definitions dead. *)
Lemma kill_register_prologue h s o sz loc data :
  ∃ r dead,
    _dead_virgin_definitions s ⊆ dead ∧
    dead ⊆ _dead_virgin_definitions s ∪ reaching s o ∧
    kill_and_add_definition (Register o sz) loc data (h, s) =
      match r with
      | Raise e => (Raise e, (h, s))
      | Ok _ =>
          match Def.__init__ (Register o sz) loc data with
          | Raise e => (Raise e, (h, set_dead_virgin_definitions dead s))
          | Ok definition =>
              (Ok tt, (h, set_register_definitions
                            (KeyedRegion.set_object (register_definitions s) o
                               definition sz)
                            (set_dead_virgin_definitions dead s)))
          end
      end ∧
    (r = Ok tt ∨ r = Raise ValueError) ∧
    ((∀ d, d ∈ reaching s o → located d) → r = Ok tt).
Proof.
  assert (Hs : set_dead_virgin_definitions (_dead_virgin_definitions s) s = s)
    by (by destruct s).
  unfold kill_and_add_definition, _kill_and_add_register_definition, bind, self_.
  fold (reaching s o).
  destruct (decide (reaching s o = ∅)) as [Hnone|Hsome].
  - exists (Ok tt), (_dead_virgin_definitions s). rewrite Hs.
    split; [done|]. split; [set_solver|]. split; [|by auto].
    unfold ret, lift_exc. by destruct (Def.__init__ _ _ _).
  - unfold lift_exc.
    destruct (_current_uses_of (register_uses s) (elements (reaching s o)) ∅)
      as [uses|e] eqn:Huses.
    + destruct (decide (uses = ∅)).
      * exists (Ok tt), (_dead_virgin_definitions s ∪ reaching s o).
        split; [set_solver|]. split; [done|]. split; [|by auto].
        unfold update, modify. by destruct (Def.__init__ _ _ _).
      * exists (Ok tt), (_dead_virgin_definitions s). rewrite Hs.
        split; [done|]. split; [set_solver|]. split; [|by auto].
        unfold ret. by destruct (Def.__init__ _ _ _).
    + assert (He : e = ValueError ∧ ¬ ∀ d, d ∈ reaching s o → located d).
      { clear -Huses. revert Huses. generalize (∅ : gset Def.t).
        setoid_rewrite <- elem_of_elements.
        induction (elements (reaching s o)) as [|d l IH]; intros acc; simpl; [done|].
        unfold Uses.get_current_uses, Def.offset, Def.size, located.
        destruct (Def.atom d) eqn:Hd; simpl.
        - intros [= <-]. split; [done|]. intros Hall. specialize (Hall d).
          rewrite Hd in Hall. apply Hall. left.
        - intros [? Hn]%IH. split; [done|]. intros Hall. apply Hn.
          intros d' Hd'. apply Hall. by right.
        - intros [? Hn]%IH. split; [done|]. intros Hall. apply Hn.
          intros d' Hd'. apply Hall. by right.
        - intros [= <-]. split; [done|]. intros Hall. specialize (Hall d).
          rewrite Hd in Hall. apply Hall. left. }
      destruct He as [-> Hn]. exists (Raise ValueError), (_dead_virgin_definitions s).
      split; [done|]. split; [set_solver|]. split; [done|]. split; [by right|].
      intros Hl. by destruct Hn.
Qed.

(** X8: [kill_and_add_definition] installs nothing when its [data] is no
    DataSet (a bare [bool], [None], an expression): for a memory location
    it raises [AssertionError] and leaves the state as it was; for a
    register whose reaching definitions are definitions of registers or
    memory locations it raises [AssertionError] too, with every region as
    before, though by then it may have marked the reaching definitions
    dead. *)
Theorem kill_and_add_needs_a_DataSet h s o sz loc data :
  (∀ d, data ≠ ODataSet d) →
  kill_and_add_definition (MemoryLocation o sz) loc data (h, s)
    = (Raise AssertionError, (h, s)) ∧
  ((∀ d, d ∈ reaching s o → located d) →
   ∃ dead,
     kill_and_add_definition (Register o sz) loc data (h, s)
       = (Raise AssertionError, (h, set_dead_virgin_definitions dead s)) ∧
     _dead_virgin_definitions s ⊆ dead ∧
     dead ⊆ _dead_virgin_definitions s ∪ reaching s o).
Proof.
  intros Hdata.
  assert (Hinit : ∀ atom, Def.__init__ atom loc data = Raise AssertionError).
  { intros atom. destruct data; try done. by destruct (Hdata d). }
  split.
  - unfold kill_and_add_definition, _kill_and_add_memory_definition, bind, lift_exc.
    by rewrite Hinit.
  - intros Hloc.
    destruct (kill_register_prologue h s o sz loc data)
      as (r & dead & Hsub & Hsup & Hrun & _ & Hok).
    rewrite (Hok Hloc), Hinit in Hrun. eauto.
Qed.

Lemma kill_and_add_needs_a_DataSet_witness :
  kill_and_add_definition (MemoryLocation 16 8) ExternalCodeLocation (OBool true)
    (empty_heap, two_reach_16)
    = (Raise AssertionError, (empty_heap, two_reach_16)) ∧
  ((∀ d, d ∈ reaching two_reach_16 16 → located d) →
   ∃ dead,
     kill_and_add_definition (Register 16 8) ExternalCodeLocation (OBool true)
       (empty_heap, two_reach_16)
       = (Raise AssertionError,
          (empty_heap, set_dead_virgin_definitions dead two_reach_16)) ∧
     _dead_virgin_definitions two_reach_16 ⊆ dead ∧
     dead ⊆ _dead_virgin_definitions two_reach_16 ∪ reaching two_reach_16 16).
Proof.
  apply (kill_and_add_needs_a_DataSet empty_heap two_reach_16 16 8
           ExternalCodeLocation (OBool true)).
  discriminate.
Defined.

(** X11: however [kill_and_add_definition] on a register ends, it changes
    nothing of the state but the register definitions and the dead
    definitions; the dead definitions only grow, and only by definitions
    that reached the offset of the register. *)
Theorem dead_definitions_grow h s o sz loc data r h' s' :
  kill_and_add_definition (Register o sz) loc data (h, s) = (r, (h', s')) →
  h' = h ∧
  _dead_virgin_definitions s ⊆ _dead_virgin_definitions s' ∧
  _dead_virgin_definitions s' ⊆ _dead_virgin_definitions s ∪ reaching s o ∧
  memory_definitions s' = memory_definitions s ∧
  tmp_definitions s' = tmp_definitions s ∧
  register_uses s' = register_uses s ∧ memory_uses s' = memory_uses s ∧
  tmp_uses s' = tmp_uses s ∧
  (r ≠ Ok tt → register_definitions s' = register_definitions s).
Proof.
  destruct (kill_register_prologue h s o sz loc data)
    as (r0 & dead & Hsub & Hsup & -> & _ & _).
  destruct r0 as [[]|e].
  - destruct (Def.__init__ _ _ _); intros [= <- <- <-]; simpl; by repeat split.
  - intros [= <- <- <-]. repeat split; try done. set_solver.
Qed.

(** [two_reach_16] after the register at offset 16 was given the value 3
    at the external location: the two definitions that reached it had no
    use, and are dead. *)
Definition d16_new : Def.t :=
  Def.mk (Register 16 8) ExternalCodeLocation (DataSet.mk {[VInt 3]} 64).
Definition killed_16 : t :=
  set_register_definitions {[ (16, 8, d16_new) ]}
    (set_dead_virgin_definitions {[ d16; d16' ]} two_reach_16).

Lemma dead_definitions_grow_witness :
  empty_heap = empty_heap ∧
  _dead_virgin_definitions two_reach_16 ⊆ _dead_virgin_definitions killed_16 ∧
  _dead_virgin_definitions killed_16
    ⊆ _dead_virgin_definitions two_reach_16 ∪ reaching two_reach_16 16 ∧
  memory_definitions killed_16 = memory_definitions two_reach_16 ∧
  tmp_definitions killed_16 = tmp_definitions two_reach_16 ∧
  register_uses killed_16 = register_uses two_reach_16 ∧
  memory_uses killed_16 = memory_uses two_reach_16 ∧
  tmp_uses killed_16 = tmp_uses two_reach_16 ∧
  (Ok tt ≠ Ok tt → register_definitions killed_16 = register_definitions two_reach_16).
Proof.
  apply (dead_definitions_grow empty_heap two_reach_16 16 8 ExternalCodeLocation
           (ODataSet (DataSet.mk {[VInt 3]} 64))).
  by_evaluation.
Defined.

End StateLaws.

(** ** A machine for the examples *)

Module Machine.

(** The interpreter of the language reference, no arithmetic on offsets and
    expressions, no memory in the binary, and two operations: the negation
    of a bit and the conversion from 64 to 32 bits. *)
Definition no_object_op (b : binop) (x y : PyObj) : Exc PyObj := Raise TypeError.
Definition no_offset_sar (size : Z) (e0 e1 : Value) : Exc Value := Raise TypeError.
Definition no_memory (a n : Z) : Exc (list Byte.byte) := Ok [].
Definition operations : gmap string VEX.SimIROp :=
  {[ "Iop_Not1" := VEX.mkSimIROp false None;
     "Iop_64to32" := VEX.mkSimIROp true (Some 32) ]}.

(** The dispatcher of a little-endian machine whose expressions are 64
    bits wide. *)
Definition expr64 : VexExpr → M (Heap * Engine) PyObj :=
  VEX._expr (interp := Scenario.cpython) CompareFacts.size64
    DataSetFacts.no_offset_op no_object_op no_offset_sar operations no_memory
    "Iend_LE".

(** [1 == 1] and [1 != 1] *)
Definition one_is_one : VexExpr :=
  VexBinop "Iop_CmpEQ64" (VexConst 1) (VexConst 1).
Definition one_is_not_one : VexExpr :=
  VexBinop "Iop_CmpNE64" (VexConst 1) (VexConst 1).

End Machine.

(** ** The VEX handlers one by one *)

Module HandlerLaws.
Import ReachingDefinitions VEX UsesLaws StateLaws.

Lemma new_DataSet_ok (data : gset Value) (n : N) :
  data ≠ ∅ → new_DataSet data n = Ok (ODataSet (DataSet.mk data n)).
Proof.
  intros Hd. unfold new_DataSet. by rewrite CompareFacts.DataSet_init_ok.
Qed.

Lemma singleton_not_empty (v : Value) : ({[v]} : gset Value) ≠ ∅.
Proof. apply (non_empty_inhabited_L v). by apply elem_of_singleton_2. Qed.

Lemma set_state_state e : set_state (state e) e = e.
Proof. by destruct e. Qed.

(** The member that a conversion to [bits] bits makes of [a]. *)
Definition reduced (bits : Z) (a : Value) : Value :=
  match a with
  | VInt z => VInt (z mod 2 ^ bits)
  | _ => a
  end.

Lemma _handle_Conversion_loop_reduces bits (l : list Value) : ∀ data,
  0 ≤ bits →
  (∀ a, a ∈ l → a = VUndefined ∨ ∃ z, a = VInt z) →
  _handle_Conversion_loop bits l data
  = Ok (list_to_set (reduced bits <$> l) ∪ data).
Proof.
  induction l as [|a l IH]; intros data Hbits Hl; simpl.
  - f_equal. set_solver.
  - assert (Ha : convert bits a = Ok (reduced bits a)).
    { destruct (Hl a) as [->|[z ->]]; [left|done|]. simpl.
      destruct (decide (bits < 0)); [lia|].
      replace (2 ^ bits - 1) with (Z.ones bits) by (rewrite Z.ones_equiv; lia).
      by rewrite Z.land_ones. }
    rewrite Ha. simpl. rewrite IH; [|done|intros a' Ha'; apply Hl; by right].
    f_equal. set_solver.
Qed.

Section Handlers.
Context {interp : Interpreter}.
Variable result_size : VexExpr → N.
Variable offset_op : binop → Value → Value → Exc Value.
Variable object_op : binop → PyObj → PyObj → Exc PyObj.
Variable offset_sar : Z → Value → Value → Exc Value.
Variable vex_operations : gmap string SimIROp.
Variable _expr : VexExpr → M (Heap * Engine) PyObj.

(** X15: the dispatcher of binary operations has no branch for the
    comparison "less than": an operation whose name starts with
    [Iop_CmpLT] evaluates no operand, changes nothing and yields [None],
    so that [_handle_CmpLT] is never reached through it. *)
Theorem binop_never_compares_less (expr : VexExpr) (rest : string)
    (arg0 arg1 : VexExpr) (w : Heap * Engine) :
  _handle_Binop result_size offset_op object_op offset_sar _expr expr
    ("Iop_CmpLT" +:+ rest) arg0 arg1 w
  = (Ok ONone, w).
Proof using Type. reflexivity. Qed.

(** X19: a guarded store writes only when its guard evaluates to the
    object [True].  For every other value of the guard, [False], [None] or
    a DataSet (be it [{1}]), neither address nor data is evaluated and the
    state is the one that the guard left. *)
Theorem guarded_store_needs_True (stmt_guard stmt_addr stmt_data : VexExpr)
    (w w1 : Heap * Engine) (guard : PyObj) :
  _expr stmt_guard w = (Ok guard, w1) →
  (guard = OBool true →
     _handle_StoreG result_size _expr stmt_guard stmt_addr stmt_data w
     = _handle_Store result_size _expr stmt_addr stmt_data w1) ∧
  (guard ≠ OBool true →
     _handle_StoreG result_size _expr stmt_guard stmt_addr stmt_data w
     = (Ok tt, w1)).
Proof using Type.
  intros Hg. unfold _handle_StoreG, bind. rewrite Hg. split.
  - by intros ->.
  - intros Hne. by destruct guard as [|[]| | |].
Qed.

(** X16: an [ITE] whose condition evaluates to the object [True] (to
    [False]) is the value of its first (second) branch, and the other
    branch is not evaluated; when the condition is a DataSet, both
    branches are evaluated in turn and the result holds the members of
    both, at the width of the expression. *)
Theorem ite_resolves_on_bool (expr cond iftrue iffalse : VexExpr)
    (w w1 : Heap * Engine) (c : PyObj) :
  _expr cond w = (Ok c, w1) →
  (c = OBool true →
     _handle_ITE result_size _expr expr cond iftrue iffalse w = _expr iftrue w1) ∧
  (c = OBool false →
     _handle_ITE result_size _expr expr cond iftrue iffalse w = _expr iffalse w1) ∧
  (∀ d t w2 f w3,
     c = ODataSet d →
     _expr iftrue w1 = (Ok (ODataSet t), w2) →
     _expr iffalse w2 = (Ok (ODataSet f), w3) →
     DataSet.data t ≠ ∅ →
     _handle_ITE result_size _expr expr cond iftrue iffalse w
     = (Ok (ODataSet (DataSet.mk (DataSet.data t ∪ DataSet.data f)
                        (result_size expr))), w3)).
Proof using Type.
  intros Hc. unfold _handle_ITE, bind. rewrite Hc.
  split; [by intros ->|]. split; [by intros ->|].
  intros d t w2 f w3 -> Ht Hf Hne. rewrite Ht. simpl. rewrite Hf. simpl.
  unfold lift_exc. rewrite new_DataSet_ok; [done|]. set_solver.
Qed.

(** X28: a temporary that is written and then read holds what was
    written: [WrTmp] binds the temporary to the object that its data
    evaluates to, and [RdTmp] returns that object.  When the data
    evaluates to [None], [WrTmp] binds nothing, and reading a temporary
    that is not bound yields the DataSet of [Undefined] alone. *)
Theorem write_then_read_tmp (tmp : Z) (data expr : VexExpr)
    (w : Heap * Engine) (h1 : Heap) (e1 : Engine) (r : PyObj) :
  _expr data w = (Ok r, (h1, e1)) →
  (r ≠ ONone →
     (_handle_WrTmp _expr tmp data ;; _handle_RdTmp result_size expr tmp) w
     = (Ok r, (h1, set_tmps (<[tmp := r]> (tmps e1)) e1))) ∧
  (r = ONone → tmps e1 !! tmp = None →
     (_handle_WrTmp _expr tmp data ;; _handle_RdTmp result_size expr tmp) w
     = (Ok (ODataSet (DataSet.mk {[VUndefined]} (result_size expr))), (h1, e1))).
Proof using Type.
  intros Hd. unfold _handle_WrTmp, _handle_RdTmp, bind. rewrite Hd. split.
  - intros Hr. destruct (decide (r = ONone)); [done|]. simpl.
    by rewrite lookup_insert_eq.
  - intros -> Hnone. simpl. rewrite Hnone. unfold lift_exc.
    fold (new_DataSet {[VUndefined]} (result_size expr)).
    rewrite new_DataSet_ok; [done|]. apply singleton_not_empty.
Qed.

(** X14: the handlers that take the length of an operand or iterate over
    it refuse a bare [bool], which is what a resolved comparison returns:
    with a first operand that evaluates to a [bool], [Not1], the
    comparisons and [Sar] raise [TypeError] once the operands are
    evaluated. *)
Theorem bare_bool_operand (expr arg0 : VexExpr) (w w1 : Heap * Engine) (b : bool) :
  _expr arg0 w = (Ok (OBool b), w1) →
  _handle_Not1 result_size _expr expr arg0 w = (Raise TypeError, w1) ∧
  ∀ arg1 r w2, _expr arg1 w1 = (Ok r, w2) →
    _handle_CmpEQ result_size _expr expr arg0 arg1 w = (Raise TypeError, w2) ∧
    _handle_CmpNE result_size _expr expr arg0 arg1 w = (Raise TypeError, w2) ∧
    _handle_CmpORD result_size _expr expr arg0 arg1 w = (Raise TypeError, w2) ∧
    _handle_Sar result_size offset_sar _expr expr arg0 arg1 w = (Raise TypeError, w2).
Proof using Type.
  intros H0. split.
  - unfold _handle_Not1, bind. by rewrite H0.
  - intros arg1 r w2 H1.
    unfold _handle_CmpEQ, _handle_CmpNE, _handle_CmpORD, _handle_comparison,
      _handle_Sar, bind.
    by rewrite H0, H1.
Qed.

(** *** Registers *)

Lemma elem_of_data_of (defs : gset Def.t) v :
  v ∈ data_of defs ↔ ∃ d, d ∈ defs ∧ v ∈ DataSet.data (Def.data d).
Proof using Type.
  unfold data_of. rewrite elem_of_union_list. split.
  - intros (X & HX & Hv). apply list_elem_of_fmap in HX as (d & -> & Hd).
    exists d. split; [by apply elem_of_elements|done].
  - intros (d & Hd & Hv). exists (DataSet.data (Def.data d)). split; [|done].
    apply list_elem_of_fmap. exists d. split; [done|by apply elem_of_elements].
Qed.

Lemma data_of_empty : data_of ∅ = ∅.
Proof using Type. unfold data_of. by rewrite elements_empty. Qed.

(** X12: reading a register that no definition reaches changes nothing
    and yields the DataSet of [Undefined] alone, at the width of the
    expression, provided the architecture names the offset; if it does
    not, the handler raises [KeyError] (the name is looked up for the log
    message). *)
Theorem get_without_definition (expr : VexExpr) (reg_offset : Z) (h : Heap)
    (e : Engine) :
  reaching (state e) reg_offset = ∅ →
  _handle_Get result_size expr reg_offset (h, e) =
    match register_names (arch (state e)) !! reg_offset with
    | Some _ => (Ok (ODataSet (DataSet.mk {[VUndefined]} (result_size expr))), (h, e))
    | None => (Raise KeyError, (h, e))
    end.
Proof using Type.
  unfold reaching. intros Hnone.
  unfold _handle_Get, bind, engine_, register_name_of, bind, engine_.
  rewrite Hnone, data_of_empty. unfold or_undefined.
  destruct (decide ((∅ : gset Value) = ∅)) as [_|]; [|done].
  destruct (decide (VUndefined ∈ ({[VUndefined]} : gset Value))) as [_|Hn];
    [|destruct Hn; by apply elem_of_singleton_2].
  destruct (register_names (arch (state e)) !! reg_offset); [|done].
  unfold ret, _codeloc, bind, engine_, ret, on_state.
  rewrite (KillFacts.add_use_without_definitions _ _ _ _ _ Hnone), set_state_state.
  unfold lift_exc. rewrite new_DataSet_ok; [done|]. apply singleton_not_empty.
Qed.

(** X13: a [Put] installs nothing when its data does not evaluate to a
    DataSet (a bare [bool], [None]): the membership test on the data
    raises [TypeError].  Nor does it when the data holds [Undefined] and
    the architecture has no name for the offset: the lookup of the name
    for the log message raises [KeyError].  In both cases the state is the
    one that the evaluation of the data left. *)
Theorem put_refusals (reg_offset : Z) (stmt_data : VexExpr)
    (w w1 : Heap * Engine) (r : PyObj) :
  _expr stmt_data w = (Ok r, w1) →
  ((∀ d, r ≠ ODataSet d) →
     _handle_Put result_size _expr reg_offset stmt_data w = (Raise TypeError, w1)) ∧
  (∀ d, r = ODataSet d → VUndefined ∈ DataSet.data d →
     register_names (arch (state w1.2)) !! reg_offset = None →
     _handle_Put result_size _expr reg_offset stmt_data w = (Raise KeyError, w1)).
Proof using Type.
  intros Hr. unfold _handle_Put, bind. rewrite Hr. split.
  - intros Hnd. destruct r; try done. by destruct (Hnd d).
  - intros d -> Hu Hname. destruct w1 as [h1 e1]. simpl in *.
    rewrite bool_decide_eq_true_2 by done.
    unfold register_name_of, bind, engine_. by rewrite Hname.
Qed.

(** What a [Put] of a DataSet does. *)
Lemma put_installs (reg_offset : Z) (stmt_data : VexExpr) (w : Heap * Engine)
    (h1 : Heap) (e1 : Engine) (d : DataSet.t) :
  _expr stmt_data w = (Ok (ODataSet d), (h1, e1)) →
  (VUndefined ∈ DataSet.data d →
     is_Some (register_names (arch (state e1)) !! reg_offset)) →
  (∀ x, x ∈ reaching (state e1) reg_offset → located x) →
  let size := Z.of_N (result_size stmt_data) / 8 in
  let definition := Def.mk (Register reg_offset size)
                      (CodeLoc (block_addr e1) (stmt_idx e1) (ins_addr e1)) d in
  ∃ dead,
    _handle_Put result_size _expr reg_offset stmt_data w
    = (Ok tt,
       (h1, set_state
              (set_register_definitions
                 (KeyedRegion.set_object (register_definitions (state e1))
                    reg_offset definition size)
                 (set_dead_virgin_definitions dead (state e1))) e1)).
Proof using Type.
  intros Hd Hname Hloc size definition. unfold _handle_Put, bind. rewrite Hd.
  simpl.
  assert (Hlog : (if bool_decide (VUndefined ∈ DataSet.data d)
                  then register_name_of reg_offset else ret tt) (h1, e1)
                 = (Ok tt, (h1, e1))).
  { destruct (bool_decide_reflect (VUndefined ∈ DataSet.data d)) as [Hu|]; [|done].
    destruct (Hname Hu) as [name Hn].
    unfold register_name_of, bind, engine_. by rewrite Hn. }
  rewrite Hlog. unfold _codeloc, bind, engine_, ret, on_state.
  destruct (kill_register_prologue h1 (state e1) reg_offset size
              (CodeLoc (block_addr e1) (stmt_idx e1) (ins_addr e1)) (ODataSet d))
    as (r & dead & _ & _ & Hrun & _ & Hok).
  rewrite (Hok Hloc) in Hrun. simpl in Hrun. fold size. rewrite Hrun. eauto.
Qed.

(** *** Conversions *)

(** X17: a conversion reduces every integer of its operand modulo
    [2 ^ to_size] and keeps [Undefined]; the result has the width of the
    expression, and the state is the one that the operand left. *)
Theorem conversion_reduces_integers (expr : VexExpr) (op : string) (arg : VexExpr)
    (w w1 : Heap * Engine) (d : DataSet.t) (simop : SimIROp) (bits : Z) :
  vex_operations !! op = Some simop → to_size simop = Some bits → 0 ≤ bits →
  _expr arg w = (Ok (ODataSet d), w1) →
  DataSet.data d ≠ ∅ →
  (∀ a, a ∈ DataSet.data d → a = VUndefined ∨ ∃ z, a = VInt z) →
  _handle_Conversion result_size vex_operations _expr expr op arg w
  = (Ok (ODataSet (DataSet.mk (set_map (reduced bits) (DataSet.data d))
                     (result_size expr))), w1) ∧
  ∀ z, VInt z ∈ (set_map (reduced bits) (DataSet.data d) : gset Value) →
       0 ≤ z < 2 ^ bits.
Proof using Type.
  intros Hop Hsize Hbits Harg Hne Hall. split.
  - unfold _handle_Conversion, bind. rewrite Hop, Harg, Hsize. simpl.
    unfold lift_exc. rewrite _handle_Conversion_loop_reduces;
      [|done|intros a Ha; apply Hall; by apply elem_of_elements].
    rewrite union_empty_r_L.
    fold (set_map (D := gset Value) (reduced bits) (DataSet.data d)).
    rewrite new_DataSet_ok; [done|].
    apply set_choose_L in Hne as [a Ha].
    apply (non_empty_inhabited_L (reduced bits a)). apply elem_of_map. eauto.
  - intros z (a & Hz & Ha)%elem_of_map.
    destruct (Hall a Ha) as [->|[z' ->]]; [done|]. injection Hz as ->.
    apply Z.mod_pos_bound. lia.
Qed.

(** *** The binary operations of SimEngineLightVEX *)

(** The handlers that evaluate both operands and apply one operator. *)
Definition light_handlers
    : list (VexExpr → VexExpr → VexExpr → M (Heap * Engine) PyObj) :=
  [ _handle_And offset_op object_op _expr; _handle_Or offset_op object_op _expr;
    _handle_Add result_size offset_op object_op _expr;
    _handle_Sub result_size offset_op object_op _expr;
    _handle_Xor offset_op object_op _expr;
    _handle_Shl result_size offset_op object_op _expr;
    _handle_Shr offset_op object_op _expr ].

(** Each of them is [with_operands] on a body that comes to [py_binop]
    unless both operands are integers. *)
Lemma light_handler_shape handler :
  handler ∈ light_handlers →
  ∃ try_,
    (∀ expr arg0 arg1, handler expr arg0 arg1 = with_operands _expr arg0 arg1 (try_ expr)) ∧
    (∀ expr x y, as_int x = None ∨ as_int y = None →
       ∃ b, try_ expr x y = py_binop offset_op object_op b x y).
Proof using Type.
  unfold light_handlers. intros Hin.
  repeat (apply elem_of_cons in Hin as [->|Hin]).
  - exists (λ _, py_binop offset_op object_op and_). split; [done|eauto].
  - exists (λ _, py_binop offset_op object_op or_). split; [done|eauto].
  - exists (masked result_size offset_op object_op add). split; [done|].
    intros expr x y Hxy. exists add. unfold masked.
    by destruct Hxy as [-> | ->]; [|destruct (as_int x)].
  - exists (masked result_size offset_op object_op sub). split; [done|].
    intros expr x y Hxy. exists sub. unfold masked.
    by destruct Hxy as [-> | ->]; [|destruct (as_int x)].
  - exists (λ _, py_binop offset_op object_op xor). split; [done|eauto].
  - exists (masked result_size offset_op object_op lshift). split; [done|].
    intros expr x y Hxy. exists lshift. unfold masked.
    by destruct Hxy as [-> | ->]; [|destruct (as_int x)].
  - exists (λ _, py_binop offset_op object_op rshift). split; [done|eauto].
  - by apply elem_of_nil in Hin.
Qed.

(** X30: the handlers [And], [Or], [Add], [Sub], [Xor], [Shl] and [Shr]
    of the light engine yield [None] as soon as an operand is [None], the
    second operand not being evaluated when the first is [None].  They are
    not symmetric on mixed operands: a [bool] on the left of a DataSet
    makes Python raise [TypeError], which the handler turns into [None],
    while a DataSet on the left of a [bool] fails the assertion of
    [_bin_op], and the [AssertionError] leaves the handler. *)
Theorem operands_of_light_handlers handler (expr arg0 arg1 : VexExpr)
    (w w1 : Heap * Engine) (r0 : PyObj) :
  handler ∈ light_handlers →
  _expr arg0 w = (Ok r0, w1) →
  (r0 = ONone → handler expr arg0 arg1 w = (Ok ONone, w1)) ∧
  (∀ w2, r0 ≠ ONone → _expr arg1 w1 = (Ok ONone, w2) →
     handler expr arg0 arg1 w = (Ok ONone, w2)) ∧
  (∀ w2 b d, r0 = OBool b → _expr arg1 w1 = (Ok (ODataSet d), w2) →
     handler expr arg0 arg1 w = (Ok ONone, w2)) ∧
  (∀ w2 b d, r0 = ODataSet d → _expr arg1 w1 = (Ok (OBool b), w2) →
     handler expr arg0 arg1 w = (Raise AssertionError, w2)).
Proof using Type.
  intros (try_ & -> & Htry)%light_handler_shape H0.
  unfold with_operands, bind. rewrite H0. split; [|split; [|split]].
  - intros ->. by destruct (decide (ONone = ONone)).
  - intros w2 Hne H1. destruct (decide (r0 = ONone)); [done|]. rewrite H1.
    by destruct (decide (ONone = ONone)).
  - intros w2 b d -> H1. destruct (decide _) as [|_]; [done|]. rewrite H1.
    destruct (decide _) as [|_]; [done|].
    destruct (Htry expr (OBool b) (ODataSet d)) as [op ->]; [by right|].
    by destruct op.
  - intros w2 b d -> H1. destruct (decide _) as [|_]; [done|]. rewrite H1.
    destruct (decide _) as [|_]; [done|].
    destruct (Htry expr (ODataSet d) (OBool b)) as [op ->]; [by left|].
    by destruct op.
Qed.

(** *** A register written and read *)

Lemma data_of_singleton (d : Def.t) : data_of {[d]} = DataSet.data (Def.data d).
Proof using Type.
  unfold data_of. rewrite elements_singleton. simpl. apply union_empty_r_L.
Qed.

(** X29: a register that is written and then read yields what was
    written.  After a [Put] of a DataSet that is at least a byte wide and
    holds no [Undefined], over an extent that covers every definition that
    reached the offset, a [Get] at the offset yields the members of that
    DataSet at the width of the [Get]; the definition that the [Put]
    installed is the only one that reaches the offset, and the [Get] is
    recorded as a use of it. *)
Theorem put_then_get (reg_offset : Z) (stmt_data get_expr : VexExpr)
    (w : Heap * Engine) (h1 : Heap) (e1 : Engine) (d : DataSet.t) :
  _expr stmt_data w = (Ok (ODataSet d), (h1, e1)) →
  DataSet.data d ≠ ∅ → VUndefined ∉ DataSet.data d →
  let size := Z.of_N (result_size stmt_data) / 8 in
  let codeloc := CodeLoc (block_addr e1) (stmt_idx e1) (ins_addr e1) in
  let definition := Def.mk (Register reg_offset size) codeloc d in
  0 < size →
  (∀ x, x ∈ register_definitions (state e1) →
        KeyedRegion.contains reg_offset x → KeyedRegion.covered reg_offset size x) →
  (∀ x, x ∈ reaching (state e1) reg_offset → located x) →
  ∃ h2 e2,
    (_handle_Put result_size _expr reg_offset stmt_data ;;
     _handle_Get result_size get_expr reg_offset) w
    = (Ok (ODataSet (DataSet.mk (DataSet.data d) (result_size get_expr))), (h2, e2)) ∧
    reaching (state e2) reg_offset = {[definition]} ∧
    codeloc ∈ Uses.get_uses (use_sets h2) (register_uses (state e2)) definition.
Proof using Type.
  intros Hd Hne Hdef size codeloc definition Hsize Hcov Hloc.
  destruct (put_installs reg_offset stmt_data w h1 e1 d Hd) as [dead Hput];
    [done|done|].
  fold size codeloc definition in Hput.
  set (s1 := set_register_definitions
               (KeyedRegion.set_object (register_definitions (state e1))
                  reg_offset definition size)
               (set_dead_virgin_definitions dead (state e1))) in *.
  assert (Hreach : reaching s1 reg_offset = {[definition]}).
  { apply set_eq. intros x. unfold reaching, s1. simpl.
    rewrite KeyedRegionFacts.elem_of_get_objects_by_offset, elem_of_singleton.
    setoid_rewrite KeyedRegionFacts.elem_of_set_object. split.
    - intros (o & sz & [[= -> -> ->]|[Hin Hnc]] & Ho); [done|].
      destruct Hnc. apply Hcov; [done|]. by unfold KeyedRegion.contains.
    - intros ->. exists reg_offset, size. split; [by left|lia]. }
  destruct (for_each_add_use register_uses set_register_uses codeloc
              ltac:(done) [definition] h1 s1) as (h2 & s2 & Huse & Hin & _).
  { intros x ->%list_elem_of_singleton. exact I. }
  exists h2, (set_state s2 e1). split; [|split].
  - unfold bind at 1. rewrite Hput.
    unfold _handle_Get, bind, engine_. cbn [state set_state].
    fold (reaching s1 reg_offset). rewrite Hreach, data_of_singleton.
    cbn [Def.data definition]. unfold or_undefined.
    destruct (decide (DataSet.data d = ∅)); [done|].
    destruct (decide (VUndefined ∈ DataSet.data d)); [done|].
    unfold ret, _codeloc, bind, engine_, ret, on_state.
    cbn [state set_state block_addr stmt_idx ins_addr]. fold codeloc.
    unfold add_use, _add_register_use, bind, self_, on_register_uses.
    fold (reaching s1 reg_offset). rewrite Hreach, elements_singleton, Huse.
    unfold lift_exc. rewrite new_DataSet_ok by done. by destruct e1.
  - cbn [state set_state].
    assert (Hsame : register_definitions s2 = register_definitions s1).
    { eapply (for_each_add_use_frame register_uses set_register_uses codeloc
                [definition] s1); [|apply same_definitions_refl|exact Huse].
      intros u s Hs. destruct Hs as (? & ? & ? & ? & ? & ? & ?). by repeat split. }
    unfold reaching. rewrite Hsame. exact Hreach.
  - cbn [state set_state]. apply Hin. left.
Qed.

End Handlers.

(** *** Examples, on the interpreter of the language reference *)

Section Examples.
Existing Instance Scenario.cpython.

(** *** The theorems at work on the machine of the examples *)

Import Machine.
Notation size64 := CompareFacts.size64.
Notation idle := Scenario.idle.

Lemma guarded_store_needs_True_witness :
  (OBool false = OBool true →
     _handle_StoreG size64 expr64 one_is_not_one (VexConst 0x4000) (VexConst 5) idle
     = _handle_Store size64 expr64 (VexConst 0x4000) (VexConst 5) idle) ∧
  (OBool false ≠ OBool true →
     _handle_StoreG size64 expr64 one_is_not_one (VexConst 0x4000) (VexConst 5) idle
     = (Ok tt, idle)).
Proof.
  apply (guarded_store_needs_True size64 expr64 one_is_not_one (VexConst 0x4000)
           (VexConst 5) idle idle (OBool false)).
  by_evaluation.
Defined.

Lemma ite_resolves_on_bool_witness :
  (OBool true = OBool true →
     _handle_ITE size64 expr64 (VexITE one_is_one (VexConst 2) (VexConst 3))
       one_is_one (VexConst 2) (VexConst 3) idle
     = expr64 (VexConst 2) idle) ∧
  (OBool true = OBool false →
     _handle_ITE size64 expr64 (VexITE one_is_one (VexConst 2) (VexConst 3))
       one_is_one (VexConst 2) (VexConst 3) idle
     = expr64 (VexConst 3) idle) ∧
  (∀ d t w2 f w3,
     OBool true = ODataSet d →
     expr64 (VexConst 2) idle = (Ok (ODataSet t), w2) →
     expr64 (VexConst 3) w2 = (Ok (ODataSet f), w3) →
     DataSet.data t ≠ ∅ →
     _handle_ITE size64 expr64 (VexITE one_is_one (VexConst 2) (VexConst 3))
       one_is_one (VexConst 2) (VexConst 3) idle
     = (Ok (ODataSet (DataSet.mk (DataSet.data t ∪ DataSet.data f)
                        (size64 (VexITE one_is_one (VexConst 2) (VexConst 3))))), w3)).
Proof.
  apply (ite_resolves_on_bool size64 expr64
           (VexITE one_is_one (VexConst 2) (VexConst 3))
           one_is_one (VexConst 2) (VexConst 3) idle idle (OBool true)).
  by_evaluation.
Defined.

Lemma write_then_read_tmp_witness :
  (ODataSet (CompareFacts.const64 5) ≠ ONone →
     (_handle_WrTmp expr64 7 (VexConst 5) ;; _handle_RdTmp size64 (VexRdTmp 7) 7) idle
     = (Ok (ODataSet (CompareFacts.const64 5)),
        (idle.1, set_tmps (<[7 := ODataSet (CompareFacts.const64 5)]> (tmps idle.2))
                   idle.2))) ∧
  (ODataSet (CompareFacts.const64 5) = ONone → tmps idle.2 !! 7 = None →
     (_handle_WrTmp expr64 7 (VexConst 5) ;; _handle_RdTmp size64 (VexRdTmp 7) 7) idle
     = (Ok (ODataSet (DataSet.mk {[VUndefined]} (size64 (VexRdTmp 7)))),
        (idle.1, idle.2))).
Proof.
  apply (write_then_read_tmp size64 expr64 7 (VexConst 5) (VexRdTmp 7) idle
           idle.1 idle.2 (ODataSet (CompareFacts.const64 5))).
  by_evaluation.
Defined.

Lemma bare_bool_operand_witness :
  _handle_Not1 size64 expr64 (VexUnop "Iop_Not1" one_is_one) one_is_one idle
    = (Raise TypeError, idle) ∧
  ∀ arg1 r w2, expr64 arg1 idle = (Ok r, w2) →
    _handle_CmpEQ size64 expr64 (VexUnop "Iop_Not1" one_is_one) one_is_one arg1 idle
      = (Raise TypeError, w2) ∧
    _handle_CmpNE size64 expr64 (VexUnop "Iop_Not1" one_is_one) one_is_one arg1 idle
      = (Raise TypeError, w2) ∧
    _handle_CmpORD size64 expr64 (VexUnop "Iop_Not1" one_is_one) one_is_one arg1 idle
      = (Raise TypeError, w2) ∧
    _handle_Sar size64 no_offset_sar expr64 (VexUnop "Iop_Not1" one_is_one)
      one_is_one arg1 idle
      = (Raise TypeError, w2).
Proof.
  apply (bare_bool_operand size64 no_offset_sar expr64
           (VexUnop "Iop_Not1" one_is_one) one_is_one idle idle true).
  by_evaluation.
Defined.

Lemma get_without_definition_witness :
  _handle_Get size64 (VexGet 16) 16 (idle.1, idle.2) =
    match register_names (arch (state idle.2)) !! 16 with
    | Some _ => (Ok (ODataSet (DataSet.mk {[VUndefined]} (size64 (VexGet 16)))),
                 (idle.1, idle.2))
    | None => (Raise KeyError, (idle.1, idle.2))
    end.
Proof.
  apply (get_without_definition size64 (VexGet 16) 16 idle.1 idle.2).
  by_evaluation.
Defined.

Lemma put_refusals_witness :
  ((∀ d, OBool true ≠ ODataSet d) →
     _handle_Put size64 expr64 16 one_is_one idle = (Raise TypeError, idle)) ∧
  (∀ d, OBool true = ODataSet d → VUndefined ∈ DataSet.data d →
     register_names (arch (state idle.2)) !! 16 = None →
     _handle_Put size64 expr64 16 one_is_one idle = (Raise KeyError, idle)).
Proof.
  apply (put_refusals size64 expr64 16 one_is_one idle idle (OBool true)).
  by_evaluation.
Defined.

Lemma conversion_reduces_integers_witness :
  _handle_Conversion size64 operations expr64
    (VexUnop "Iop_64to32" (VexConst 0x100000005)) "Iop_64to32"
    (VexConst 0x100000005) idle
  = (Ok (ODataSet (DataSet.mk
           (set_map (reduced 32) (DataSet.data (CompareFacts.const64 0x100000005)))
           (size64 (VexUnop "Iop_64to32" (VexConst 0x100000005))))), idle) ∧
  ∀ z, VInt z ∈ (set_map (reduced 32)
                   (DataSet.data (CompareFacts.const64 0x100000005)) : gset Value) →
       0 ≤ z < 2 ^ 32.
Proof.
  apply (conversion_reduces_integers size64 operations expr64
           (VexUnop "Iop_64to32" (VexConst 0x100000005)) "Iop_64to32"
           (VexConst 0x100000005) idle idle (CompareFacts.const64 0x100000005)
           (mkSimIROp true (Some 32)) 32).
  - reflexivity.
  - reflexivity.
  - lia.
  - by_evaluation.
  - apply (non_empty_inhabited_L (VInt 0x100000005)). simpl. set_solver.
  - simpl. intros a ->%elem_of_singleton. right. eauto.
Defined.

Lemma operands_of_light_handlers_witness :
  (OBool true = ONone →
     _handle_And DataSetFacts.no_offset_op no_object_op expr64
       (VexBinop "Iop_And64" one_is_one (VexConst 3)) one_is_one (VexConst 3) idle
     = (Ok ONone, idle)) ∧
  (∀ w2, OBool true ≠ ONone → expr64 (VexConst 3) idle = (Ok ONone, w2) →
     _handle_And DataSetFacts.no_offset_op no_object_op expr64
       (VexBinop "Iop_And64" one_is_one (VexConst 3)) one_is_one (VexConst 3) idle
     = (Ok ONone, w2)) ∧
  (∀ w2 b d, OBool true = OBool b → expr64 (VexConst 3) idle = (Ok (ODataSet d), w2) →
     _handle_And DataSetFacts.no_offset_op no_object_op expr64
       (VexBinop "Iop_And64" one_is_one (VexConst 3)) one_is_one (VexConst 3) idle
     = (Ok ONone, w2)) ∧
  (∀ w2 b d, OBool true = ODataSet d → expr64 (VexConst 3) idle = (Ok (OBool b), w2) →
     _handle_And DataSetFacts.no_offset_op no_object_op expr64
       (VexBinop "Iop_And64" one_is_one (VexConst 3)) one_is_one (VexConst 3) idle
     = (Raise AssertionError, w2)).
Proof.
  apply (operands_of_light_handlers size64 DataSetFacts.no_offset_op no_object_op
           expr64 (_handle_And DataSetFacts.no_offset_op no_object_op expr64)
           (VexBinop "Iop_And64" one_is_one (VexConst 3)) one_is_one (VexConst 3)
           idle idle (OBool true)).
  - left.
  - by_evaluation.
Defined.

Lemma put_then_get_witness :
  let size := Z.of_N (size64 (VexConst 5)) / 8 in
  let codeloc := CodeLoc (block_addr idle.2) (stmt_idx idle.2) (ins_addr idle.2) in
  let definition := Def.mk (Register 16 size) codeloc (CompareFacts.const64 5) in
  ∃ h2 e2,
    (_handle_Put size64 expr64 16 (VexConst 5) ;; _handle_Get size64 (VexGet 16) 16) idle
    = (Ok (ODataSet (DataSet.mk (DataSet.data (CompareFacts.const64 5))
                       (size64 (VexGet 16)))), (h2, e2)) ∧
    reaching (state e2) 16 = {[definition]} ∧
    codeloc ∈ Uses.get_uses (use_sets h2) (register_uses (state e2)) definition.
Proof.
  apply (put_then_get size64 expr64 16 (VexConst 5) (VexGet 16) idle idle.1 idle.2
           (CompareFacts.const64 5)).
  - by_evaluation.
  - apply (non_empty_inhabited_L (VInt 5)). simpl. set_solver.
  - simpl. set_solver.
  - reflexivity.
  - intros x Hx. exfalso. revert Hx. apply not_elem_of_empty.
  - intros x Hx. exfalso. revert Hx. apply not_elem_of_empty.
Defined.

End Examples.

End HandlerLaws.

(** ** The arithmetic right shift *)

Module SarLaws.
Import ReachingDefinitions VEX HandlerLaws.

(** The integer that the [size] low bits [x] stand for in two's
    complement. *)
Definition signed (size x : Z) : Z :=
  if decide (x < 2 ^ (size - 1)) then x else x - 2 ^ size.

Lemma lor_disjoint c k low :
  0 ≤ k → 0 ≤ low < 2 ^ k → Z.lor (c * 2 ^ k) low = c * 2 ^ k + low.
Proof.
  intros Hk Hlow. rewrite <- Z.lxor_lor, Z.add_nocarry_lxor; try done;
    apply Z.bits_inj'; intros n Hn; rewrite Z.land_spec, Z.bits_0;
    (destruct (decide (n < k));
     [rewrite Z.mul_pow2_bits_low by lia; done
     |rewrite <- (Z.mod_small low (2 ^ k)) by lia;
      rewrite Z.mod_pow2_bits_high by lia; apply andb_false_r]).
Qed.

Section Sar.
Context {interp : Interpreter}.
Variable offset_sar : Z → Value → Value → Exc Value.

(** The interpreter carries out every shift by a count of at most [n]. *)
Definition shifts_up_to (n : Z) : Prop :=
  ∀ b a c, 0 ≤ c ≤ n → shift_error b a c = None.

Lemma rshift_div x n :
  0 ≤ n → shift_error rshift x n = None → int_op rshift x n = Ok (x / 2 ^ n).
Proof using Type.
  intros Hn He. unfold int_op, shift_raises. rewrite He.
  destruct (decide (n < 0)); [lia|]. by rewrite Z.shiftr_div_pow2.
Qed.

Lemma lshift_mul x n :
  0 ≤ n → shift_error lshift x n = None → int_op lshift x n = Ok (x * 2 ^ n).
Proof using Type.
  intros Hn He. unfold int_op, shift_raises. rewrite He.
  destruct (decide (n < 0)); [lia|]. by rewrite Z.shiftl_mul_pow2.
Qed.

Lemma lshift_negative x n : n < 0 → int_op lshift x n = Raise ValueError.
Proof using Type.
  intros Hn. unfold int_op, shift_raises. by destruct (decide (n < 0)).
Qed.

(** A shift that the interpreter refuses raises what the interpreter
    says. *)
Lemma lshift_refused x n e :
  0 ≤ n → shift_error lshift x n = Some e → int_op lshift x n = Raise e.
Proof using Type.
  intros Hn He. unfold int_op, shift_raises. rewrite He.
  by destruct (decide (n < 0)); [lia|].
Qed.

(** On two integers, [x] within the width and a count of at most the
    width, the body of the loop computes the arithmetic shift. *)
Lemma sar_integers size x y :
  0 < size → 0 ≤ x < 2 ^ size → 0 ≤ y ≤ size → shifts_up_to size →
  sar offset_sar size (VInt x) (VInt y)
  = Ok (VInt (Z.shiftr (signed size x) y mod 2 ^ size)).
Proof using Type.
  intros Hsize Hx Hy Hup. unfold sar.
  rewrite (rshift_div x (size - 1)), (rshift_div x y), (lshift_mul 1 y)
    by (lia || (apply Hup; lia)).
  cbn [exc_bind]. rewrite lshift_mul by (lia || (apply Hup; lia)).
  assert (Hpow : 2 ^ size = 2 * 2 ^ (size - 1)).
  { rewrite <- Z.pow_succ_r by lia. f_equal. lia. }
  assert (Hsplit : 2 ^ size = 2 ^ (size - y) * 2 ^ y).
  { rewrite <- Z.pow_add_r by lia. f_equal. lia. }
  assert (Hpy : 0 < 2 ^ y) by (apply Z.pow_pos_nonneg; lia).
  assert (Hpk : 0 < 2 ^ (size - y)) by (apply Z.pow_pos_nonneg; lia).
  assert (Hlow : 0 ≤ x / 2 ^ y < 2 ^ (size - y)).
  { split; [apply Z.div_pos; lia|]. apply Z.div_lt_upper_bound; lia. }
  rewrite Z.shiftr_div_pow2 by lia. unfold signed.
  destruct (decide (x < 2 ^ (size - 1))) as [Hsmall|Hbig].
  - rewrite (Z.div_small x (2 ^ (size - 1))) by lia.
    destruct (decide (0 = 0)); [|done]. cbn [exc_bind]. rewrite Z.lor_0_l.
    do 2 f_equal.
    symmetry. apply Z.mod_small. split; [lia|].
    assert (2 ^ (size - y) ≤ 2 ^ size); [|lia].
    apply Z.pow_le_mono_r; lia.
  - assert (Htop : x / 2 ^ (size - 1) ≠ 0).
    { intros H0. apply Z.div_small_iff in H0; lia. }
    destruct (decide (x / 2 ^ (size - 1) = 0)); [done|]. cbn [exc_bind].
    rewrite Z.mul_1_l, lor_disjoint by lia. do 2 f_equal.
    replace (x - 2 ^ size) with (x + - 2 ^ (size - y) * 2 ^ y) by lia.
    rewrite Z.div_add by lia.
    apply (Z.mod_unique _ _ (-1)); [left|]; nia.
Qed.

(** A negative value shifted by more than the width: [1 << e1] raises what
    the interpreter says when the count is beyond its limits; when it is
    carried out, the shift by [size - e1] raises [ValueError]. *)
Lemma sar_beyond_width size x y :
  0 < size → 2 ^ (size - 1) ≤ x → size < y → shifts_up_to size →
  sar offset_sar size (VInt x) (VInt y)
  = Raise (default ValueError (shift_error lshift 1 y)).
Proof using Type.
  intros Hsize Hx Hy Hup. unfold sar.
  rewrite (rshift_div x (size - 1)) by (lia || (apply Hup; lia)).
  cbn [exc_bind].
  assert (Hp : 0 < 2 ^ (size - 1)) by (apply Z.pow_pos_nonneg; lia).
  assert (Htop : x / 2 ^ (size - 1) ≠ 0).
  { intros H0. apply Z.div_small_iff in H0; lia. }
  destruct (decide (x / 2 ^ (size - 1) = 0)); [done|].
  destruct (shift_error lshift 1 y) as [e|] eqn:He.
  - by rewrite (lshift_refused 1 y e) by (lia || done).
  - rewrite (lshift_mul 1 y) by (lia || done). cbn [exc_bind].
    by rewrite lshift_negative by lia.
Qed.

Variable result_size : VexExpr → N.
Variable _expr : VexExpr → M (Heap * Engine) PyObj.

(** X18: on an interpreter that shifts by every count up to the width
    [size] of the expression, and on two singletons of integers, [x] within
    the width and a count [y] of at most [size], [Sar] yields the singleton
    of the arithmetic shift: [x] read as a signed number of [size] bits,
    shifted right by [y], as [size] bits again.  For a count beyond the
    width on a value whose sign bit is set, it yields [Undefined] when the
    interpreter carries out [1 << y] (the next shift, by [size - y], raises
    [ValueError], which is caught) or answers it with [ValueError]; what
    else the interpreter raises for [1 << y] leaves the handler. *)
Theorem sar_sign_extends (expr arg0 arg1 : VexExpr) (w w1 w2 : Heap * Engine)
    (d0 d1 : DataSet.t) (x y : Z) :
  _expr arg0 w = (Ok (ODataSet d0), w1) →
  _expr arg1 w1 = (Ok (ODataSet d1), w2) →
  DataSet.data d0 = {[VInt x]} → DataSet.data d1 = {[VInt y]} →
  let size := Z.of_N (result_size expr) in
  0 < size → 0 ≤ x < 2 ^ size → 0 ≤ y → shifts_up_to size →
  (y ≤ size →
     _handle_Sar result_size offset_sar _expr expr arg0 arg1 w
     = (Ok (ODataSet (DataSet.mk {[VInt (Z.shiftr (signed size x) y mod 2 ^ size)]}
                        (result_size expr))), w2)) ∧
  (size < y → 2 ^ (size - 1) ≤ x →
     _handle_Sar result_size offset_sar _expr expr arg0 arg1 w
     = match shift_error lshift 1 y with
       | None | Some ValueError =>
           (Ok (ODataSet (DataSet.mk {[VUndefined]} (result_size expr))), w2)
       | Some e => (Raise e, w2)
       end).
Proof using Type.
  intros H0 H1 Hd0 Hd1 size Hsize Hx Hy Hup.
  unfold _handle_Sar, bind. rewrite H0, H1. fold size.
  unfold lift_exc, py_iter. rewrite Hd0, elements_singleton.
  cbn [_handle_Sar_outer exc_bind py_iter]. rewrite Hd1, elements_singleton.
  cbn [_handle_Sar_inner exc_bind]. unfold _handle_Sar_body. split.
  - intros Hle. rewrite sar_integers by (lia || done). simpl.
    rewrite union_empty_r_L. rewrite new_DataSet_ok; [done|]. set_solver.
  - intros Hgt Hneg. rewrite sar_beyond_width by (lia || done).
    pose proof (shift_error_no_TypeError lshift 1 y) as Hlaw.
    destruct (shift_error lshift 1 y) as [e|]; simpl.
    + destruct e; try done; simpl; rewrite union_empty_r_L;
        (rewrite new_DataSet_ok; [done|apply singleton_not_empty]).
    + rewrite union_empty_r_L. rewrite new_DataSet_ok; [done|]. set_solver.
Qed.

End Sar.

(** *** Examples, on the interpreter of the language reference *)

Section Examples.
Existing Instance Scenario.cpython.

(** The interpreter of the examples shifts by every count up to 64. *)
Lemma cpython_shifts_up_to_64 : shifts_up_to 64.
Proof.
  intros b a c Hc. simpl. unfold Scenario.cpython_shift_error.
  destruct (decide (Scenario.sys_maxsize < c)) as [Hbig|]; [|done].
  unfold Scenario.sys_maxsize in Hbig. lia.
Qed.

(** [0x8000000000000000 >>a 4] at 64 bits. *)
Definition sar_of_minimum : VexExpr :=
  VexBinop "Iop_Sar64" (VexConst 0x8000000000000000) (VexConst 4).

Lemma sar_sign_extends_witness :
  (4 ≤ Z.of_N (CompareFacts.size64 sar_of_minimum) →
     _handle_Sar CompareFacts.size64 Machine.no_offset_sar Machine.expr64
       sar_of_minimum (VexConst 0x8000000000000000) (VexConst 4) Scenario.idle
     = (Ok (ODataSet (DataSet.mk
              {[VInt (Z.shiftr (signed (Z.of_N (CompareFacts.size64 sar_of_minimum))
                                  0x8000000000000000) 4
                      mod 2 ^ Z.of_N (CompareFacts.size64 sar_of_minimum))]}
              (CompareFacts.size64 sar_of_minimum))), Scenario.idle)) ∧
  (Z.of_N (CompareFacts.size64 sar_of_minimum) < 4 →
     2 ^ (Z.of_N (CompareFacts.size64 sar_of_minimum) - 1) ≤ 0x8000000000000000 →
     _handle_Sar CompareFacts.size64 Machine.no_offset_sar Machine.expr64
       sar_of_minimum (VexConst 0x8000000000000000) (VexConst 4) Scenario.idle
     = match shift_error lshift 1 4 with
       | None | Some ValueError =>
           (Ok (ODataSet (DataSet.mk {[VUndefined]}
                            (CompareFacts.size64 sar_of_minimum))), Scenario.idle)
       | Some e => (Raise e, Scenario.idle)
       end).
Proof.
  apply (sar_sign_extends Machine.no_offset_sar CompareFacts.size64 Machine.expr64
           sar_of_minimum (VexConst 0x8000000000000000) (VexConst 4)
           Scenario.idle Scenario.idle Scenario.idle
           (CompareFacts.const64 0x8000000000000000) (CompareFacts.const64 4)
           0x8000000000000000 4).
  - by_evaluation.
  - by_evaluation.
  - reflexivity.
  - reflexivity.
  - reflexivity.
  - split; [done|reflexivity].
  - done.
  - exact cpython_shifts_up_to_64.
Defined.

(** The shift of the example gives [0xf800000000000000]. *)
Lemma sar_of_minimum_value :
  Z.shiftr (signed 64 0x8000000000000000) 4 mod 2 ^ 64 = 0xf800000000000000.
Proof. reflexivity. Qed.

(** The same value shifted by 65, beyond the width: [Undefined].  Shifted
    by [2 ** 64 - 1], beyond what the interpreter shifts by: the
    [OverflowError] of [1 << e1] is not caught and leaves the handler. *)
Lemma sar_by_counts_beyond_the_width :
  Machine.expr64
    (VexBinop "Iop_Sar64" (VexConst 0x8000000000000000) (VexConst 65))
    Scenario.idle
  = (Ok (ODataSet (DataSet.mk {[VUndefined]} 64)), Scenario.idle) ∧
  Machine.expr64
    (VexBinop "Iop_Sar64" (VexConst 0x8000000000000000) (VexConst (2 ^ 64 - 1)))
    Scenario.idle
  = (Raise OverflowError, Scenario.idle).
Proof. split; by_evaluation. Qed.

End Examples.

End SarLaws.

(** ** Expressions through the dispatcher *)

Module ExprLaws.
Import ReachingDefinitions VEX HandlerLaws.

Section Dispatch.
Context {interp : Interpreter}.
Variable result_size : VexExpr → N.
Variable offset_op : binop → Value → Value → Exc Value.
Variable object_op : binop → PyObj → PyObj → Exc PyObj.
Variable offset_sar : Z → Value → Value → Exc Value.
Variable vex_operations : gmap string SimIROp.
Variable read_bytes : Z → Z → Exc (list Byte.byte).
Variable memory_endness : string.

Notation _expr := (_expr result_size offset_op object_op offset_sar
                     vex_operations read_bytes memory_endness).

(** The operator of DataSet that [_handle_Binop] comes to for an
    operation, by the first prefix that its name has. *)
Definition operator_of (op : string) : option binop :=
  if String.prefix "Iop_And" op then Some and_
  else if String.prefix "Iop_Or" op then Some or_
  else if String.prefix "Iop_Add" op then Some add
  else if String.prefix "Iop_Sub" op then Some sub
  else if String.prefix "Iop_Xor" op then Some xor
  else if String.prefix "Iop_Shl" op then Some lshift
  else if String.prefix "Iop_Shr" op then Some rshift
  else if String.prefix "Iop_Sal" op then Some lshift
  else None.

(** What an expression made of constants and of these operations comes
    to: its value and its width, an operation being computed on the values
    of its operands and reduced to the width of its first operand; or the
    exception of the first shift that raises, the operands being evaluated
    from left to right. *)
Fixpoint folded (expr : VexExpr) : option (Exc (Z * N)) :=
  match expr with
  | VexConst value => Some (Ok (value, result_size expr))
  | VexBinop op arg0 arg1 =>
      match operator_of op, folded arg0 with
      | Some b, Some (Ok (x, n)) =>
          match folded arg1 with
          | Some (Ok (y, _)) =>
              Some (exc_bind (int_op b x y) (λ z, Ok (z mod 2 ^ Z.of_N n, n)))
          | Some (Raise e) => Some (Raise e)
          | None => None
          end
      | Some b, Some (Raise e) => Some (Raise e)
      | _, _ => None
      end
  | _ => None
  end.

(** The singleton DataSet of a value, as the dispatcher returns it. *)
Definition returned (r : Exc (Z * N)) : Exc PyObj :=
  exc_bind r (λ vn, Ok (ODataSet (DataSet.mk {[VInt vn.1]} vn.2))).

Lemma bin_op_singletons b x y n m :
  DataSet.method offset_op b (DataSet.mk {[VInt x]} n) (DataSet.mk {[VInt y]} m)
  = exc_bind (int_op b x y)
      (λ z, Ok (DataSet.mk {[VInt (z mod 2 ^ Z.of_N n)]} n)).
Proof using Type.
  rewrite DataSetLaws.method_is_bin_op. unfold DataSet._bin_op.
  cbn [DataSet.data DataSet._bits]. rewrite !elements_singleton.
  cbn [DataSet._bin_op_outer DataSet._bin_op_inner exc_bind].
  unfold DataSet._bin_op_body.
  destruct (decide (VInt y = VUndefined ∨ VInt x = VUndefined)) as [[|]|_];
    [done..|].
  cbn [operator].
  pose proof (DataSetFacts.int_op_never_TypeError b x y) as Hnever.
  destruct (int_op b x y) as [z|e]; cbn [exc_bind].
  - rewrite (DataSetLaws.land_mask z (DataSet.mk {[VInt x]} n)).
    cbn [DataSet._bits]. rewrite union_empty_r_L.
    rewrite CompareFacts.DataSet_init_ok; [done|]. apply singleton_not_empty.
  - by destruct e.
Qed.

Lemma binop_on_singletons expr op arg0 arg1 b x y n m w w1 w2 :
  operator_of op = Some b →
  _expr arg0 w = (Ok (ODataSet (DataSet.mk {[VInt x]} n)), w1) →
  _expr arg1 w1 = (Ok (ODataSet (DataSet.mk {[VInt y]} m)), w2) →
  _handle_Binop result_size offset_op object_op offset_sar _expr expr op arg0 arg1 w
  = (returned (exc_bind (int_op b x y) (λ z, Ok (z mod 2 ^ Z.of_N n, n))), w2).
Proof using Type.
  intros Hop H0 H1.
  assert (Hrun : ∀ try_,
    try_ (ODataSet (DataSet.mk {[VInt x]} n)) (ODataSet (DataSet.mk {[VInt y]} m))
      = py_binop offset_op object_op b
          (ODataSet (DataSet.mk {[VInt x]} n)) (ODataSet (DataSet.mk {[VInt y]} m)) →
    with_operands _expr arg0 arg1 try_ w
    = (returned (exc_bind (int_op b x y) (λ z, Ok (z mod 2 ^ Z.of_N n, n))), w2)).
  { intros try_ Htry. unfold with_operands, bind. rewrite H0.
    destruct (decide _) as [|_]; [done|]. rewrite H1.
    destruct (decide _) as [|_]; [done|]. rewrite Htry.
    cbn [py_binop]. rewrite (bin_op_singletons b x y n m).
    pose proof (DataSetFacts.int_op_never_TypeError b x y) as Hnever.
    destruct (int_op b x y) as [z|e]; [done|]. by destruct e. }
  unfold operator_of in Hop. unfold _handle_Binop.
  repeat (destruct (String.prefix _ op);
          [injection Hop as <-; by apply Hrun|]).
  done.
Qed.

(** An operand that raises: the handler raises as well, before it looks at
    the other operand when the operand is the first. *)
Lemma binop_operand_raises expr op arg0 arg1 b e w :
  operator_of op = Some b →
  _expr arg0 w = (Raise e, w) ∨
  (∃ r0, r0 ≠ ONone ∧ _expr arg0 w = (Ok r0, w) ∧ _expr arg1 w = (Raise e, w)) →
  _handle_Binop result_size offset_op object_op offset_sar _expr expr op arg0 arg1 w
  = (Raise e, w).
Proof using Type.
  intros Hop Hraise.
  assert (Hrun : ∀ try_, with_operands _expr arg0 arg1 try_ w = (Raise e, w)).
  { intros try_. unfold with_operands, bind.
    destruct Hraise as [->|(r0 & Hr0 & -> & H1)]; [done|].
    destruct (decide _) as [|_]; [done|]. by rewrite H1. }
  unfold operator_of in Hop. unfold _handle_Binop.
  repeat (destruct (String.prefix _ op); [by apply Hrun|]).
  done.
Qed.

(** X20: the dispatcher folds constants.  An expression made of
    constants and of the operations [And], [Or], [Add], [Sub], [Xor],
    [Shl], [Shr] and [Sal] evaluates, without a change of the state, to the
    singleton of its value: each operation is computed on the values of
    its operands and reduced to the width of its first operand, which is
    the width of the result.  Unless a shift in it raises, by a negative
    count or by a count beyond the limits of the interpreter: no handler
    catches that, and the expression raises what the first such shift
    raises. *)
Theorem constants_fold (expr : VexExpr) (r : Exc (Z * N)) (w : Heap * Engine) :
  folded expr = Some r →
  _expr expr w =
    (match r with
     | Ok (v, n) => Ok (ODataSet (DataSet.mk {[VInt v]} n))
     | Raise e => Raise e
     end, w).
Proof using Type.
  revert r. induction expr as [| | | |value| |op arg0 IH0 arg1 IH1|];
    intros r; try done.
  - intros [= <-]. cbn [VEX._expr]. unfold _handle_Const, lift_exc.
    rewrite CompareFacts.DataSet_init_ok; [done|]. apply singleton_not_empty.
  - cbn [folded VEX._expr]. destruct (operator_of op) as [b|] eqn:Hop; [|done].
    destruct (folded arg0) as [[[x n0]|e0]|]; [| |done].
    + specialize (IH0 _ eq_refl).
      destruct (folded arg1) as [[[y m]|e1]|]; [| |done].
      * specialize (IH1 _ eq_refl). intros [= <-].
        rewrite (binop_on_singletons _ op arg0 arg1 b x y n0 m w w w Hop IH0 IH1).
        by destruct (int_op b x y).
      * specialize (IH1 _ eq_refl). intros [= <-].
        apply (binop_operand_raises _ op arg0 arg1 b); [done|]. right.
        eexists. split; [|split; [exact IH0|exact IH1]]. done.
    + specialize (IH0 _ eq_refl). intros [= <-].
      apply (binop_operand_raises _ op arg0 arg1 b); [done|]. by left.
Qed.

End Dispatch.

(** *** Examples, on the interpreter of the language reference *)

Section Examples.
Existing Instance Scenario.cpython.

(** [(0xffffffffffffffff + 2) ^ 0xf0] at 64 bits: the sum wraps around to
    1. *)
Definition wrapped : VexExpr :=
  VexBinop "Iop_Xor64"
    (VexBinop "Iop_Add64" (VexConst 0xffffffffffffffff) (VexConst 2))
    (VexConst 0xf0).

Lemma constants_fold_witness :
  Machine.expr64 wrapped Scenario.idle
  = (Ok (ODataSet (DataSet.mk {[VInt 0xf1]} 64)), Scenario.idle).
Proof.
  apply (constants_fold CompareFacts.size64 DataSetFacts.no_offset_op
           Machine.no_object_op Machine.no_offset_sar Machine.operations
           Machine.no_memory "Iend_LE" wrapped (Ok (0xf1, 64%N)) Scenario.idle).
  reflexivity.
Defined.

(** [1 << (2 ** 64 - 1)] folds to no value: the dispatcher raises what the
    shift raises. *)
Lemma shift_that_raises :
  Machine.expr64 (VexBinop "Iop_Shl64" (VexConst 1) (VexConst (2 ^ 64 - 1)))
    Scenario.idle
  = (Raise OverflowError, Scenario.idle).
Proof. by_evaluation. Qed.

End Examples.

End ExprLaws.

(** ** Loads from the memory of the binary *)

Module LoadLaws.
Import ReachingDefinitions VEX HandlerLaws.

Lemma byte_range (b : Byte.byte) : 0 ≤ Z.of_N (Byte.to_N b) < 256.
Proof. by destruct b. Qed.

(** The bytes of a string stand for a number below [256 ^ length]. *)
Lemma unpack_le_range (mem : list Byte.byte) :
  0 ≤ unpack_le mem < 256 ^ Z.of_nat (length mem).
Proof.
  induction mem as [|b mem IH]; [done|].
  cbn [unpack_le foldr length]. fold (unpack_le mem).
  rewrite Nat2Z.inj_succ, Z.pow_succ_r by lia.
  pose proof (byte_range b). lia.
Qed.

Lemma unpack_be_range (mem : list Byte.byte) :
  0 ≤ unpack_be mem < 256 ^ Z.of_nat (length mem).
Proof.
  unfold unpack_be.
  assert (H : ∀ acc k, 0 ≤ k → 0 ≤ acc < 256 ^ k →
    0 ≤ foldl (λ acc b, 256 * acc + Z.of_N (Byte.to_N b)) acc mem
      < 256 ^ (k + Z.of_nat (length mem))).
  { induction mem as [|b mem IH]; intros acc k Hk Hacc.
    - simpl. by rewrite Z.add_0_r.
    - cbn [foldl length]. rewrite Nat2Z.inj_succ.
      replace (k + Z.succ (Z.of_nat (length mem)))
        with (Z.succ k + Z.of_nat (length mem)) by lia.
      apply IH; [lia|]. rewrite Z.pow_succ_r by lia.
      pose proof (byte_range b). lia. }
  apply (H 0 0); [done|]. simpl. lia.
Qed.

Lemma add_use_without_memory_definitions h s addr size code_loc :
  KeyedRegion.get_objects_by_offset (memory_definitions s) addr = ∅ →
  add_use (MemoryLocation addr size) code_loc (h, s) = (Ok tt, (h, s)).
Proof.
  intros Hnone. unfold add_use, _add_memory_use, bind, self_.
  by rewrite Hnone, elements_empty.
Qed.

Section Load.
Context {interp : Interpreter}.
Variable result_size : VexExpr → N.
Variable read_bytes : Z → Z → Exc (list Byte.byte).
Variable memory_endness : string.
Variable _expr : VexExpr → M (Heap * Engine) PyObj.

(** The number that the bytes [mem] are read as. *)
Definition unpacked (mem : list Byte.byte) : Z :=
  if decide (memory_endness = "Iend_LE") then unpack_le mem else unpack_be mem.

(** X21: a load from a concrete address that no definition reaches reads
    the memory of the binary only when it is 4 or 8 bytes wide and all of
    its bytes are there: the result is then the singleton of the number
    that the bytes stand for in the byte order of the architecture, a
    number within the width of the load.  A load of another width, or one
    that gets fewer bytes, yields the DataSet of [Undefined] alone.  The
    state is the one that the address left. *)
Theorem load_from_the_binary (expr stmt_addr : VexExpr) (w : Heap * Engine)
    (h1 : Heap) (e1 : Engine) (d : DataSet.t) (a : Z) (mem : list Byte.byte) :
  _expr stmt_addr w = (Ok (ODataSet d), (h1, e1)) →
  DataSet.data d = {[VInt a]} →
  KeyedRegion.get_objects_by_offset (memory_definitions (state e1)) a = ∅ →
  let size := Z.of_N (result_size expr) / 8 in
  read_bytes a size = Ok mem →
  ((size = 4 ∨ size = 8) ∧ Z.of_nat (length mem) = size →
     _handle_Load result_size read_bytes memory_endness _expr expr stmt_addr w
     = (Ok (ODataSet (DataSet.mk {[VInt (unpacked mem)]} (result_size expr))),
        (h1, e1)) ∧
     0 ≤ unpacked mem < 2 ^ (8 * size)) ∧
  (¬ ((size = 4 ∨ size = 8) ∧ Z.of_nat (length mem) = size) →
     _handle_Load result_size read_bytes memory_endness _expr expr stmt_addr w
     = (Ok (ODataSet (DataSet.mk {[VUndefined]} (result_size expr))), (h1, e1))).
Proof using Type.
  intros Haddr Hd Hnone size Hmem.
  assert (Hrun : ∀ v,
    load_static read_bytes memory_endness a size = Ok v →
    _handle_Load result_size read_bytes memory_endness _expr expr stmt_addr w
    = (new_DataSet
         (or_undefined match v with Some z => {[VInt z]} ∪ ∅ | None => ∅ end)
         (result_size expr), (h1, e1))).
  { intros v Hv. unfold _handle_Load, bind. rewrite Haddr. fold size.
    unfold lift_exc, py_iter. rewrite Hd, elements_singleton.
    cbn [_handle_Load_loop]. unfold bind. unfold _handle_Load_at, bind, engine_.
    rewrite Hnone. destruct (decide ((∅ : gset Def.t) = ∅)) as [_|]; [|done].
    unfold lift_exc. rewrite Hv. unfold ret, _codeloc, bind, engine_, ret, on_state.
    rewrite (add_use_without_memory_definitions _ _ _ _ _ Hnone), set_state_state.
    done. }
  split.
  - intros [Hsize Hlen]. split.
    + rewrite (Hrun (Some (unpacked mem))).
      * rewrite union_empty_r_L. unfold or_undefined.
        destruct (decide _) as [He|_]; [set_solver|].
        rewrite new_DataSet_ok; [done|]. set_solver.
      * unfold load_static. rewrite Hmem. simpl.
        destruct mem as [|b mem]; [simpl in Hlen; lia|].
        destruct (decide _) as [_|Hn]; [done|]. destruct Hn. by split.
    + replace (2 ^ (8 * size)) with (256 ^ size)
        by (rewrite Z.pow_mul_r by lia; done).
      rewrite <- Hlen. unfold unpacked.
      destruct (decide _); [apply unpack_le_range|apply unpack_be_range].
  - intros Hno. rewrite (Hrun None).
    + unfold or_undefined. destruct (decide _) as [_|]; [|done].
      rewrite new_DataSet_ok; [done|]. set_solver.
    + unfold load_static. rewrite Hmem. simpl.
      destruct mem as [|b mem]; [done|].
      destruct (decide _) as [Hy|_]; [|done]. destruct Hno.
      destruct Hy as [? ->]. by split.
Qed.

End Load.

(** *** Examples, on the interpreter of the language reference *)

Section Examples.
Existing Instance Scenario.cpython.

(** A binary that holds the eight bytes [2a 01 00 00 00 00 00 00] at
    0x601000 and nothing else. *)
Definition eight_bytes : list Byte.byte :=
  [Byte.x2a; Byte.x01; Byte.x00; Byte.x00; Byte.x00; Byte.x00; Byte.x00; Byte.x00].
Definition a_binary (a n : Z) : Exc (list Byte.byte) :=
  if decide (a = 0x601000) then Ok (take (Z.to_nat n) eight_bytes) else Ok [].
Definition expr_of_binary : VexExpr → M (Heap * Engine) PyObj :=
  VEX._expr CompareFacts.size64 DataSetFacts.no_offset_op Machine.no_object_op
    Machine.no_offset_sar Machine.operations a_binary "Iend_LE".

Lemma load_from_the_binary_witness :
  let size := Z.of_N (CompareFacts.size64 (VexLoad (VexConst 0x601000))) / 8 in
  ((size = 4 ∨ size = 8) ∧ Z.of_nat (length eight_bytes) = size →
     _handle_Load CompareFacts.size64 a_binary "Iend_LE" expr_of_binary
       (VexLoad (VexConst 0x601000)) (VexConst 0x601000) Scenario.idle
     = (Ok (ODataSet (DataSet.mk {[VInt (unpacked "Iend_LE" eight_bytes)]}
                        (CompareFacts.size64 (VexLoad (VexConst 0x601000))))),
        (Scenario.idle.1, Scenario.idle.2)) ∧
     0 ≤ unpacked "Iend_LE" eight_bytes < 2 ^ (8 * size)) ∧
  (¬ ((size = 4 ∨ size = 8) ∧ Z.of_nat (length eight_bytes) = size) →
     _handle_Load CompareFacts.size64 a_binary "Iend_LE" expr_of_binary
       (VexLoad (VexConst 0x601000)) (VexConst 0x601000) Scenario.idle
     = (Ok (ODataSet (DataSet.mk {[VUndefined]}
                        (CompareFacts.size64 (VexLoad (VexConst 0x601000))))),
        (Scenario.idle.1, Scenario.idle.2))).
Proof.
  apply (load_from_the_binary CompareFacts.size64 a_binary "Iend_LE" expr_of_binary
           (VexLoad (VexConst 0x601000)) (VexConst 0x601000) Scenario.idle
           Scenario.idle.1 Scenario.idle.2 (CompareFacts.const64 0x601000)
           0x601000 eight_bytes).
  - by_evaluation.
  - reflexivity.
  - by_evaluation.
  - reflexivity.
Defined.

(** The bytes of the example are read as [0x12a]. *)
Lemma eight_bytes_value : unpacked "Iend_LE" eight_bytes = 0x12a.
Proof. reflexivity. Qed.

End Examples.

End LoadLaws.

(** ** The AIL statements *)

Module AilLaws.
Import ReachingDefinitions AIL UsesLaws StateLaws HandlerLaws.

Section Statements.
Variable _expr : AilExpr → M (Heap * Engine) PyObj.

(** A kill through [kill_register] stops at the call of
    [kill_definitions], which lacks an argument. *)
Lemma kill_register_raises atom w :
  kill_register (Ok atom) w = (Raise TypeError, w).
Proof using Type.
  destruct w as [h e].
  unfold kill_register, bind, lift_exc, _codeloc, bind, engine_, ret, on_state.
  simpl. by rewrite set_state_state.
Qed.

Lemma conditional_jump_raises condition true_target false_target w w1 w2 w3 r1 r2 r3 :
  _expr condition w = (Ok r1, w1) →
  _expr true_target w1 = (Ok r2, w2) →
  _expr false_target w2 = (Ok r3, w3) →
  _ail_handle_ConditionalJump _expr condition true_target false_target w
  = (Raise TypeError, w3).
Proof using Type.
  intros H1 H2 H3.
  unfold _ail_handle_ConditionalJump. unfold bind at 1. rewrite H1.
  unfold bind at 1. rewrite H2. unfold bind at 1. rewrite H3.
  unfold bind at 1. destruct w3 as [h3 e3]. cbn [engine_].
  unfold bind at 1. by rewrite kill_register_raises.
Qed.

Lemma call_raises stmt w w1 r :
  _expr (target stmt) w = (Ok r, w1) →
  _ail_handle_Call _expr stmt w = (Raise TypeError, w1).
Proof using Type.
  intros H1. unfold _ail_handle_Call. unfold bind at 1. rewrite H1.
  unfold bind at 1. destruct w1 as [h1 e1]. cbn [engine_].
  unfold bind at 1. by rewrite kill_register_raises.
Qed.

Lemma conditional_jump_never_returns condition true_target false_target w :
  ∃ e w', _ail_handle_ConditionalJump _expr condition true_target false_target w
          = (Raise e, w').
Proof using Type.
  destruct (_expr condition w) as [[r1|x1] w1] eqn:H1;
    [|exists x1, w1; unfold _ail_handle_ConditionalJump, bind; by rewrite H1].
  destruct (_expr true_target w1) as [[r2|x2] w2] eqn:H2;
    [|exists x2, w2; unfold _ail_handle_ConditionalJump, bind; by rewrite H1, H2].
  destruct (_expr false_target w2) as [[r3|x3] w3] eqn:H3;
    [|exists x3, w3; unfold _ail_handle_ConditionalJump, bind;
      by rewrite H1, H2, H3].
  exists TypeError, w3. eapply conditional_jump_raises; eauto.
Qed.

Lemma call_never_returns stmt w :
  ∃ e w', _ail_handle_Call _expr stmt w = (Raise e, w').
Proof using Type.
  destruct (_expr (target stmt) w) as [[r1|x1] w1] eqn:H1;
    [|exists x1, w1; unfold _ail_handle_Call, bind; by rewrite H1].
  exists TypeError, w1. eapply call_raises; eauto.
Qed.

(** X22: neither a conditional jump nor a call is ever handled to the
    end.  Once the condition and the two targets (the target of the call)
    are evaluated, the handler raises [TypeError] at its first kill, that of
    the instruction pointer, [kill_definitions] being called without its
    [data]: no register is killed, and the state is the one that the
    evaluation left.  If an operand raises, so does the handler. *)
Theorem jumps_and_calls_raise :
  (∀ condition true_target false_target w w1 w2 w3 r1 r2 r3,
     _expr condition w = (Ok r1, w1) →
     _expr true_target w1 = (Ok r2, w2) →
     _expr false_target w2 = (Ok r3, w3) →
     _ail_handle_ConditionalJump _expr condition true_target false_target w
     = (Raise TypeError, w3)) ∧
  (∀ stmt w w1 r,
     _expr (target stmt) w = (Ok r, w1) →
     _ail_handle_Call _expr stmt w = (Raise TypeError, w1)) ∧
  (∀ condition true_target false_target w,
     ∃ e w', _ail_handle_ConditionalJump _expr condition true_target false_target w
             = (Raise e, w')) ∧
  (∀ stmt w, ∃ e w', _ail_handle_Call _expr stmt w = (Raise e, w')).
Proof using Type.
  split; [apply conditional_jump_raises|]. split; [apply call_raises|].
  split; [apply conditional_jump_never_returns|apply call_never_returns].
Qed.


End Statements.


End AilLaws.

(** ** Blocks and observations *)

Module BlockLaws.
Import ReachingDefinitions ReachingDefinitionAnalysis SimEngineRD.

(** *** What [observe] records *)

(** The point [(ins_addr, ob_type)] is among the observation points. *)
Definition requested (o : Observer) (k : option Z * Z) : Prop :=
  ∃ points, _observation_points o = Some points ∧ k ∈ points.

(** On statements without a double, [index] finds the position. *)
Lemma index_NoDup (statements : list VexStmt) : ∀ i stmt,
  NoDup statements → statements !! i = Some stmt → index stmt statements = Ok i.
Proof.
  induction statements as [|x l IH]; intros i stmt Hnd Hi; [done|].
  apply NoDup_cons in Hnd as [Hx Hnd]. simpl.
  destruct i as [|i]; simpl in Hi.
  - injection Hi as ->. by destruct (decide (stmt = stmt)).
  - destruct (decide (x = stmt)) as [->|_].
    + destruct Hx. by eapply list_elem_of_lookup_2.
    + by rewrite (IH i stmt Hnd Hi).
Qed.

(** X25: [observe] records a state only where it was asked to.  A point
    that is not among the observation points leaves the results alone.  At
    a requested point, an AIL statement is always recorded; a VEX
    statement is recorded before it only if it is an [IMark], and after it
    only if it is the last statement of the block or the one before an
    [IMark] (the statements of the block being pairwise different).  What
    is recorded, under the key of the point, is a copy of the state. *)
Theorem observe_records_on_request (ins_addr : option Z) (state : ReachingDefinitions.t)
    (ob_type : Z) (o : Observer) :
  (¬ requested o (ins_addr, ob_type) →
     ∀ stmt, observe ins_addr stmt state ob_type o = (Ok tt, o)) ∧
  (requested o (ins_addr, ob_type) →
     (∀ stmt, observe ins_addr (OfAil stmt) state ob_type o
              = (Ok tt, record ins_addr ob_type state o)) ∧
     (∀ stmt statements, ob_type = OP_BEFORE →
        observe ins_addr (OfVex stmt statements) state ob_type o
        = (Ok tt, if is_IMark stmt then record ins_addr ob_type state o else o)) ∧
     (∀ stmt statements i, ob_type = OP_AFTER →
        NoDup statements → statements !! i = Some stmt →
        observe ins_addr (OfVex stmt statements) state ob_type o
        = (Ok tt, if decide (S i = length statements
                             ∨ is_IMark <$> statements !! S i = Some true)
                  then record ins_addr ob_type state o else o))) ∧
  observed_results (record ins_addr ob_type state o) !! (ins_addr, ob_type)
    = Some (copy state).
Proof.
  split; [|split].
  - intros Hno stmt. unfold observe, bind, get.
    destruct (_observation_points o) as [points|] eqn:Hp; [|done].
    destruct (decide _) as [Hin|]; [|done]. destruct Hno. by exists points.
  - intros (points & Hp & Hin). unfold observe, bind, get. rewrite Hp.
    destruct (decide ((ins_addr, ob_type) ∈ points)) as [_|]; [|done].
    split; [done|]. split.
    + intros stmt statements ->. destruct (is_IMark stmt) eqn:Hm.
      * destruct (decide _) as [|Hn]; [done|]. destruct Hn. by split.
      * destruct (decide _) as [[_ ?]|_]; [done|].
        destruct (decide (OP_BEFORE = OP_AFTER)); done.
    + intros stmt statements i -> Hnd Hi.
      destruct (decide _) as [[? _]|_]; [done|].
      destruct (decide (OP_AFTER = OP_AFTER)) as [_|]; [|done].
      unfold lift_exc. rewrite (index_NoDup statements i stmt Hnd Hi). simpl.
      assert (Hlen : (i < length statements)%nat) by (by eapply lookup_lt_Some).
      destruct (decide (i = (length statements - 1)%nat ∨ _)) as [Hy|Hn];
        destruct (decide (S i = length statements ∨ _)) as [Hy'|Hn'];
        try done.
      * destruct Hn'. destruct Hy as [->|?]; [left; lia|by right].
      * destruct Hn. destruct Hy' as [?|?]; [left; lia|by right].
  - unfold record. simpl. apply lookup_insert_eq.
Qed.

(** *** [one_result] *)

(** X26: [one_result] returns a state exactly when one state was
    observed, and then returns that state; with no observed state or with
    several it raises [ValueError]. *)
Theorem one_result_of_one (o : Observer) :
  (∀ s, one_result o = Ok s ↔ ∃ k, observed_results o = {[k := s]}) ∧
  ((¬ ∃ k s, observed_results o = {[k := s]}) → one_result o = Raise ValueError).
Proof.
  assert (Hone : ∀ k s, map_to_list (observed_results o) = [(k, s)] →
                        observed_results o = {[k := s]}).
  { intros k s Hl. rewrite <- (list_to_map_to_list (observed_results o)), Hl.
    simpl. by rewrite insert_empty. }
  split.
  - intros s. unfold one_result. split.
    + destruct (map_to_list (observed_results o)) as [|[k v] [|? ?]] eqn:Hl;
        try done. intros [= ->]. exists k. by apply Hone.
    + intros [k ->]. by rewrite map_to_list_singleton.
  - intros Hno. unfold one_result.
    destruct (map_to_list (observed_results o)) as [|[k v] [|? ?]] eqn:Hl;
      try done. destruct Hno. exists k, v. by apply Hone.
Qed.

(** *** Blocks that end in a call *)

Section VexBlocks.
Context {interp : Interpreter}.
Variable result_size : VexExpr → N.
Variable offset_op : binop → Value → Value → Exc Value.
Variable object_op : binop → PyObj → PyObj → Exc PyObj.
Variable offset_sar : Z → Value → Value → Exc Value.
Variable vex_operations : gmap string VEX.SimIROp.
Variable read_bytes : Z → Z → Exc (list Byte.byte).
Variable memory_endness : string.

Notation process := (SimEngineRD_VEX.process result_size offset_op object_op
                       offset_sar vex_operations read_bytes memory_endness).
Notation _process_Stmt_loop :=
  (SimEngineRD_VEX._process_Stmt_loop result_size offset_op object_op
     offset_sar vex_operations read_bytes memory_endness).

(** The engine as [_process] sets it up for a block. *)
Definition set_up (state : ReachingDefinitions.t) (block_addr : Z)
    (w : Heap * Engine * Observer) : Heap * Engine * Observer :=
  (w.1.1, mkEngine state ∅ block_addr (stmt_idx w.1.2) (ins_addr w.1.2), w.2).

(** X24: the VEX engine never returns from a block whose jump kind is
    [Ijk_Call].  When the statements of the block are handled without an
    exception, [_process_Stmt] hands the last one to [_hl_handle_Call],
    which SimEngineRD does not override and which raises
    [NotImplementedError]; a block without statements raises
    [UnboundLocalError] instead, the variable [stmt] never having been
    bound. *)
Theorem call_blocks_never_return (state : ReachingDefinitions.t) (block_addr : Z)
    (statements : list VexStmt) (w : Heap * Engine * Observer) :
  (∀ s w', process state block_addr statements "Ijk_Call" w ≠ (Returned s, w')) ∧
  (statements = [] →
     process state block_addr statements "Ijk_Call" w
     = (RaisedUnboundLocalError, set_up state block_addr w)) ∧
  (∀ w', statements ≠ [] →
     _process_Stmt_loop statements 0 statements (set_up state block_addr w)
       = (Ok tt, w') →
     process state block_addr statements "Ijk_Call" w
     = (Raised NotImplementedError, w')).
Proof using Type.
  destruct w as [[h e] o]. unfold set_up. cbn [fst snd].
  unfold SimEngineRD_VEX.process, SimEngineRD_VEX._process,
    SimEngineRD_VEX._process_Stmt.
  split; [|split].
  - intros s w'.
    destruct (_process_Stmt_loop statements 0 statements _) as [[[]|x] [[h1 e1] o1]];
      [|done].
    destruct (decide ("Ijk_Call" = "Ijk_Call")) as [_|]; [|done].
    by destruct (last statements).
  - intros ->. cbn [SimEngineRD_VEX._process_Stmt_loop last]. unfold ret.
    by destruct (decide ("Ijk_Call" = "Ijk_Call")).
  - intros [[h1 e1] o1] Hne Hloop. rewrite Hloop.
    destruct (decide ("Ijk_Call" = "Ijk_Call")) as [_|]; [|done].
    destruct (last statements) eqn:Hlast; [done|].
    by apply last_None in Hlast.
Qed.

End VexBlocks.

(** *** AIL blocks with a call or a conditional jump *)

Section AilBlocks.
Variable _expr : AilExpr → M (Heap * Engine) PyObj.

(** The statements that kill registers. *)
Definition kills (stmt : AilStmt) : Prop :=
  match stmt with
  | AilCallStmt _ | AilConditionalJump _ _ _ => True
  | _ => False
  end.

Lemma killing_statement_raises stmt w :
  kills stmt → ∃ e w', SimEngineRD_AIL._ail_handle_Stmt _expr stmt w = (Raise e, w').
Proof using Type.
  intros Hk. destruct w as [[h e] o].
  unfold SimEngineRD_AIL._ail_handle_Stmt. unfold bind at 1.
  destruct (observe_stmt (OfAil stmt) OP_BEFORE (h, e, o)) as [[[]|x] [[h1 e1] o1]];
    [|eauto].
  unfold bind at 1. unfold on_engine at 1.
  assert (Hr : ∃ x w', AIL._ail_handle_Stmt _expr stmt (h1, e1) = (Raise x, w')).
  { destruct stmt; try done; simpl.
    - apply AilLaws.conditional_jump_never_returns.
    - apply AilLaws.call_never_returns. }
  destruct Hr as (x & [h2 e2] & ->). eauto.
Qed.

Lemma loop_with_killing_statement (statements : list (Z * AilStmt)) : ∀ stmt_idx w,
  (∃ a stmt, (a, stmt) ∈ statements ∧ kills stmt) →
  ∃ e w', SimEngineRD_AIL._process_Stmt_loop _expr stmt_idx statements w = (Raise e, w').
Proof using Type.
  induction statements as [|[a0 stmt0] rest IH]; intros stmt_idx w (a & stmt & Hin & Hk).
  - by apply elem_of_nil in Hin.
  - cbn [SimEngineRD_AIL._process_Stmt_loop]. unfold bind at 1.
    destruct (on_engine _ w) as [[[]|x] w1]; [|eauto].
    unfold bind at 1.
    destruct (SimEngineRD_AIL._ail_handle_Stmt _expr stmt0 w1) as [[[]|x] w2] eqn:Hs;
      [|eauto].
    apply elem_of_cons in Hin as [[= <- <-]|Hin].
    + destruct (killing_statement_raises stmt w1 Hk) as (x & w' & Hr). congruence.
    + apply IH. eauto.
Qed.

(** X27: the AIL engine never returns from a block that holds a call or
    a conditional jump: the handler of the statement raises, and [process]
    hands the exception on. *)
Theorem ail_blocks_with_kills_never_return (state : ReachingDefinitions.t)
    (block_addr : Z) (statements : list (Z * AilStmt)) (w : Heap * Engine * Observer) :
  (∃ a stmt, (a, stmt) ∈ statements ∧ kills stmt) →
  ∃ e w', SimEngineRD_AIL.process _expr state block_addr statements w = (Raised e, w').
Proof using Type.
  intros Hk. destruct w as [[h e] o].
  unfold SimEngineRD_AIL.process, SimEngineRD_AIL._process,
    SimEngineRD_AIL._process_Stmt.
  destruct (loop_with_killing_statement statements 0
              (h, mkEngine state ∅ block_addr (stmt_idx e) (ins_addr e), o) Hk)
    as (x & w' & ->).
  simpl. eauto.
Qed.

End AilBlocks.

Definition no_observer : Observer := mkObserver None ∅.

Lemma ail_blocks_with_kills_never_return_witness :
  ∃ e w',
    SimEngineRD_AIL.process AIL._expr_atom Scenario.blank 0x400000
      [(0x400000, AilAssignment (AilTmp 1 64) (AilConst 5 64));
       (0x400004, AilCallStmt KillFacts.the_call)]
      (Scenario.idle, no_observer)
    = (Raised e, w').
Proof.
  apply (ail_blocks_with_kills_never_return AIL._expr_atom Scenario.blank 0x400000
           [(0x400000, AilAssignment (AilTmp 1 64) (AilConst 5 64));
            (0x400004, AilCallStmt KillFacts.the_call)]
           (Scenario.idle, no_observer)).
  exists 0x400004, (AilCallStmt KillFacts.the_call). split; [|exact I].
  right. left.
Defined.

End BlockLaws.
